(** * go-bandit: the epsilon-greedy bandit state

    A shallow embedding of the two source files of package [bandit]:

    - [epsilon_greedy.go]: the variant guarded by a [sync.RWMutex], whose
      operations validate their arguments and return errors;
    - [greedy.go]: the minimal variant, without error results, whose
      [Update] takes the mutex around the final store only.

    Both files declare a type [EpsilonGreedy] and methods of the same
    names, so each file is a module here, named after the file.

    Conventions of the embedding.
    - Go's [float64] is the carrier of a [Float64] structure: the five
      operations the code uses, the two literals and the conversion
      [float64(n)].  The instance [binary64] is IEEE 754 double precision,
      as in Go: what depends on the arithmetic is stated in it, with the
      rounding of every operation accounted for.  The instance [exact] (the
      rationals, no rounding) is an idealisation, kept for comparison.
    - Go's [int] and [int64] are integers of 64 bits: a [Z] with the
      wrap-around of [++] written out ([wrap64]).
    - A slice is a [list]; indexing outside the slice is a run-time panic.
    - A computation that may panic returns an [option]: [None] is the panic.
    - A method with a pointer receiver takes the state and returns its
      result together with the state it leaves behind. *)

From Stdlib Require Import ZArith QArith Qpower Qabs Qcanon Floats Lia Lqa.
From stdpp Require Import base option list numbers.

Local Open Scope Z_scope.

(** ** Numbers *)

(** The operations of [float64] that the package uses. *)
Class Float64 (F : Type) := {
  fzero : F;                    (* the literal 0, and the zero value *)
  fone : F;                     (* the literal 1 *)
  fadd : F -> F -> F;
  fsub : F -> F -> F;
  fmul : F -> F -> F;
  fdiv : F -> F -> F;
  flt : F -> F -> bool;         (* [x < y]; [x > y] is [flt y x] *)
  of_int : Z -> F               (* the conversion [float64(n)] *)
}.

(** Exact arithmetic: the rationals. *)
#[global] Instance exact : Float64 Qc := {
  fzero := Q2Qc 0;
  fone := Q2Qc 1;
  fadd := Qcplus;
  fsub := Qcminus;
  fmul := Qcmult;
  fdiv := Qcdiv;
  flt := fun x y => bool_decide (Qclt x y);
  of_int := Qc_of_Z
}.

(** IEEE 754 binary64, rounding to nearest even: Go's [float64], every
    operation rounded on its own (Go lets an implementation fuse [x*y + z];
    the examples below come out the same either way).  The conversion of an
    integer rounds it to the nearest float. *)
Definition float_of_int (n : Z) : float :=
  SF2Prim (binary_normalize prec emax n 0 false).

#[global] Instance binary64 : Float64 float := {
  fzero := PrimFloat.zero;
  fone := PrimFloat.one;
  fadd := PrimFloat.add;
  fsub := PrimFloat.sub;
  fmul := PrimFloat.mul;
  fdiv := PrimFloat.div;
  flt := PrimFloat.ltb;
  of_int := float_of_int
}.

(** The rational a finite [float64] denotes; [None] for infinities and NaN. *)
Definition float_value (x : float) : option Qc :=
  match Prim2SF x with
  | S754_zero _ => Some (Q2Qc 0)
  | S754_finite s m e =>
      let q := Qmult (inject_Z (Zpos m)) (Qpower 2 e) in
      Some (Q2Qc (if s then Qopp q else q))
  | S754_infinity _ | S754_nan => None
  end.

(** Go's [int] on a 64-bit platform, and [int64]: [z] reduced to
    [-2^63 .. 2^63 - 1]. *)
Definition wrap64 (z : Z) : Z := (z + 2 ^ 63) mod 2 ^ 64 - 2 ^ 63.

(** ** The numbers that floats denote *)

(** [2 ^ e] for an exponent of either sign. *)
Definition pow2 (e : Z) : Q := Qpower 2 e.

(** The rational that a finite float denotes; 0 for the others. *)
Definition SF2Q (r : spec_float) : Q :=
  match r with
  | S754_finite s m e => (inject_Z (cond_Zopp s (Zpos m)) * pow2 e)%Q
  | _ => 0%Q
  end.

(** The float is a zero or a positive finite number. *)
Definition SFnonneg (r : spec_float) : Prop :=
  match r with
  | S754_zero _ | S754_finite false _ _ => True
  | _ => False
  end.

(** The same of a [float64]. *)
Definition F2Q (x : float) : Q := SF2Q (Prim2SF x).

Definition Fnonneg (x : float) : Prop := SFnonneg (Prim2SF x).

(** The [float64] is finite, not negative, and at most [2^j]. *)
Definition upto (j : Z) (x : float) : Prop := Fnonneg x /\ (F2Q x <= pow2 j)%Q.

(** The number is a float: at most 53 bits at an exponent of the range. *)
Definition in_format (c : Q) : Prop :=
  exists M E : Z, 0 <= M < 2 ^ 53 /\ -1074 <= E <= 971 /\
    (c == inject_Z M * pow2 E)%Q.

(** ** Rounding *)

(** The operations of [binary64] round through [shr] of the library, which
    shifts a mantissa to the right and keeps a record of what it drops.
    What a record says of the number [y] it stands for: [shr_m] is its
    integer part, [shr_r] tells whether the rest reaches a half, and
    [shr_s] whether something is left beyond that. *)
Definition shr_rep (y : Q) (mrs : shr_record) : Prop :=
  0 <= shr_m mrs /\
  exists d : Q,
    (y == inject_Z (shr_m mrs) + (if shr_r mrs then 1 # 2 else 0) + d)%Q /\
    if shr_s mrs then (0 < d /\ d < 1 # 2)%Q else (d == 0)%Q.

(** The float of sign [s] that the integer [mr] stands for at the exponent
    [e]: zero, [mr * 2^e] with its mantissa brought back below [2^53], or
    an infinity beyond the largest exponent. *)
Definition SFround (s : bool) (mr e : Z) : spec_float :=
  if mr =? 0 then S754_zero s
  else if mr =? 2 ^ 53 then
    if e + 1 <=? 971 then S754_finite s (2 ^ 52) (e + 1) else S754_infinity s
  else if e <=? 971 then S754_finite s (Z.to_pos mr) e else S754_infinity s.

(** [r] is the number [x >= 0] rounded: the float of an integer [mr]
    within a half of [x] at an exponent [e] that leaves [x] 53 bits, or is
    the least one. *)
Definition rounds (x : Q) (r : spec_float) : Prop :=
  exists (s : bool) (mr e : Z),
    r = SFround s mr e /\ (s = true -> mr = 0) /\
    0 <= mr <= 2 ^ 53 /\ -1074 <= e /\
    (-1074 < e -> 2 ^ 52 <= mr /\ (pow2 (e + 52) <= x)%Q) /\
    (inject_Z mr - (1 # 2) <= x * pow2 (- e) /\
     x * pow2 (- e) <= inject_Z mr + (1 # 2))%Q.

(** [x] rounded is the [float64] [r]. *)
Definition Frounds (x : Q) (r : float) : Prop := rounds x (Prim2SF r).

(** What one operation of [binary64] may add to the error, for numbers up
    to [2^j]: [2^-53] of [2^j], and [2^-1075]. *)
Definition ulp_err (j : Z) : Q := (pow2 (j - 53) + pow2 (-1075))%Q.

(** The literals of small integers, as linear arithmetic reads them. *)
Ltac inject_consts :=
  change (inject_Z 0) with 0%Q in *; change (inject_Z 1) with 1%Q in *;
  change (inject_Z 2) with 2%Q in *.

(** ** Slices *)

(** [len(s)] *)
Definition len {A} (s : list A) : Z := Z.of_nat (length s).

(** [s[i]] as an expression: panics outside [0, len(s)). *)
Definition index {A} (s : list A) (i : Z) : option A :=
  if decide (0 <= i < len s) then s !! Z.to_nat i else None.

(** [s[i] = v]: panics outside [0, len(s)). *)
Definition store {A} (s : list A) (i : Z) (v : A) : option (list A) :=
  if decide (0 <= i < len s) then Some (<[Z.to_nat i := v]> s) else None.

(** The most elements of eight bytes ([int], [int64], [float64]) that a
    slice can have on a 64-bit platform, where the runtime manages 2^48
    bytes. *)
Definition max_len : Z := 2 ^ 45.

(** [make([]T, n)] with [zero] the zero value of [T], for the element types
    of the package ([int], [int64], [float64]): panics when [n < 0] and
    when [n] elements are more than the runtime allocates ("makeslice: len
    out of range").  Below that bound the allocation is taken to succeed: a
    machine that runs out of memory stops the program with a fatal error,
    which is no panic and no behaviour of the package. *)
Definition make {A} (zero : A) (n : Z) : option (list A) :=
  if decide (n < 0 \/ max_len < n) then None
  else Some (replicate (Z.to_nat n) zero).

(** [make([]T, len(s))] for a slice [s] that exists: [s] was allocated, so
    its length is within the bound of [make] and the call does not panic. *)
Definition make_len {A B} (zero : A) (s : list B) : list A :=
  replicate (length s) zero.

(** [copy(dst, src)]: the first [min(len(dst), len(src))] elements of [src]
    overwrite those of [dst]. *)
Definition copy {A} (dst src : list A) : list A :=
  take (length dst) src ++ drop (length src) dst.

(** ** Errors and randomness *)

(** The error values the package returns.  Their declarations are in a file
    of the package that is not among the sources; only their identity
    matters. *)
Inductive error : Set :=
| ErrInvalidArms
| ErrArmsIndexOutOfRange
| ErrInvalidReward
| ErrInvalidEpsilon
| ErrInvalidLength.

(** A finite distribution: the listed outcomes, each as likely as every
    other (an outcome listed twice is twice as likely). *)
Definition dist (A : Type) : Type := list A.

(** The distribution with one outcome. *)
Definition point {A} (a : A) : dist A := [a].

(** [rand.Intn(n)] of [math/rand]: "a non-negative pseudo-random number in
    the half-open interval [0,n)"; "it panics if n <= 0". *)
Definition rand_Intn (n : Z) : option (dist Z) :=
  if decide (n <= 0) then None else Some (Z.of_nat <$> seq 0 (Z.to_nat n)).

(** [d] is the uniform distribution on [0, n). *)
Definition uniform_on (n : Z) (d : dist Z) : Prop :=
  NoDup d /\ forall v, v ∈ d <-> 0 <= v < n.

(** ** Goroutines *)

(** Goroutines that share a state of type [S]; each has a local state of
    type [T] (where it is in its code, and its local variables).  [step]
    runs one action of a goroutine; it is [None] when the goroutine cannot
    move: it has returned, or it waits for the mutex.  A schedule names the
    goroutine that moves next, action after action; it is refused ([None])
    when it names a goroutine that cannot move. *)
Section sched.
Context {T S : Type} (step : T -> S -> option (T * S)).

Definition move (i : nat) (cfg : list T * S) : option (list T * S) :=
  t ← cfg.1 !! i;
  ts ← step t cfg.2;
  Some (<[i := ts.1]> cfg.1, ts.2).

Fixpoint run (schedule : list nat) (cfg : list T * S) : option (list T * S) :=
  match schedule with
  | [] => Some cfg
  | i :: schedule' => cfg' ← move i cfg; run schedule' cfg'
  end.
End sched.

(** A state guarded by a [sync.Mutex] (or the write side of a
    [sync.RWMutex]): [held] tells whether some goroutine holds it. *)
Record guarded (B : Type) := Guarded { held : bool; shared : B }.
Arguments Guarded {B}.
Arguments held {B}.
Arguments shared {B}.

(** [Lock()]: enabled only while the mutex is free. *)
Definition Lock {B} (g : guarded B) : option (guarded B) :=
  if held g then None else Some (Guarded true (shared g)).

(** [Unlock()] *)
Definition Unlock {B} (g : guarded B) : guarded B := Guarded false (shared g).

(** ** The helpers [maxMean] and [max] *)

(** The scan both helpers share: [best] is the largest value seen so far
    and [besti] the place it was first seen; [i] is the place of the head
    of [l]. *)
Fixpoint first_max `{Float64 F} (best : F) (besti i : Z) (l : list F) : Z :=
  match l with
  | [] => besti
  | x :: l' =>
      if flt best x then first_max x i (i + 1) l'
      else first_max best besti (i + 1) l'
  end.

(** Modelled from the spec: [maxMean(counts, rewards)], called by
    [SelectArm] of epsilon_greedy.go, is declared in a file that is not
    among the sources.  The spec: exploit returns "the index of the arm
    with the highest current meanReward"; "when multiple arms share the
    maximum mean reward, return the lowest index among them (first-occurring
    maximum)"; the result is "undefined only if N == 0" (a panic here). *)
Definition maxMean `{Float64 F} (counts : list Z) (rewards : list F) : option Z :=
  match rewards with
  | [] => None
  | x :: l => Some (first_max x 0 1 l)
  end.

(** Modelled from the spec: [max(rewards...)], called by [SelectArm] of
    greedy.go, is declared in a file that is not among the sources (it
    returns an [int], so it is not Go's builtin).  Same words of the spec as
    for [maxMean]. *)
Definition max `{Float64 F} (array : list F) : option Z :=
  match array with
  | [] => None
  | x :: l => Some (first_max x 0 1 l)
  end.

(** ** epsilon_greedy.go *)

Module epsilon_greedy.
Section defs.
Context `{Float64 F}.

(** The struct.  Its embedded [sync.RWMutex] is left out of the record:
    where goroutines run together it is the [held] flag of [guarded]. *)
Record EpsilonGreedy := {
  Epsilon : F;
  Counts : list Z;
  Rewards : list F
}.

(** [Init]: the mutex is held from entry to return.  It panics when
    [nArms] is more than [make] allocates. *)
Definition Init (nArms : Z) (b : EpsilonGreedy)
  : option (option error * EpsilonGreedy) :=
  if decide (nArms < 1) then Some (Some ErrInvalidArms, b)
  else
    counts ← make 0 nArms;
    rewards ← make fzero nArms;
    Some (None, {| Epsilon := Epsilon b; Counts := counts; Rewards := rewards |}).

(** [SelectArm]: the read lock is held from entry to return. *)
Definition SelectArm (probability : F) (b : EpsilonGreedy)
  : option (dist Z * EpsilonGreedy) :=
  if flt (Epsilon b) probability then
    i ← maxMean (Counts b) (Rewards b);
    Some (point i, b)
  else
    d ← rand_Intn (len (Rewards b));
    Some (d, b).

(** [Update]: the mutex is held from entry to return. *)
Definition Update (chosenArm : Z) (reward : F) (b : EpsilonGreedy)
  : option (option error * EpsilonGreedy) :=
  if decide (chosenArm < 0 \/ chosenArm >= len (Rewards b)) then
    Some (Some ErrArmsIndexOutOfRange, b)
  else if flt reward fzero then
    Some (Some ErrInvalidReward, b)
  else
    c ← index (Counts b) chosenArm;
    counts ← store (Counts b) chosenArm (wrap64 (c + 1));
    c' ← index counts chosenArm;
    let n := of_int c' in
    oldRewards ← index (Rewards b) chosenArm;
    rewards ← store (Rewards b) chosenArm
                (fdiv (fadd (fmul oldRewards (fsub n fone)) reward) n);
    Some (None, {| Epsilon := Epsilon b; Counts := counts; Rewards := rewards |}).

(** [GetCounts]: the read lock is held from entry to return. *)
Definition GetCounts (b : EpsilonGreedy) : option (list Z * EpsilonGreedy) :=
  let sCopy := make_len 0 (Counts b) in
  Some (copy sCopy (Counts b), b).

(** [GetRewards]: the read lock is held from entry to return. *)
Definition GetRewards (b : EpsilonGreedy) : option (list F * EpsilonGreedy) :=
  let sCopy := make_len fzero (Rewards b) in
  Some (copy sCopy (Rewards b), b).

(** [NewEpsilonGreedy]: [inl] is [(nil, err)], [inr] is [(b, nil)]. *)
Definition NewEpsilonGreedy (epsilon : F) (counts : list Z) (rewards : list F)
  : error + EpsilonGreedy :=
  if flt epsilon fzero || flt fone epsilon then inl ErrInvalidEpsilon
  else if decide (len counts <> len rewards) then inl ErrInvalidLength
  else inr {| Epsilon := epsilon; Rewards := rewards; Counts := counts |}.

(** [Update] as a goroutine, action by action.  [b.Lock()] comes first
    and the deferred [b.Unlock()] last; every read and every write of
    the shared slices is an action of its own.  A panic is not recovered:
    the goroutine that panics moves no more. *)
Inductive Update_at :=
| AtLock                          (* b.Lock() *)
| AtChecks                        (* the two if statements *)
| AtIncrRead                      (* b.Counts[chosenArm]++, the read *)
| AtIncrWrite (c : Z)             (* b.Counts[chosenArm]++, the write *)
| AtN                             (* n := float64(b.Counts[chosenArm]) *)
| AtOld (n : F)                   (* oldRewards := b.Rewards[chosenArm] *)
| AtAssign (v : F)                (* b.Rewards[chosenArm] = ... *)
| AtUnlock (e : option error)     (* the deferred b.Unlock() *)
| Returned (e : option error)
| Panicked.

Definition with_counts (counts : list Z) (b : EpsilonGreedy) : EpsilonGreedy :=
  {| Epsilon := Epsilon b; Counts := counts; Rewards := Rewards b |}.

Definition with_rewards (rewards : list F) (b : EpsilonGreedy) : EpsilonGreedy :=
  {| Epsilon := Epsilon b; Counts := Counts b; Rewards := rewards |}.

Definition Update_step (chosenArm : Z) (reward : F)
    (at_ : Update_at) (g : guarded EpsilonGreedy)
  : option (Update_at * guarded EpsilonGreedy) :=
  let b := shared g in
  match at_ with
  | AtLock => g' ← Lock g; Some (AtChecks, g')
  | AtChecks =>
      if decide (chosenArm < 0 \/ chosenArm >= len (Rewards b)) then
        Some (AtUnlock (Some ErrArmsIndexOutOfRange), g)
      else if flt reward fzero then
        Some (AtUnlock (Some ErrInvalidReward), g)
      else Some (AtIncrRead, g)
  | AtIncrRead =>
      match index (Counts b) chosenArm with
      | Some c => Some (AtIncrWrite c, g)
      | None => Some (Panicked, g)
      end
  | AtIncrWrite c =>
      match store (Counts b) chosenArm (wrap64 (c + 1)) with
      | Some counts => Some (AtN, Guarded (held g) (with_counts counts b))
      | None => Some (Panicked, g)
      end
  | AtN =>
      match index (Counts b) chosenArm with
      | Some c' => Some (AtOld (of_int c'), g)
      | None => Some (Panicked, g)
      end
  | AtOld n =>
      match index (Rewards b) chosenArm with
      | Some oldRewards =>
          Some (AtAssign (fdiv (fadd (fmul oldRewards (fsub n fone)) reward) n), g)
      | None => Some (Panicked, g)
      end
  | AtAssign v =>
      match store (Rewards b) chosenArm v with
      | Some rewards => Some (AtUnlock None, Guarded (held g) (with_rewards rewards b))
      | None => Some (Panicked, g)
      end
  | AtUnlock e => Some (Returned e, Unlock g)
  | Returned _ | Panicked => None
  end.
End defs.
Arguments EpsilonGreedy F : clear implicits.
Arguments Update_at F : clear implicits.
End epsilon_greedy.

(** ** greedy.go *)

Module greedy.
Section defs.
Context `{Float64 F}.

(** The struct.  Its embedded [sync.Mutex] is left out of the record, as
    above. *)
Record EpsilonGreedy := {
  Epsilon : F;
  Counts : list Z;
  Rewards : list F;
  N : Z
}.

(** [SelectArm].  The value of [rand.Float64()] is the argument [draw]. *)
Definition SelectArm (draw : F) (b : EpsilonGreedy)
  : option (dist Z * EpsilonGreedy) :=
  let rewards := Rewards b in
  if flt (Epsilon b) draw then
    i ← max rewards;
    Some (point i, b)
  else
    d ← rand_Intn (len rewards);
    Some (d, b).

(** [Update], run alone.  It has no error result. *)
Definition Update (chosenArm : Z) (reward : F) (b : EpsilonGreedy)
  : option EpsilonGreedy :=
  c ← index (Counts b) chosenArm;
  counts ← store (Counts b) chosenArm (wrap64 (c + 1));
  c' ← index counts chosenArm;
  let n := of_int c' in
  v ← index (Rewards b) chosenArm;
  let newValue := fdiv (fadd (fmul v (fsub n fone)) reward) n in
  rewards ← store (Rewards b) chosenArm newValue;
  Some {| Epsilon := Epsilon b; Counts := counts; Rewards := rewards; N := N b |}.

Definition SetRewards (rewards : list F) (b : EpsilonGreedy) : EpsilonGreedy :=
  {| Epsilon := Epsilon b; Counts := Counts b; Rewards := rewards; N := N b |}.

Definition SetCounts (counts : list Z) (b : EpsilonGreedy) : EpsilonGreedy :=
  {| Epsilon := Epsilon b; Counts := counts; Rewards := Rewards b; N := N b |}.

(** [NewEpsilonGreedy]: no error result; [make] panics when [nArms < 0]. *)
Definition NewEpsilonGreedy (nArms : Z) (epsilonDecay : F) : option EpsilonGreedy :=
  rewards ← make fzero nArms;
  counts ← make 0 nArms;
  Some {| N := nArms; Epsilon := epsilonDecay; Rewards := rewards; Counts := counts |}.

(** [Update] as a goroutine, action by action: the reads and the write
    of [b.Counts] and the read of [b.Rewards] come before [b.Lock()].  A
    panic is not recovered: the goroutine that panics moves no more. *)
Inductive Update_at :=
| AtIncrRead                      (* b.Counts[chosenArm]++, the read *)
| AtIncrWrite (c : Z)             (* b.Counts[chosenArm]++, the write *)
| AtN                             (* n := float64(b.Counts[chosenArm]) *)
| AtV (n : F)                     (* v := float64(b.Rewards[chosenArm]) *)
| AtLock (newValue : F)           (* b.Lock() *)
| AtAssign (newValue : F)         (* b.Rewards[chosenArm] = newValue *)
| AtUnlock                        (* b.Unlock() *)
| Returned
| Panicked.

Definition with_counts (counts : list Z) (b : EpsilonGreedy) : EpsilonGreedy :=
  {| Epsilon := Epsilon b; Counts := counts; Rewards := Rewards b; N := N b |}.

Definition with_rewards (rewards : list F) (b : EpsilonGreedy) : EpsilonGreedy :=
  {| Epsilon := Epsilon b; Counts := Counts b; Rewards := rewards; N := N b |}.

Definition Update_step (chosenArm : Z) (reward : F)
    (at_ : Update_at) (g : guarded EpsilonGreedy)
  : option (Update_at * guarded EpsilonGreedy) :=
  let b := shared g in
  match at_ with
  | AtIncrRead =>
      match index (Counts b) chosenArm with
      | Some c => Some (AtIncrWrite c, g)
      | None => Some (Panicked, g)
      end
  | AtIncrWrite c =>
      match store (Counts b) chosenArm (wrap64 (c + 1)) with
      | Some counts => Some (AtN, Guarded (held g) (with_counts counts b))
      | None => Some (Panicked, g)
      end
  | AtN =>
      match index (Counts b) chosenArm with
      | Some c' => Some (AtV (of_int c'), g)
      | None => Some (Panicked, g)
      end
  | AtV n =>
      match index (Rewards b) chosenArm with
      | Some v => Some (AtLock (fdiv (fadd (fmul v (fsub n fone)) reward) n), g)
      | None => Some (Panicked, g)
      end
  | AtLock newValue => g' ← Lock g; Some (AtAssign newValue, g')
  | AtAssign newValue =>
      match store (Rewards b) chosenArm newValue with
      | Some rewards => Some (AtUnlock, Guarded (held g) (with_rewards rewards b))
      | None => Some (Panicked, g)
      end
  | AtUnlock => Some (Returned, Unlock g)
  | Returned | Panicked => None
  end.
End defs.
Arguments EpsilonGreedy F : clear implicits.
Arguments Update_at F : clear implicits.
End greedy.

(** ** Notions of the specification *)

(** The value [Update] assigns to the mean: the old mean weighted by
    [n - 1], plus the reward, divided by [n], with [n] the count after the
    increment. *)
Definition newMean `{Float64 F} (oldMean : F) (n : Z) (reward : F) : F :=
  fdiv (fadd (fmul oldMean (fsub (of_int n) fone)) reward) (of_int n).

(** The two sequences of a state have one length. *)
Definition eg_lengths_agree {F} (b : epsilon_greedy.EpsilonGreedy F) : Prop :=
  len (epsilon_greedy.Counts b) = len (epsilon_greedy.Rewards b).

Definition g_lengths_agree {F} (b : greedy.EpsilonGreedy F) : Prop :=
  len (greedy.Counts b) = len (greedy.Rewards b).


(** Every outcome of [d] is an index of one of [n] arms, and there is one. *)
Definition valid_arm (n : Z) (d : dist Z) : Prop :=
  d <> [] /\ forall v, v ∈ d -> 0 <= v < n.

(** [flt] orders the values of [l]: two of them never compare both ways,
    and a third one is above the lower or below the higher of two that
    compare.  So it is of rationals, and of floats none of which is NaN. *)
Definition ordered `{Float64 F} (l : list F) : Prop :=
  forall x y z, x ∈ l -> y ∈ l -> z ∈ l ->
    (flt x y = true -> flt y x = false) /\
    (flt x z = true -> flt x y = true \/ flt y z = true).

(** No mean of [rewards] compares above the mean of arm [i]. *)
Definition top_arm `{Float64 F} (rewards : list F) (i : Z) : Prop :=
  exists ri, index rewards i = Some ri /\
    forall j rj, index rewards j = Some rj -> flt ri rj = false.

(** Arm [i] is the first of those arms. *)
Definition first_top_arm `{Float64 F} (rewards : list F) (i : Z) : Prop :=
  top_arm rewards i /\ forall j, top_arm rewards j -> i <= j.



(** The float is not NaN. *)
Definition not_nan (x : float) : Prop := Prim2SF x <> S754_nan.

(** The place of a float that is not NaN in the order of floats: the
    infinities at both ends, the zeros in the middle; between them the
    finite floats by exponent, then mantissa, reversed when negative. *)
Definition SFkey (x : spec_float) : Z * Z * Z :=
  match x with
  | S754_zero _ | S754_nan => (0, 0, 0)
  | S754_infinity s => (if s then -2 else 2, 0, 0)
  | S754_finite s m e => if s then (-1, - e, - Zpos m) else (1, e, Zpos m)
  end.

(** The order of the places, first component first. *)
Definition lt3 (a b : Z * Z * Z) : Prop :=
  a.1.1 < b.1.1 \/
  (a.1.1 = b.1.1 /\ (a.1.2 < b.1.2 \/ (a.1.2 = b.1.2 /\ a.2 < b.2))).

(** [Update(i, r1)], ..., [Update(i, rk)] in this order on epsilon_greedy.go;
    [None] when a call does not return [nil]. *)
Fixpoint eg_feed `{Float64 F} (i : Z) (rs : list F)
    (b : epsilon_greedy.EpsilonGreedy F) : option (epsilon_greedy.EpsilonGreedy F) :=
  match rs with
  | [] => Some b
  | r :: rs' =>
      match epsilon_greedy.Update i r b with
      | Some (None, b') => eg_feed i rs' b'
      | _ => None
      end
  end.

(** The same on greedy.go; [None] when a call panics. *)
Fixpoint g_feed `{Float64 F} (i : Z) (rs : list F)
    (b : greedy.EpsilonGreedy F) : option (greedy.EpsilonGreedy F) :=
  match rs with
  | [] => Some b
  | r :: rs' => b' ← greedy.Update i r b; g_feed i rs' b'
  end.

(** The mean after the rewards [rs], from the mean [m] of [n] rewards: one
    step [newMean] for each reward, [n] counting up. *)
Fixpoint running_mean `{Float64 F} (m : F) (n : Z) (rs : list F) : F :=
  match rs with
  | [] => m
  | r :: rs' => running_mean (newMean m (n + 1) r) (n + 1) rs'
  end.

(** The arithmetic average of [r1..rk]: their sum divided by [k]; 0 when
    there is none. *)
Definition average (rs : list Qc) : Qc :=
  match rs with
  | [] => 0%Qc
  | _ => (foldr Qcplus 0%Qc rs / Qc_of_Z (len rs))%Qc
  end.


(** The sum of rationals. *)
Definition Qsum (qs : list Q) : Q := foldr Qplus 0%Q qs.

(** The arithmetic average of rationals: their sum divided by their
    number; 0 when there is none. *)
Definition Qaverage (qs : list Q) : Q := (Qsum qs / inject_Z (len qs))%Q.

(** How far the mean that [k] updates leave in [binary64] may be from the
    mean of exact arithmetic, for rewards up to [2^j]: each update rounds
    three times. *)
Definition mean_error (k j : Z) : Q := (3 * inject_Z k * ulp_err j)%Q.

(** ** Concurrent calls of [Update] *)

(** [m] goroutines, each about to call [Update]. *)
Definition eg_spawn {F} (m : nat) : list (epsilon_greedy.Update_at F) :=
  replicate m epsilon_greedy.AtLock.

Definition g_spawn {F} (m : nat) : list (greedy.Update_at F) :=
  replicate m greedy.AtIncrRead.

(** The goroutine has returned from [Update]. *)
Definition eg_returned {F} (t : epsilon_greedy.Update_at F) : bool :=
  match t with epsilon_greedy.Returned _ => true | _ => false end.

(** The goroutine is outside the part of [Update] between [b.Lock()] and
    [b.Unlock()]: it has not locked yet, or it has returned. *)
Definition eg_outside {F} (t : epsilon_greedy.Update_at F) : bool :=
  match t with
  | epsilon_greedy.AtLock | epsilon_greedy.Returned _ => true
  | _ => false
  end.

(** [k] calls [Update(i, r)] of epsilon_greedy.go, one after the other,
    whatever error each returns; [None] when one panics. *)
Fixpoint eg_calls `{Float64 F} (k : nat) (i : Z) (r : F)
    (b : epsilon_greedy.EpsilonGreedy F) : option (epsilon_greedy.EpsilonGreedy F) :=
  match k with
  | O => Some b
  | S k' => res ← epsilon_greedy.Update i r b; eg_calls k' i r res.2
  end.

(** A goroutine of [Update] of epsilon_greedy.go left to move alone, for
    [fuel] actions at most. *)
Fixpoint eg_alone `{Float64 F} (fuel : nat) (i : Z) (r : F)
    (t : epsilon_greedy.Update_at F) (g : guarded (epsilon_greedy.EpsilonGreedy F))
  : epsilon_greedy.Update_at F * guarded (epsilon_greedy.EpsilonGreedy F) :=
  match fuel with
  | O => (t, g)
  | S fuel' =>
      match epsilon_greedy.Update_step i r t g with
      | Some tg => eg_alone fuel' i r tg.1 tg.2
      | None => (t, g)
      end
  end.

(** The same for greedy.go. *)
Fixpoint g_alone `{Float64 F} (fuel : nat) (i : Z) (r : F)
    (t : greedy.Update_at F) (g : guarded (greedy.EpsilonGreedy F))
  : greedy.Update_at F * guarded (greedy.EpsilonGreedy F) :=
  match fuel with
  | O => (t, g)
  | S fuel' =>
      match greedy.Update_step i r t g with
      | Some tg => g_alone fuel' i r tg.1 tg.2
      | None => (t, g)
      end
  end.

(** The goroutines that are between [b.Lock()] and [b.Unlock()], and the
    number of those that have returned. *)
Definition eg_inside {F} (ts : list (epsilon_greedy.Update_at F))
  : list (epsilon_greedy.Update_at F) :=
  List.filter (fun t => negb (eg_outside t)) ts.

Definition eg_returned_count {F} (ts : list (epsilon_greedy.Update_at F)) : nat :=
  length (List.filter eg_returned ts).

(** Left alone, the goroutine [t] either returns [e], with the mutex free
    and the state that [Update] leaves when called on [b], or panics. *)
Definition eg_completes `{Float64 F} (i : Z) (r : F)
    (t : epsilon_greedy.Update_at F) (g : guarded (epsilon_greedy.EpsilonGreedy F))
    (b : epsilon_greedy.EpsilonGreedy F) : Prop :=
  exists fuel,
    match eg_alone fuel i r t g with
    | (epsilon_greedy.Returned e, g') =>
        held g' = false /\ epsilon_greedy.Update i r b = Some (e, shared g')
    | (epsilon_greedy.Panicked, _) => True
    | _ => False
    end.

(** What holds of the goroutines and the guarded state at every moment:
    the calls that have returned have had the effect of as many calls made
    one after the other from [b0]; while the mutex is free no goroutine is
    inside; while it is held exactly one is, and the state is the one a
    call made next is half-way through. *)
Definition eg_atomic `{Float64 F} (i : Z) (r : F)
    (b0 : epsilon_greedy.EpsilonGreedy F)
    (cfg : list (epsilon_greedy.Update_at F) * guarded (epsilon_greedy.EpsilonGreedy F))
  : Prop :=
  exists b, eg_calls (eg_returned_count cfg.1) i r b0 = Some b /\
    if held cfg.2 then exists t, eg_inside cfg.1 = [t] /\ eg_completes i r t cfg.2 b
    else eg_inside cfg.1 = [] /\ shared cfg.2 = b.

(** [n] actions of a goroutine of [Update] of epsilon_greedy.go; [None]
    when it cannot make them all. *)
Fixpoint eg_steps `{Float64 F} (n : nat) (i : Z) (r : F)
    (t : epsilon_greedy.Update_at F) (g : guarded (epsilon_greedy.EpsilonGreedy F))
  : option (epsilon_greedy.Update_at F * guarded (epsilon_greedy.EpsilonGreedy F)) :=
  match n with
  | O => Some (t, g)
  | S n' => tg ← epsilon_greedy.Update_step i r t g; eg_steps n' i r tg.1 tg.2
  end.

(** The schedule that lets goroutine 0 make eight actions, then goroutine 1,
    and so on up to goroutine [m - 1]. *)
Definition one_by_one (m : nat) : list nat :=
  flat_map (fun j => replicate 8 j) (seq 0 m).

(** ** States of the examples *)


(** Three arms in [binary64], the first two with the highest mean. *)
Definition eg_tied64 : epsilon_greedy.EpsilonGreedy float :=
  {| epsilon_greedy.Epsilon := 0.125%float;
     epsilon_greedy.Counts := [2; 2; 8];
     epsilon_greedy.Rewards := [0.5%float; 0.5%float; 0.125%float] |}.

(** Two arms that were never updated, epsilon 0.5. *)
Definition eg_two_arms : epsilon_greedy.EpsilonGreedy float :=
  {| epsilon_greedy.Epsilon := 0.5%float;
     epsilon_greedy.Counts := [0; 0];
     epsilon_greedy.Rewards := [0%float; 0%float] |}.

Definition g_two_arms : greedy.EpsilonGreedy float :=
  {| greedy.Epsilon := 0.5%float;
     greedy.Counts := [0; 0];
     greedy.Rewards := [0%float; 0%float];
     greedy.N := 2 |}.

(** ** Notions of the further properties *)


(** The float is NaN. *)
Definition is_nan (x : float) : Prop := Prim2SF x = S754_nan.


(** ** Goroutines that call [Update] and [Init] of epsilon_greedy.go *)

#[global] Instance error_eq_dec : EqDecision error.
Proof. solve_decision. Defined.

(** [Init] as a goroutine, action by action: [b.Lock()], the check of
    [nArms], the two assignments and the deferred [b.Unlock()]. *)
Inductive Init_at :=
| InitAtLock                        (* b.Lock() *)
| InitAtCheck                       (* if nArms < 1 *)
| InitAtCounts                      (* b.Counts = make([]int, nArms) *)
| InitAtRewards                     (* b.Rewards = make([]float64, nArms) *)
| InitAtUnlock (e : option error)   (* the deferred b.Unlock() *)
| InitReturned (e : option error)
| InitPanicked.

Definition Init_step `{Float64 F} (nArms : Z) (at_ : Init_at)
    (g : guarded (epsilon_greedy.EpsilonGreedy F))
  : option (Init_at * guarded (epsilon_greedy.EpsilonGreedy F)) :=
  let b := shared g in
  match at_ with
  | InitAtLock => g' ← Lock g; Some (InitAtCheck, g')
  | InitAtCheck =>
      if decide (nArms < 1) then Some (InitAtUnlock (Some ErrInvalidArms), g)
      else Some (InitAtCounts, g)
  | InitAtCounts =>
      match make 0 nArms with
      | Some counts =>
          Some (InitAtRewards, Guarded (held g) (epsilon_greedy.with_counts counts b))
      | None => Some (InitPanicked, g)
      end
  | InitAtRewards =>
      match make fzero nArms with
      | Some rewards =>
          Some (InitAtUnlock None,
                Guarded (held g) (epsilon_greedy.with_rewards rewards b))
      | None => Some (InitPanicked, g)
      end
  | InitAtUnlock e => Some (InitReturned e, Unlock g)
  | InitReturned _ | InitPanicked => None
  end.

(** A call of one of the two methods, with its arguments. *)
Inductive eg_call (F : Type) :=
| CallUpdate (chosenArm : Z) (reward : F)
| CallInit (nArms : Z).
Arguments CallUpdate {F}.
Arguments CallInit {F}.

(** What the call does when no other goroutine runs. *)
Definition eg_do `{Float64 F} (c : eg_call F) (b : epsilon_greedy.EpsilonGreedy F)
  : option (option error * epsilon_greedy.EpsilonGreedy F) :=
  match c with
  | CallUpdate chosenArm reward => epsilon_greedy.Update chosenArm reward b
  | CallInit nArms => epsilon_greedy.Init nArms b
  end.

(** A goroutine that makes one call: the call, and where it is in it. *)
Inductive eg_writer (F : Type) :=
| InUpdate (chosenArm : Z) (reward : F) (at_ : epsilon_greedy.Update_at F)
| InInit (nArms : Z) (at_ : Init_at).
Arguments InUpdate {F}.
Arguments InInit {F}.

Definition eg_writer_step `{Float64 F} (t : eg_writer F)
    (g : guarded (epsilon_greedy.EpsilonGreedy F))
  : option (eg_writer F * guarded (epsilon_greedy.EpsilonGreedy F)) :=
  match t with
  | InUpdate chosenArm reward at_ =>
      tg ← epsilon_greedy.Update_step chosenArm reward at_ g;
      Some (InUpdate chosenArm reward tg.1, tg.2)
  | InInit nArms at_ =>
      tg ← Init_step nArms at_ g;
      Some (InInit nArms tg.1, tg.2)
  end.

(** The goroutine about to make the call [c]. *)
Definition eg_start {F} (c : eg_call F) : eg_writer F :=
  match c with
  | CallUpdate chosenArm reward => InUpdate chosenArm reward epsilon_greedy.AtLock
  | CallInit nArms => InInit nArms InitAtLock
  end.

(** The call that the goroutine makes. *)
Definition eg_call_of {F} (t : eg_writer F) : eg_call F :=
  match t with
  | InUpdate chosenArm reward _ => CallUpdate chosenArm reward
  | InInit nArms _ => CallInit nArms
  end.

(** The error that the call returned, once it has returned. *)
Definition eg_result {F} (t : eg_writer F) : option (option error) :=
  match t with
  | InUpdate _ _ (epsilon_greedy.Returned e) | InInit _ (InitReturned e) => Some e
  | _ => None
  end.

(** The goroutine has not locked yet, or it has returned. *)
Definition eg_writer_outside {F} (t : eg_writer F) : bool :=
  match t with
  | InUpdate _ _ at_ => eg_outside at_
  | InInit _ (InitAtLock | InitReturned _) => true
  | InInit _ _ => false
  end.

(** The calls that have returned, each with the error it returned. *)
Definition eg_returned_calls {F} (ts : list (eg_writer F))
  : list (eg_call F * option error) :=
  omap (fun t => e ← eg_result t; Some (eg_call_of t, e)) ts.

(** The calls that have not returned. *)
Definition eg_pending {F} (ts : list (eg_writer F)) : list (eg_call F) :=
  omap (fun t => match eg_result t with
                 | Some _ => None
                 | None => Some (eg_call_of t)
                 end) ts.

(** The goroutines between [b.Lock()] and [b.Unlock()]. *)
Definition eg_writers_inside {F} (ts : list (eg_writer F)) : list (eg_writer F) :=
  List.filter (fun t => negb (eg_writer_outside t)) ts.

(** The calls of [h] made one after the other, in the order of [h], each
    returning the error that [h] gives for it; [None] when a call panics
    or returns another error. *)
Fixpoint eg_replay `{Float64 F} (h : list (eg_call F * option error))
    (b : epsilon_greedy.EpsilonGreedy F) : option (epsilon_greedy.EpsilonGreedy F) :=
  match h with
  | [] => Some b
  | ce :: h' =>
      res ← eg_do ce.1 b;
      if decide (res.1 = ce.2) then eg_replay h' res.2 else None
  end.

(** The goroutine left to move alone, for [fuel] actions at most. *)
Fixpoint eg_writer_alone `{Float64 F} (fuel : nat) (t : eg_writer F)
    (g : guarded (epsilon_greedy.EpsilonGreedy F))
  : eg_writer F * guarded (epsilon_greedy.EpsilonGreedy F) :=
  match fuel with
  | O => (t, g)
  | S fuel' =>
      match eg_writer_step t g with
      | Some tg => eg_writer_alone fuel' tg.1 tg.2
      | None => (t, g)
      end
  end.

(** The goroutine has panicked. *)
Definition eg_writer_panicked {F} (t : eg_writer F) : bool :=
  match t with
  | InUpdate _ _ epsilon_greedy.Panicked | InInit _ InitPanicked => true
  | _ => false
  end.

(** Left alone, the goroutine [t] ends its call: it frees the mutex and
    returns what the call returns on [b], leaving the state the call
    leaves; or it panics. *)
Definition eg_writer_completes `{Float64 F} (t : eg_writer F)
    (g : guarded (epsilon_greedy.EpsilonGreedy F))
    (b : epsilon_greedy.EpsilonGreedy F) : Prop :=
  exists fuel,
    let tg := eg_writer_alone fuel t g in
    match eg_result tg.1 with
    | Some e => held tg.2 = false /\ eg_do (eg_call_of t) b = Some (e, shared tg.2)
    | None => eg_writer_panicked tg.1 = true
    end.

(** What holds at every moment: the calls that have returned are, in some
    order [h], calls made one after the other from [b0]; while the mutex is
    free no goroutine is inside and the state is the one these calls leave;
    while it is held exactly one goroutine is inside, half-way through a
    call made next. *)
Definition eg_serial `{Float64 F} (b0 : epsilon_greedy.EpsilonGreedy F)
    (cfg : list (eg_writer F) * guarded (epsilon_greedy.EpsilonGreedy F)) : Prop :=
  exists h b,
    h ≡ₚ eg_returned_calls cfg.1 /\ eg_replay h b0 = Some b /\
    if held cfg.2
    then exists t, eg_writers_inside cfg.1 = [t] /\ eg_writer_completes t cfg.2 b
    else eg_writers_inside cfg.1 = [] /\ shared cfg.2 = b.

(** ** Goroutines that read the statistics beside those that write *)

(** A state guarded by a [sync.RWMutex]: the write side, and the number of
    goroutines that hold the mutex for reading. *)
Record rwguarded (B : Type) := RWGuarded { readers : nat; wside : guarded B }.
Arguments RWGuarded {B}.
Arguments readers {B}.
Arguments wside {B}.

(** [RLock()]: enabled while no goroutine holds the mutex for writing.  (Go
    also keeps a reader waiting while a writer waits: that only takes
    schedules away.) *)
Definition RLock {B} (g : rwguarded B) : option (rwguarded B) :=
  if held (wside g) then None else Some (RWGuarded (S (readers g)) (wside g)).

(** [RUnlock()] *)
Definition RUnlock {B} (g : rwguarded B) : rwguarded B :=
  RWGuarded (pred (readers g)) (wside g).

(** [GetCounts] and [GetRewards] as goroutines, action by action:
    [b.RLock()], [make] with the length of the field, [copy] from the
    field, and the deferred [b.RUnlock()]. *)
Inductive Get_at (A : Type) :=
| GetAtRLock                      (* b.RLock() *)
| GetAtMake                       (* sCopy := make([]T, len(b.X)) *)
| GetAtCopy (sCopy : list A)      (* copy(sCopy, b.X) *)
| GetAtRUnlock (sCopy : list A)   (* return sCopy: the deferred b.RUnlock() *)
| GetReturned (sCopy : list A).
Arguments GetAtRLock {A}.
Arguments GetAtMake {A}.
Arguments GetAtCopy {A}.
Arguments GetAtRUnlock {A}.
Arguments GetReturned {A}.

Definition Get_step {A B} (zero : A) (field : B -> list A) (at_ : Get_at A)
    (g : rwguarded B) : option (Get_at A * rwguarded B) :=
  let b := shared (wside g) in
  match at_ with
  | GetAtRLock => g' ← RLock g; Some (GetAtMake, g')
  | GetAtMake => Some (GetAtCopy (make_len zero (field b)), g)
  | GetAtCopy sCopy => Some (GetAtRUnlock (copy sCopy (field b)), g)
  | GetAtRUnlock sCopy => Some (GetReturned sCopy, RUnlock g)
  | GetReturned _ => None
  end.

(** A goroutine that makes one call of [Update] or [Init], of [GetCounts]
    or of [GetRewards]. *)
Inductive eg_goroutine (F : Type) :=
| Writes (t : eg_writer F)
| ReadsCounts (at_ : Get_at Z)
| ReadsRewards (at_ : Get_at F).
Arguments Writes {F}.
Arguments ReadsCounts {F}.
Arguments ReadsRewards {F}.

(** One action of a goroutine.  [b.Lock()] waits for the goroutines that
    hold the mutex for reading, beside the one that holds it for writing. *)
Definition eg_goroutine_step `{Float64 F} (t : eg_goroutine F)
    (g : rwguarded (epsilon_greedy.EpsilonGreedy F))
  : option (eg_goroutine F * rwguarded (epsilon_greedy.EpsilonGreedy F)) :=
  match t with
  | Writes w =>
      if eg_writer_outside w && negb (Nat.eqb (readers g) 0) then None
      else
        wg ← eg_writer_step w (wside g);
        Some (Writes wg.1, RWGuarded (readers g) wg.2)
  | ReadsCounts at_ =>
      tg ← Get_step 0 epsilon_greedy.Counts at_ g;
      Some (ReadsCounts tg.1, tg.2)
  | ReadsRewards at_ =>
      tg ← Get_step fzero epsilon_greedy.Rewards at_ g;
      Some (ReadsRewards tg.1, tg.2)
  end.

(** What a goroutine is started for. *)
Inductive eg_job (F : Type) :=
| JobCall (c : eg_call F)
| JobGetCounts
| JobGetRewards.
Arguments JobCall {F}.
Arguments JobGetCounts {F}.
Arguments JobGetRewards {F}.

Definition eg_go {F} (j : eg_job F) : eg_goroutine F :=
  match j with
  | JobCall c => Writes (eg_start c)
  | JobGetCounts => ReadsCounts GetAtRLock
  | JobGetRewards => ReadsRewards GetAtRLock
  end.

(** The calls of [Update] and [Init] among the jobs. *)
Definition eg_job_calls {F} (jobs : list (eg_job F)) : list (eg_call F) :=
  omap (fun j => match j with JobCall c => Some c | _ => None end) jobs.

(** The goroutines that write. *)
Definition eg_writers {F} (ts : list (eg_goroutine F)) : list (eg_writer F) :=
  omap (fun t => match t with Writes w => Some w | _ => None end) ts.

(** The goroutine is between [b.RLock()] and [b.RUnlock()]. *)
Definition Get_reading {A} (at_ : Get_at A) : bool :=
  match at_ with
  | GetAtRLock | GetReturned _ => false
  | _ => true
  end.

Definition eg_reading {F} (t : eg_goroutine F) : bool :=
  match t with
  | Writes _ => false
  | ReadsCounts at_ => Get_reading at_
  | ReadsRewards at_ => Get_reading at_
  end.

(** The state [b] is left by some of the [calls], each made once, one
    after the other in some order, from [b0]. *)
Definition eg_between `{Float64 F} (b0 : epsilon_greedy.EpsilonGreedy F)
    (calls : list (eg_call F)) (b : epsilon_greedy.EpsilonGreedy F) : Prop :=
  exists h : list (eg_call F * option error),
    h.*1 ⊆+ calls /\ eg_replay h b0 = Some b.

(** What holds of a goroutine that reads, the state being [cur]: the slice
    it has made has the length of the field, and the slice it has filled
    is the field of a state between calls. *)
Definition Get_ok {A B} (field : B -> list A) (between : B -> Prop) (cur : B)
    (at_ : Get_at A) : Prop :=
  match at_ with
  | GetAtCopy sCopy => length sCopy = length (field cur)
  | GetAtRUnlock sCopy | GetReturned sCopy =>
      exists b, between b /\ sCopy = field b
  | _ => True
  end.

Definition eg_goroutine_ok `{Float64 F} (b0 : epsilon_greedy.EpsilonGreedy F)
    (calls : list (eg_call F)) (cur : epsilon_greedy.EpsilonGreedy F)
    (t : eg_goroutine F) : Prop :=
  match t with
  | Writes _ => True
  | ReadsCounts at_ => Get_ok epsilon_greedy.Counts (eg_between b0 calls) cur at_
  | ReadsRewards at_ => Get_ok epsilon_greedy.Rewards (eg_between b0 calls) cur at_
  end.

(** What holds at every moment of goroutines that read and write: the
    writers are as in [eg_serial]; the mutex is held for reading by the
    goroutines that read, and by none while it is held for writing; and
    every goroutine that reads is as [eg_goroutine_ok] says. *)
Definition eg_consistent `{Float64 F} (b0 : epsilon_greedy.EpsilonGreedy F)
    (calls : list (eg_call F))
    (cfg : list (eg_goroutine F) * rwguarded (epsilon_greedy.EpsilonGreedy F))
  : Prop :=
  eg_serial b0 (eg_writers cfg.1, wside cfg.2) /\
  eg_call_of <$> eg_writers cfg.1 = calls /\
  readers cfg.2 = length (List.filter eg_reading cfg.1) /\
  (held (wside cfg.2) = true -> readers cfg.2 = 0%nat) /\
  Forall (eg_goroutine_ok b0 calls (shared (wside cfg.2))) cfg.1.

(** Four goroutines on [eg_two_arms]: one rewards arm 0, one calls
    [GetCounts], one calls [GetRewards], one initialises three arms. *)
Definition eg_read_jobs : list (eg_job float) :=
  [JobCall (CallUpdate 0 1%float); JobGetCounts; JobGetRewards;
   JobCall (CallInit 3)].

(** The update is made first, then the two reads, their actions
    interleaved, then the initialisation. *)
Definition eg_read_schedule : list nat :=
  [0; 0; 0; 0; 0; 0; 0; 0; 1; 2; 1; 2; 2; 1; 1; 2; 3; 3; 3; 3; 3]%nat.

(** ** Logs of trials *)









(** Three goroutines on the two fresh arms of [eg_two_arms]: one rewards
    arm 0, one initialises three arms, one rewards arm 2. *)
Definition eg_three_calls : list (eg_call float) :=
  [CallUpdate 0 1%float; CallInit 3; CallUpdate 2 0.5%float].

(** The third goroutine makes its call, then the second, then the first. *)
Definition eg_last_first : list nat :=
  [2; 2; 2; 1; 1; 1; 1; 1; 0; 0; 0; 0; 0; 0; 0; 0]%nat.

(** The calls of [eg_three_calls] with [Init] first, all returning [nil]. *)
Definition eg_Init_first : list (eg_call float * option error) :=
  [(CallInit 3, None); (CallUpdate 0 1%float, None);
   (CallUpdate 2 0.5%float, None)].

(** * Properties *)

(** ** Numbers *)



Lemma SFltb_key (x y : spec_float) :
  x <> S754_nan -> y <> S754_nan ->
  SFltb x y = true <-> lt3 (SFkey x) (SFkey y).
Proof.
  intros Hx Hy. unfold SFltb, lt3.
  destruct x as [sx | sx | | sx mx ex], y as [sy | sy | | sy my ey]; try done;
    try destruct sx; try destruct sy; cbn; try (split; [discriminate | lia]);
    try (split; [lia | done]).
  all: change (Pos.compare_cont Eq ?a ?b) with (Pos.compare a b).
  all: destruct (Z.compare_spec ex ey); cbn; try (split; [discriminate | lia]);
    try (split; [lia | done]).
  all: destruct (Pos.compare_spec mx my); cbn; try (split; [discriminate | lia]);
    try (split; [lia | done]).
Qed.

Lemma SFleb_not_above (x y : spec_float) : SFleb x y = true -> SFltb y x = false.
Proof.
  unfold SFleb, SFltb.
  destruct x as [sx | sx | | sx mx ex], y as [sy | sy | | sy my ey]; try done;
    try destruct sx; try destruct sy; cbn; try done.
  all: change (Pos.compare_cont Eq ?a ?b) with (Pos.compare a b).
  all: rewrite (Z.compare_antisym ex ey), (Pos.compare_antisym mx my).
  all: destruct (ex ?= ey); cbn; try done.
  all: destruct (mx ?= my)%positive; cbn; done.
Qed.

(** Floats none of which is NaN are ordered. *)
Lemma ordered_binary64 (l : list float) : Forall not_nan l -> ordered l.
Proof.
  intros Hl x y z Hx Hy Hz.
  rewrite Forall_forall in Hl. setoid_rewrite <- list_elem_of_In in Hl.
  pose proof (Hl x Hx) as Nx. pose proof (Hl y Hy) as Ny. pose proof (Hl z Hz) as Nz.
  change (@flt float binary64) with PrimFloat.ltb. rewrite !ltb_spec.
  pose proof (SFltb_key (Prim2SF x) (Prim2SF y) Nx Ny) as Hxy.
  pose proof (SFltb_key (Prim2SF y) (Prim2SF x) Ny Nx) as Hyx.
  pose proof (SFltb_key (Prim2SF x) (Prim2SF z) Nx Nz) as Hxz.
  pose proof (SFltb_key (Prim2SF y) (Prim2SF z) Ny Nz) as Hyz.
  destruct (SFkey (Prim2SF x)) as [[x1 x2] x3], (SFkey (Prim2SF y)) as [[y1 y2] y3],
    (SFkey (Prim2SF z)) as [[z1 z2] z3].
  unfold lt3 in *. cbn [fst snd] in *.
  split.
  - intros H1. destruct (SFltb (Prim2SF y) (Prim2SF x)); [| done].
    apply Hxy in H1. assert (true = true) as H2%Hyx by done. lia.
  - intros H1%Hxz.
    destruct (SFltb (Prim2SF x) (Prim2SF y)); [by left |].
    destruct (SFltb (Prim2SF y) (Prim2SF z)); [by right |].
    exfalso.
    assert (~ (x1 < y1 \/ x1 = y1 /\ (x2 < y2 \/ x2 = y2 /\ x3 < y3))) as H2
        by (intros H2%Hxy; done).
    assert (~ (y1 < z1 \/ y1 = z1 /\ (y2 < z2 \/ y2 = z2 /\ y3 < z3))) as H3
        by (intros H3%Hyz; done).
    lia.
Qed.

Lemma leb_not_above (d e : float) :
  PrimFloat.leb d e = true -> @flt float binary64 e d = false.
Proof.
  change (@flt float binary64) with PrimFloat.ltb.
  rewrite leb_spec, ltb_spec. apply SFleb_not_above.
Qed.

(** ** Slices *)

Section slices.
Context {A : Type}.
Implicit Types (s : list A) (i j : Z) (v : A).

Lemma len_nonneg s : 0 <= len s.
Proof. unfold len. lia. Qed.

Lemma index_Some s i v :
  index s i = Some v <-> 0 <= i < len s /\ s !! Z.to_nat i = Some v.
Proof.
  unfold index. case_decide; [tauto |].
  split; [discriminate | tauto].
Qed.

Lemma index_in_range s i : 0 <= i < len s -> is_Some (index s i).
Proof.
  intros Hi. unfold index. rewrite decide_True by done.
  apply lookup_lt_is_Some. unfold len in Hi. lia.
Qed.

Lemma index_None s i : index s i = None <-> ~ 0 <= i < len s.
Proof.
  split.
  - intros Hn Hi. destruct (index_in_range s i Hi) as [v Hv]. congruence.
  - intros Hi. unfold index. by rewrite decide_False.
Qed.

Lemma store_Some s i v s' :
  store s i v = Some s' <-> 0 <= i < len s /\ s' = <[Z.to_nat i := v]> s.
Proof.
  unfold store. case_decide.
  - split; [intros [= <-]; done | intros [_ ->]; done].
  - split; [discriminate | tauto].
Qed.

Lemma store_in_range s i v : 0 <= i < len s -> is_Some (store s i v).
Proof. intros Hi. unfold store. rewrite decide_True by done. eauto. Qed.

Lemma len_store s i v s' : store s i v = Some s' -> len s' = len s.
Proof.
  intros [_ ->]%store_Some. unfold len. by rewrite length_insert.
Qed.

Lemma index_store_eq s i v s' : store s i v = Some s' -> index s' i = Some v.
Proof.
  intros Hst. pose proof (len_store _ _ _ _ Hst) as Hlen.
  apply store_Some in Hst as [Hi ->].
  apply index_Some. split; [lia |].
  apply list_lookup_insert_eq. unfold len in Hi. lia.
Qed.

Lemma index_store_ne s i j v s' :
  store s i v = Some s' -> j <> i -> index s' j = index s j.
Proof.
  intros Hst Hne. pose proof (len_store _ _ _ _ Hst) as Hlen.
  apply store_Some in Hst as [Hi ->].
  unfold index. rewrite Hlen. case_decide; [| done].
  apply list_lookup_insert_ne. lia.
Qed.

Lemma len_make (zero : A) n s : make zero n = Some s -> len s = Z.max 0 n.
Proof.
  unfold make. case_decide; [discriminate |].
  intros [= <-]. unfold len. rewrite length_replicate. lia.
Qed.


Lemma make_len_make (zero : A) s :
  len s <= max_len -> make zero (len s) = Some (make_len zero s).
Proof.
  intros Hs. unfold make, make_len, len in *.
  rewrite decide_False by lia. by rewrite Nat2Z.id.
Qed.

Lemma copy_all (zero : A) s : copy (make_len zero s) s = s.
Proof.
  unfold copy, make_len. rewrite length_replicate.
  rewrite firstn_all. rewrite drop_ge by (by rewrite length_replicate).
  apply app_nil_r.
Qed.
End slices.

Lemma len_cons {A} (x : A) (s : list A) : len (x :: s) = 1 + len s.
Proof. unfold len. cbn [length]. lia. Qed.

(** ** Rounding in binary64 *)

Lemma pow2_pos (e : Z) : (0 < pow2 e)%Q.
Proof. apply Qpower_0_lt. reflexivity. Qed.

Lemma pow2_add (a b : Z) : (pow2 (a + b) == pow2 a * pow2 b)%Q.
Proof. apply Qpower_plus. discriminate. Qed.

Lemma pow2_Z (e : Z) : 0 <= e -> (pow2 e == inject_Z (2 ^ e))%Q.
Proof. intros He. unfold pow2. by rewrite Zpower_Qpower. Qed.

Lemma pow2_le (a b : Z) : a <= b -> (pow2 a <= pow2 b)%Q.
Proof. intros Hab. apply Qpower_le_compat_l; [done | discriminate]. Qed.

Lemma pow2_lt (a b : Z) : a < b -> (pow2 a < pow2 b)%Q.
Proof. intros Hab. apply Qpower_lt_compat_l; [done | reflexivity]. Qed.

Lemma pow2_lt_inv (a b : Z) : (pow2 a < pow2 b)%Q -> a < b.
Proof. intros Hab. eapply Qpower_lt_compat_l_inv; [exact Hab | reflexivity]. Qed.

Lemma pow2_0 : (pow2 0 == 1)%Q.
Proof. reflexivity. Qed.

Lemma pow2_m1 : (pow2 (-1) == 1 # 2)%Q.
Proof. reflexivity. Qed.

Lemma pow2_opp (e : Z) : (pow2 e * pow2 (- e) == 1)%Q.
Proof. rewrite <- pow2_add, Z.add_opp_diag_r. reflexivity. Qed.

Lemma shr_rep_ext (y y' : Q) (mrs : shr_record) :
  (y == y')%Q -> shr_rep y mrs -> shr_rep y' mrs.
Proof.
  intros Hy [Hm (d & Hd & Hs)]. split; [done |].
  exists d. split; [| done]. by rewrite <- Hy.
Qed.

Lemma inject_Z_xO (p : positive) : (inject_Z (Zpos p~0) == 2 * inject_Z (Zpos p))%Q.
Proof. change (Zpos p~0) with (2 * Zpos p). by rewrite inject_Z_mult. Qed.

Lemma inject_Z_xI (p : positive) : (inject_Z (Zpos p~1) == 2 * inject_Z (Zpos p) + 1)%Q.
Proof.
  change (Zpos p~1) with (2 * Zpos p + 1). by rewrite inject_Z_plus, inject_Z_mult.
Qed.

Lemma shr_1_rep (y : Q) (mrs : shr_record) :
  shr_rep y mrs -> shr_rep (y * (1 # 2)) (shr_1 mrs).
Proof.
  destruct mrs as [m r s]. unfold shr_rep. cbn [shr_m shr_r shr_s shr_1].
  intros [Hm (d & Hy & Hs)].
  destruct m as [| [p | p |] | p]; [| | | | lia]; cbn [shr_m shr_r shr_s].
  - split; [done |]. exists ((if r then 1 # 4 else 0) + d * (1 # 2))%Q.
    change (inject_Z 0) with 0%Q in *.
    destruct r, s; cbn [orb]; lra.
  - split; [lia |]. exists ((if r then 1 # 4 else 0) + d * (1 # 2))%Q.
    rewrite inject_Z_xI in Hy.
    destruct r, s; cbn [orb]; lra.
  - split; [lia |]. exists ((if r then 1 # 4 else 0) + d * (1 # 2))%Q.
    rewrite inject_Z_xO in Hy.
    destruct r, s; cbn [orb]; lra.
  - split; [done |]. exists ((if r then 1 # 4 else 0) + d * (1 # 2))%Q.
    change (inject_Z 0) with 0%Q. change (inject_Z 1) with 1%Q in Hy.
    destruct r, s; cbn [orb]; lra.
Qed.

Lemma iter_pos_shr_rep (p : positive) :
  forall (y : Q) (mrs : shr_record),
    shr_rep y mrs -> shr_rep (y * pow2 (- Zpos p)) (SpecFloat.iter_pos shr_1 p mrs).
Proof.
  induction p as [p IH | p IH |]; intros y mrs Hrep; cbn [SpecFloat.iter_pos].
  - apply (shr_rep_ext (y * (1 # 2) * pow2 (- Zpos p) * pow2 (- Zpos p))).
    + replace (- Zpos p~1) with (-1 + (- Zpos p + - Zpos p)) by lia.
      rewrite !pow2_add, pow2_m1. ring.
    + by apply IH, IH, shr_1_rep.
  - apply (shr_rep_ext (y * pow2 (- Zpos p) * pow2 (- Zpos p))).
    + replace (- Zpos p~0) with (- Zpos p + - Zpos p) by lia.
      rewrite !pow2_add. ring.
    + by apply IH, IH.
  - apply (shr_rep_ext (y * (1 # 2))); [by rewrite <- pow2_m1 | by apply shr_1_rep].
Qed.

Lemma shr_rep_bounds (y : Q) (mrs : shr_record) :
  shr_rep y mrs -> (inject_Z (shr_m mrs) <= y /\ y < inject_Z (shr_m mrs) + 1)%Q.
Proof.
  intros [_ (d & Hy & Hs)]. destruct (shr_r mrs), (shr_s mrs); lra.
Qed.

Lemma round_nearest_even_rep (y : Q) (mrs : shr_record) :
  shr_rep y mrs ->
  let mr := round_nearest_even (shr_m mrs) (loc_of_shr_record mrs) in
  (mr = shr_m mrs \/ mr = shr_m mrs + 1) /\
  (inject_Z mr - (1 # 2) <= y /\ y <= inject_Z mr + (1 # 2))%Q.
Proof.
  destruct mrs as [m r s]. unfold shr_rep.
  cbn [shr_m shr_r shr_s loc_of_shr_record].
  intros [_ (d & Hy & Hs)].
  destruct r, s; cbn [round_nearest_even].
  - split; [by right |]. rewrite inject_Z_plus. change (inject_Z 1) with 1%Q. lra.
  - destruct (Z.even m).
    + split; [by left |]. lra.
    + split; [by right |]. rewrite inject_Z_plus. change (inject_Z 1) with 1%Q. lra.
  - split; [by left |]. lra.
  - split; [by left |]. lra.
Qed.

Lemma digits2_pos_spec (m : positive) :
  2 ^ (Zpos (digits2_pos m) - 1) <= Zpos m < 2 ^ Zpos (digits2_pos m).
Proof.
  induction m as [m IH | m IH |]; cbn [digits2_pos].
  - rewrite Pos2Z.inj_succ.
    replace (Z.succ (Zpos (digits2_pos m)) - 1) with (Z.succ (Zpos (digits2_pos m) - 1)) by lia.
    rewrite !Z.pow_succ_r by lia. lia.
  - rewrite Pos2Z.inj_succ.
    replace (Z.succ (Zpos (digits2_pos m)) - 1) with (Z.succ (Zpos (digits2_pos m) - 1)) by lia.
    rewrite !Z.pow_succ_r by lia. lia.
  - cbn. lia.
Qed.

Lemma Zdigits2_unique (m k : Z) :
  0 < m -> 2 ^ (k - 1) <= m < 2 ^ k -> Zdigits2 m = k.
Proof.
  intros Hm Hk. destruct m as [| p | p]; [lia | | lia]. cbn [Zdigits2].
  pose proof (digits2_pos_spec p) as Hd.
  set (d := Zpos (digits2_pos p)) in *.
  assert (0 < d) as Hd0 by (unfold d; lia).
  destruct (Z.lt_trichotomy d k) as [Hlt | [Heq | Hgt]]; [| done |].
  - assert (2 ^ d <= 2 ^ (k - 1)) by (apply Z.pow_le_mono_r; lia). lia.
  - destruct (Z.le_gt_cases 0 k) as [Hk0 | Hk0].
    + assert (2 ^ k <= 2 ^ (d - 1)) by (apply Z.pow_le_mono_r; lia). lia.
    + rewrite (Z.pow_neg_r 2 k) in Hk by lia. lia.
Qed.

Lemma fexp64 (e : Z) : fexp prec emax e = Z.max (e - 53) (-1074).
Proof. reflexivity. Qed.

Lemma shr_m_of_loc (m : Z) (l : location) : shr_m (shr_record_of_loc m l) = m.
Proof. by destruct l as [| []]. Qed.

Lemma shr_shr_rep (y : Q) (mrs : shr_record) (e n : Z) :
  0 <= n -> shr_rep y mrs ->
  shr_rep (y * pow2 (- n)) (shr mrs e n).1 /\ (shr mrs e n).2 = e + n.
Proof.
  intros Hn Hrep. destruct n as [| p | p]; [| | lia]; cbn [shr fst snd].
  - split; [| lia]. eapply shr_rep_ext; [| exact Hrep].
    change (pow2 (- 0)) with 1%Q. ring.
  - split; [| done]. by apply iter_pos_shr_rep.
Qed.

Lemma Zdigits2_bounds (m : Z) :
  0 <= m -> 0 <= Zdigits2 m /\ m + 1 <= 2 ^ Zdigits2 m /\
            (0 < m -> 2 ^ (Zdigits2 m - 1) <= m).
Proof.
  intros Hm. destruct m as [| p | p]; [cbn; lia | | lia].
  cbn [Zdigits2]. pose proof (digits2_pos_spec p). lia.
Qed.

Lemma shr_fexp_small (mr e : Z) :
  0 <= mr < 2 ^ 53 -> -1074 <= e ->
  shr_fexp prec emax mr e loc_Exact
  = ({| shr_m := mr; shr_r := false; shr_s := false |}, e).
Proof.
  intros Hmr He. unfold shr_fexp. rewrite fexp64. cbn [shr_record_of_loc].
  pose proof (Zdigits2_bounds mr (proj1 Hmr)) as (Hd0 & Hd1 & Hd2).
  assert (Zdigits2 mr <= 53) as Hd.
  { destruct (Z.le_gt_cases (Zdigits2 mr) 53) as [? | Hgt]; [done |].
    destruct (Z.eq_dec mr 0) as [-> | Hnz]; [cbn in Hgt; lia |].
    assert (2 ^ 53 <= 2 ^ (Zdigits2 mr - 1)) by (apply Z.pow_le_mono_r; lia).
    lia. }
  unfold shr.
  destruct (Z.max (Zdigits2 mr + e - 53) (-1074) - e) eqn:Hn; [done | lia | done].
Qed.

Lemma shr_fexp_top (e : Z) :
  -1074 <= e ->
  shr_fexp prec emax (2 ^ 53) e loc_Exact
  = ({| shr_m := 2 ^ 52; shr_r := false; shr_s := false |}, e + 1).
Proof.
  intros He. unfold shr_fexp. rewrite fexp64. cbn [shr_record_of_loc].
  change (Zdigits2 (2 ^ 53)) with 54.
  replace (Z.max (54 + e - 53) (-1074) - e) with 1 by lia.
  reflexivity.
Qed.

Lemma Qlt_inject_Z (a b : Z) : (inject_Z a < inject_Z b)%Q -> a < b.
Proof. by rewrite <- Zlt_Qlt. Qed.

Lemma Qle_inject_Z (a b : Z) : (inject_Z a <= inject_Z b)%Q -> a <= b.
Proof. by rewrite <- Zle_Qle. Qed.

(** The result of [binary_round_aux] on a mantissa that [shr_fexp] shifts
    right (or leaves): the integer nearest to the number at the exponent
    [fexp]. *)
Lemma binary_round_aux_shape (s : bool) (m e : Z) (l : location) (x : Q) :
  shr_rep (x * pow2 (- e)) (shr_record_of_loc m l) ->
  e <= fexp prec emax (Zdigits2 m + e) ->
  exists mr : Z,
    0 <= mr <= 2 ^ 53 /\
    (inject_Z mr - (1 # 2) <= x * pow2 (- fexp prec emax (Zdigits2 m + e)) /\
     x * pow2 (- fexp prec emax (Zdigits2 m + e)) <= inject_Z mr + (1 # 2))%Q /\
    (-1074 < fexp prec emax (Zdigits2 m + e) -> 2 ^ 52 <= mr) /\
    binary_round_aux prec emax s m e l
    = SFround s mr (fexp prec emax (Zdigits2 m + e)).
Proof.
  intros Hrep Hn.
  pose proof (proj1 Hrep) as Hm. rewrite shr_m_of_loc in Hm.
  pose proof (Zdigits2_bounds m Hm) as (Hd0 & Hd1 & Hd2).
  set (d := Zdigits2 m) in *. set (e' := fexp prec emax (d + e)) in *.
  assert (e' = Z.max (d + e - 53) (-1074)) as He' by apply fexp64.
  destruct (shr_shr_rep _ _ e (e' - e) ltac:(lia) Hrep) as [Hrep1 He1].
  assert (shr_fexp prec emax m e l
          = ((shr (shr_record_of_loc m l) e (e' - e)).1, e')) as Hfirst.
  { unfold shr_fexp. fold d. fold e'.
    destruct (shr (shr_record_of_loc m l) e (e' - e)) as [mrs1 e1].
    cbn [fst snd] in *. f_equal. lia. }
  set (mrs1 := (shr (shr_record_of_loc m l) e (e' - e)).1) in *.
  apply (shr_rep_ext _ (x * pow2 (- e'))) in Hrep1.
  2: { rewrite <- Qmult_assoc, <- pow2_add. by replace (- e + - (e' - e)) with (- e') by lia. }
  set (y := (x * pow2 (- e'))%Q) in *.
  pose proof (shr_rep_bounds _ _ Hrep1) as [Hlo Hhi].
  pose proof (shr_rep_bounds _ _ Hrep) as [Hlo0 Hhi0].
  rewrite shr_m_of_loc in Hlo0, Hhi0.
  pose proof (proj1 Hrep1) as Hm1.
  assert (y == x * pow2 (- e) * pow2 (- (e' - e)))%Q as Hy.
  { unfold y. rewrite <- Qmult_assoc, <- pow2_add.
    by replace (- e + - (e' - e)) with (- e') by lia. }
  pose proof (pow2_pos (- (e' - e))) as HP.
  assert (shr_m mrs1 < 2 ^ 53) as Hm1hi.
  { apply Qlt_inject_Z. eapply Qle_lt_trans; [exact Hlo |].
    assert (x * pow2 (- e) < pow2 d)%Q as Hx.
    { eapply Qlt_le_trans; [exact Hhi0 |]. rewrite pow2_Z by done.
      change 1%Q with (inject_Z 1). rewrite <- inject_Z_plus. by rewrite <- Zle_Qle. }
    assert (y < pow2 d * pow2 (- (e' - e)))%Q as Hy'
        by (rewrite Hy; by apply Qmult_lt_compat_r).
    rewrite <- pow2_add in Hy'. eapply Qlt_le_trans; [exact Hy' |].
    rewrite <- pow2_Z by lia. apply pow2_le. lia. }
  assert (-1074 < e' -> 2 ^ 52 <= shr_m mrs1) as Hm1lo.
  { intros Hnorm.
    assert (0 < m) as Hmpos.
    { destruct (Z.eq_dec m 0) as [-> | ?]; [| lia]. unfold d in *. cbn in *. lia. }
    specialize (Hd2 Hmpos).
    assert (pow2 (d - 1) <= x * pow2 (- e))%Q as Hx.
    { eapply Qle_trans; [| exact Hlo0]. rewrite pow2_Z by lia. by rewrite <- Zle_Qle. }
    assert (pow2 (d - 1) * pow2 (- (e' - e)) <= y)%Q as Hy'
        by (rewrite Hy; apply Qmult_le_compat_r; [done | by apply Qlt_le_weak]).
    rewrite <- pow2_add in Hy'.
    replace (d - 1 + - (e' - e)) with 52 in Hy' by lia.
    rewrite pow2_Z in Hy' by lia.
    assert (inject_Z (2 ^ 52) < inject_Z (shr_m mrs1 + 1))%Q as Hlt.
    { rewrite inject_Z_plus. change (inject_Z 1) with 1%Q.
      eapply Qle_lt_trans; [exact Hy' | exact Hhi]. }
    apply Qlt_inject_Z in Hlt. lia. }
  destruct (round_nearest_even_rep _ _ Hrep1) as [Hmr Herr].
  set (mr := round_nearest_even (shr_m mrs1) (loc_of_shr_record mrs1)) in *.
  exists mr. split; [lia |]. split; [done |]. split; [lia |].
  unfold binary_round_aux. rewrite Hfirst. fold mr. unfold SFround.
  destruct (Z.eqb_spec mr 0) as [Hz | Hnz].
  - rewrite Hz, shr_fexp_small by lia. done.
  - destruct (Z.eqb_spec mr (2 ^ 53)) as [Htop | Hntop].
    + rewrite Htop, shr_fexp_top by lia. done.
    + rewrite shr_fexp_small by lia. cbn [shr_m].
      destruct mr as [| p | p]; [done | | lia]. done.
Qed.

Lemma SFround_valid (s : bool) (mr e : Z) :
  0 <= mr <= 2 ^ 53 -> -1074 <= e -> (-1074 < e -> 2 ^ 52 <= mr) ->
  valid_binary (SFround s mr e) = true.
Proof.
  intros Hmr He Hnorm. unfold SFround.
  destruct (Z.eqb_spec mr 0) as [Hz | Hnz]; [done |].
  destruct (Z.eqb_spec mr (2 ^ 53)) as [Htop | Hntop].
  - destruct (Z.leb_spec (e + 1) 971) as [Hle | Hgt]; [| done].
    cbn [SpecFloat.valid_binary]. unfold bounded, canonical_mantissa.
    apply andb_true_intro. split; [| apply Z.leb_le; change (emax - prec) with 971; lia].
    apply Z.eqb_eq. rewrite fexp64.
    change (Zpos (digits2_pos (2 ^ 52))) with 53. lia.
  - destruct (Z.leb_spec e 971) as [Hle | Hgt]; [| done].
    cbn [SpecFloat.valid_binary]. unfold bounded, canonical_mantissa.
    apply andb_true_intro. split; [| apply Z.leb_le; change (emax - prec) with 971; lia].
    apply Z.eqb_eq. rewrite fexp64.
    destruct mr as [| p | p]; [done | | lia]. cbn [Z.to_pos].
    pose proof (digits2_pos_spec p) as Hd.
    set (d := Zpos (digits2_pos p)) in *.
    assert (0 < d) by (unfold d; lia).
    assert (d <= 53) as Hd53.
    { destruct (Z.le_gt_cases d 53) as [? | Hgt]; [done |].
      assert (2 ^ 53 <= 2 ^ (d - 1)) by (apply Z.pow_le_mono_r; lia). lia. }
    destruct (Z.eq_dec e (-1074)) as [-> | Hne]; [lia |].
    assert (d = 53) as ->; [| lia].
    destruct (Z.eq_dec d 53) as [? | Hd']; [done |].
    assert (2 ^ d <= 2 ^ 52) by (apply Z.pow_le_mono_r; lia).
    specialize (Hnorm ltac:(lia)). lia.
Qed.

Lemma SFround_value (s : bool) (mr e : Z) :
  0 <= mr -> (s = true -> mr = 0) -> SFnonneg (SFround s mr e) ->
  (SF2Q (SFround s mr e) == inject_Z mr * pow2 e)%Q.
Proof.
  intros Hmr Hs. unfold SFround.
  destruct (Z.eqb_spec mr 0) as [Hz | Hnz].
  { intros _. rewrite Hz. cbn [SF2Q]. change (inject_Z 0) with 0%Q. ring. }
  assert (s = false) as -> by (destruct s; [by specialize (Hs eq_refl) | done]).
  destruct (Z.eqb_spec mr (2 ^ 53)) as [Htop | Hntop].
  - destruct (Z.leb_spec (e + 1) 971) as [Hle | Hgt]; [| done].
    intros _. rewrite Htop. cbn [SF2Q cond_Zopp]. rewrite pow2_add.
    change (inject_Z (Zpos (2 ^ 52))) with (inject_Z (2 ^ 52)).
    change (pow2 1) with 2%Q.
    change (inject_Z (2 ^ 53)) with (inject_Z (2 ^ 52 * 2)).
    rewrite inject_Z_mult. change (inject_Z 2) with 2%Q. ring.
  - destruct (Z.leb_spec e 971) as [Hle | Hgt]; [| done].
    intros _. cbn [SF2Q cond_Zopp]. rewrite Z2Pos.id by lia. reflexivity.
Qed.

Lemma SFround_finite (s : bool) (mr e : Z) :
  0 <= mr <= 2 ^ 53 -> (s = true -> mr = 0) -> (-1074 < e -> 2 ^ 52 <= mr) ->
  (inject_Z mr * pow2 e < pow2 1024)%Q -> SFnonneg (SFround s mr e).
Proof.
  intros Hmr Hs Hnorm Hlt. unfold SFround.
  destruct (Z.eqb_spec mr 0) as [Hz | Hnz]; [done |].
  assert (s = false) as -> by (destruct s; [by specialize (Hs eq_refl) | done]).
  assert (forall k : Z, 0 <= k -> 2 ^ k <= mr -> k + e < 1024) as Hk.
  { intros k Hk0 Hkm. apply pow2_lt_inv. eapply Qle_lt_trans; [| exact Hlt].
    rewrite pow2_add, (pow2_Z k) by done.
    apply Qmult_le_compat_r; [rewrite <- Zle_Qle; lia |].
    apply Qlt_le_weak, pow2_pos. }
  destruct (Z.eqb_spec mr (2 ^ 53)) as [Htop | Hntop].
  - destruct (Z.leb_spec (e + 1) 971) as [Hle | Hgt]; [done |].
    specialize (Hk 53 ltac:(lia) ltac:(lia)). lia.
  - destruct (Z.leb_spec e 971) as [Hle | Hgt]; [done |].
    specialize (Hk 52 ltac:(lia) ltac:(lia)). lia.
Qed.

Lemma rounds_valid (x : Q) (r : spec_float) : rounds x r -> valid_binary r = true.
Proof.
  intros (s & mr & e & -> & _ & Hmr & He & Hnorm & _).
  apply SFround_valid; [done.. |]. intros H. by apply Hnorm.
Qed.

Lemma rounds_ext (x x' : Q) (r : spec_float) : (x == x')%Q -> rounds x r -> rounds x' r.
Proof.
  intros Hx (s & mr & e & Hr & Hs & Hmr & He & Hnorm & Herr).
  exists s, mr, e. rewrite <- Hx. done.
Qed.

(** A rounded number is not above a float that the number is not above. *)
Lemma rounds_le (x c : Q) (r : spec_float) :
  rounds x r -> in_format c -> (x <= c)%Q -> SFnonneg r /\ (SF2Q r <= c)%Q.
Proof.
  intros (s & mr & e & -> & Hs & Hmr & He & Hnorm & Herr)
         (M & E & HM & HE & Hc) Hxc.
  assert (e <= E) as HeE.
  { destruct (Z.eq_dec e (-1074)) as [-> | Hne]; [lia |].
    destruct (Hnorm ltac:(lia)) as [_ Hmag].
    assert (pow2 (e + 52) < pow2 (53 + E))%Q as Hlt; [| apply pow2_lt_inv in Hlt; lia].
    eapply Qle_lt_trans; [exact Hmag |]. eapply Qle_lt_trans; [exact Hxc |].
    rewrite Hc, pow2_add, (pow2_Z 53) by lia.
    apply Qmult_lt_compat_r; [apply pow2_pos | rewrite <- Zlt_Qlt; lia]. }
  assert (c * pow2 (- e) == inject_Z (M * 2 ^ (E - e)))%Q as HK.
  { rewrite Hc, inject_Z_mult, <- (pow2_Z (E - e)) by lia.
    rewrite <- Qmult_assoc, <- pow2_add. by replace (E + - e) with (E - e) by lia. }
  assert (mr <= M * 2 ^ (E - e)) as HmrK.
  { assert (inject_Z mr < inject_Z (M * 2 ^ (E - e) + 1))%Q as Hlt;
      [| apply Qlt_inject_Z in Hlt; lia].
    rewrite inject_Z_plus, <- HK. change (inject_Z 1) with 1%Q.
    assert (x * pow2 (- e) <= c * pow2 (- e))%Q
      by (apply Qmult_le_compat_r; [done | apply Qlt_le_weak, pow2_pos]).
    lra. }
  assert (inject_Z mr * pow2 e <= c)%Q as Hv.
  { assert (c == inject_Z (M * 2 ^ (E - e)) * pow2 e)%Q as ->.
    { rewrite <- HK, <- Qmult_assoc, (Qmult_comm (pow2 (- e))), pow2_opp. ring. }
    apply Qmult_le_compat_r; [rewrite <- Zle_Qle; lia | apply Qlt_le_weak, pow2_pos]. }
  assert (SFnonneg (SFround s mr e)) as Hfin.
  { apply SFround_finite; [done | done | by intros H; apply Hnorm |].
    eapply Qle_lt_trans; [exact Hv |]. rewrite Hc.
    eapply Qlt_le_trans; [| apply (pow2_le (53 + E)); lia].
    rewrite pow2_add, (pow2_Z 53) by lia.
    apply Qmult_lt_compat_r; [apply pow2_pos | rewrite <- Zlt_Qlt; lia]. }
  split; [done |]. rewrite SFround_value by (done || lia). done.
Qed.

(** A float is rounded to itself. *)
Lemma rounds_exact (x : Q) (r : spec_float) :
  rounds x r -> in_format x -> SFnonneg r /\ (SF2Q r == x)%Q.
Proof.
  intros Hr Hx. destruct (rounds_le x x r Hr Hx) as [Hfin Hle]; [lra |].
  split; [done |]. apply Qle_antisym; [done |].
  destruct Hr as (s & mr & e & -> & Hs & Hmr & He & Hnorm & Herr).
  destruct Hx as (M & E & HM & HE & Hc).
  rewrite SFround_value by (done || lia).
  assert (e <= E) as HeE.
  { destruct (Z.eq_dec e (-1074)) as [-> | Hne]; [lia |].
    destruct (Hnorm ltac:(lia)) as [_ Hmag].
    assert (pow2 (e + 52) < pow2 (53 + E))%Q as Hlt; [| apply pow2_lt_inv in Hlt; lia].
    eapply Qle_lt_trans; [exact Hmag |].
    rewrite Hc, pow2_add, (pow2_Z 53) by lia.
    apply Qmult_lt_compat_r; [apply pow2_pos | rewrite <- Zlt_Qlt; lia]. }
  assert (x * pow2 (- e) == inject_Z (M * 2 ^ (E - e)))%Q as HK.
  { rewrite Hc, inject_Z_mult, <- (pow2_Z (E - e)) by lia.
    rewrite <- Qmult_assoc, <- pow2_add. by replace (E + - e) with (E - e) by lia. }
  assert (M * 2 ^ (E - e) <= mr) as HmrK.
  { assert (inject_Z (M * 2 ^ (E - e)) < inject_Z (mr + 1))%Q as Hlt;
      [| apply Qlt_inject_Z in Hlt; lia].
    rewrite inject_Z_plus, <- HK. change (inject_Z 1) with 1%Q. lra. }
  assert (x == inject_Z (M * 2 ^ (E - e)) * pow2 e)%Q as ->.
  { rewrite <- HK, <- Qmult_assoc, (Qmult_comm (pow2 (- e))), pow2_opp. ring. }
  apply Qmult_le_compat_r; [rewrite <- Zle_Qle; lia | apply Qlt_le_weak, pow2_pos].
Qed.

(** The error of rounding: at most [2^-53] of the number, or [2^-1075]. *)
Lemma rounds_err (x : Q) (r : spec_float) :
  (0 <= x)%Q -> rounds x r -> SFnonneg r ->
  (x - (pow2 (-53) * x + pow2 (-1075)) <= SF2Q r /\
   SF2Q r <= x + (pow2 (-53) * x + pow2 (-1075)))%Q.
Proof.
  intros Hx0 (s & mr & e & -> & Hs & Hmr & He & Hnorm & Herr) Hfin.
  rewrite SFround_value by (done || lia).
  assert (pow2 (e - 1) <= pow2 (-53) * x + pow2 (-1075))%Q as Hhalf.
  { destruct (Z.eq_dec e (-1074)) as [-> | Hne].
    - change (-1074 - 1) with (-1075).
      pose proof (pow2_pos (-53)). assert (0 <= pow2 (-53) * x)%Q by nra. lra.
    - destruct (Hnorm ltac:(lia)) as [_ Hmag].
      replace (e - 1) with (-53 + (e + 52)) by lia. rewrite pow2_add.
      pose proof (pow2_pos (-53)). pose proof (pow2_pos (-1075)).
      assert (pow2 (-53) * pow2 (e + 52) <= pow2 (-53) * x)%Q by nra. lra. }
  assert (x == x * pow2 (- e) * pow2 e)%Q as Hxe.
  { rewrite <- Qmult_assoc, (Qmult_comm (pow2 (- e))), pow2_opp. ring. }
  assert (pow2 (e - 1) == (1 # 2) * pow2 e)%Q as Hpe.
  { replace (e - 1) with (-1 + e) by lia. by rewrite pow2_add, pow2_m1. }
  pose proof (pow2_pos e) as Hpos.
  set (y := (x * pow2 (- e))%Q) in *. set (P := pow2 e) in *.
  destruct Herr as [Hlo Hhi].
  assert (inject_Z mr * P - (1 # 2) * P <= y * P)%Q by nra.
  assert (y * P <= inject_Z mr * P + (1 # 2) * P)%Q by nra.
  lra.
Qed.

Lemma rounds_nonneg (r : spec_float) : SFnonneg r -> (0 <= SF2Q r)%Q.
Proof.
  destruct r as [| | | [] m e]; try done; intros _; cbn [SF2Q cond_Zopp]; try lra.
  apply Qmult_le_0_compat; [rewrite <- (Zle_Qle 0); lia | apply Qlt_le_weak, pow2_pos].
Qed.

Lemma binary_round_aux_rounds (m e : Z) (l : location) (x : Q) :
  shr_rep (x * pow2 (- e)) (shr_record_of_loc m l) ->
  e <= fexp prec emax (Zdigits2 m + e) ->
  rounds x (binary_round_aux prec emax false m e l).
Proof.
  intros Hrep Hn.
  destruct (binary_round_aux_shape false m e l x Hrep Hn)
    as (mr & Hmr & Herr & Hnorm & ->).
  pose proof (proj1 Hrep) as Hm. rewrite shr_m_of_loc in Hm.
  pose proof (Zdigits2_bounds m Hm) as (Hd0 & Hd1 & Hd2).
  pose proof (shr_rep_bounds _ _ Hrep) as [Hlo _]. rewrite shr_m_of_loc in Hlo.
  set (d := Zdigits2 m) in *. set (e' := fexp prec emax (d + e)) in *.
  assert (e' = Z.max (d + e - 53) (-1074)) as He' by apply fexp64.
  exists false, mr, e'. split; [done |]. split; [done |]. split; [done |].
  split; [lia |]. split; [| done].
  intros Hn'. split; [by apply Hnorm |].
  assert (0 < m) as Hmpos.
  { destruct (Z.eq_dec m 0) as [-> | ?]; [| lia]. unfold d in *. cbn in *. lia. }
  specialize (Hd2 Hmpos).
  replace (e' + 52) with (d - 1 + e) by lia. rewrite pow2_add.
  assert (x == x * pow2 (- e) * pow2 e)%Q as ->.
  { rewrite <- Qmult_assoc, (Qmult_comm (pow2 (- e))), pow2_opp. ring. }
  apply Qmult_le_compat_r; [| apply Qlt_le_weak, pow2_pos].
  eapply Qle_trans; [| exact Hlo]. rewrite (pow2_Z (d - 1)) by lia.
  rewrite <- Zle_Qle. lia.
Qed.

Lemma shr_rep_exact (m : Z) (y : Q) :
  0 <= m -> (y == inject_Z m)%Q -> shr_rep y (shr_record_of_loc m loc_Exact).
Proof.
  intros Hm Hy. split; [done |]. exists 0%Q. cbn. split; [| done]. lra.
Qed.

(** *** Shifting a mantissa left *)
Lemma iter_xO_Z (m d : positive) : Zpos (Pos.iter xO m d) = Zpos m * 2 ^ Zpos d.
Proof.
  induction d as [| d IH] using Pos.peano_ind.
  - cbn. lia.
  - rewrite Pos.iter_succ, Pos2Z.inj_succ, Z.pow_succ_r by lia.
    change (Zpos (Pos.iter xO m d)~0) with (2 * Zpos (Pos.iter xO m d)). lia.
Qed.

Lemma iter_xO_digits (m d : positive) :
  Zpos (digits2_pos (Pos.iter xO m d)) = Zpos (digits2_pos m) + Zpos d.
Proof.
  induction d as [| d IH] using Pos.peano_ind.
  - cbn. lia.
  - rewrite Pos.iter_succ. cbn [digits2_pos]. lia.
Qed.

Lemma shl_align_value (m : positive) (e e' : Z) :
  (inject_Z (Zpos (shl_align m e e').1) * pow2 (shl_align m e e').2
   == inject_Z (Zpos m) * pow2 e)%Q.
Proof.
  unfold shl_align. destruct (e' - e) as [| d | d] eqn:Hd; cbn [fst snd]; try done.
  rewrite iter_xO_Z, inject_Z_mult, <- (pow2_Z (Zpos d)) by lia.
  rewrite <- Qmult_assoc, <- pow2_add. by replace (Zpos d + e') with e by lia.
Qed.

Lemma shl_align_exp (m : positive) (e e' : Z) :
  (shl_align m e e').2 = Z.min e e' /\
  Zpos (digits2_pos (shl_align m e e').1) + (shl_align m e e').2
  = Zpos (digits2_pos m) + e.
Proof.
  unfold shl_align. destruct (e' - e) as [| d | d] eqn:Hd; cbn [fst snd].
  - lia.
  - lia.
  - rewrite iter_xO_digits. lia.
Qed.

(** *** [binary_round] and [binary_normalize] *)
Lemma binary_round_rounds (m : positive) (e : Z) :
  rounds (inject_Z (Zpos m) * pow2 e) (binary_round prec emax false m e).
Proof.
  unfold binary_round.
  pose proof (shl_align_value m e (fexp prec emax (Zpos (digits2_pos m) + e))) as Hv.
  pose proof (shl_align_exp m e (fexp prec emax (Zpos (digits2_pos m) + e))) as [He Hd].
  destruct (shl_align m e (fexp prec emax (Zpos (digits2_pos m) + e))) as [mz ez].
  cbn [fst snd] in *.
  apply (rounds_ext (inject_Z (Zpos mz) * pow2 ez)); [done |].
  apply binary_round_aux_rounds.
  - apply shr_rep_exact; [lia |].
    rewrite <- Qmult_assoc, pow2_opp. ring.
  - cbn [Zdigits2]. rewrite Hd. lia.
Qed.

Lemma rounds_zero (s : bool) : rounds 0 (S754_zero s).
Proof.
  exists s, 0, (-1074). split; [done |]. split; [done |]. split; [lia |].
  split; [lia |]. split; [lia |]. change (inject_Z 0) with 0%Q. lra.
Qed.

Lemma binary_normalize_rounds (m e : Z) :
  0 <= m -> rounds (inject_Z m * pow2 e) (binary_normalize prec emax m e false).
Proof.
  intros Hm. destruct m as [| p | p]; [| | lia]; cbn [binary_normalize].
  - apply (rounds_ext 0); [change (inject_Z 0) with 0%Q; ring | apply rounds_zero].
  - apply binary_round_rounds.
Qed.

(** *** Floats *)
Lemma valid_finite (s : bool) (m : positive) (e : Z) :
  valid_binary (S754_finite s m e) = true ->
  -1074 <= e <= 971 /\ Zpos m < 2 ^ 53 /\ (-1074 < e -> 2 ^ 52 <= Zpos m) /\
  e = fexp prec emax (Zpos (digits2_pos m) + e).
Proof.
  cbn [SpecFloat.valid_binary]. unfold bounded, canonical_mantissa.
  intros [Hc He]%andb_true_iff. apply Z.eqb_eq in Hc. apply Z.leb_le in He.
  change (emax - prec) with 971 in He. pose proof Hc as Hc'. rewrite fexp64 in Hc.
  pose proof (digits2_pos_spec m) as Hd.
  set (d := Zpos (digits2_pos m)) in *.
  assert (0 < d) by (unfold d; lia).
  split; [lia |]. split; [| split; [| done]].
  - assert (2 ^ d <= 2 ^ 53) by (apply Z.pow_le_mono_r; lia). lia.
  - intros Hn. assert (d = 53) as Hd53 by lia. rewrite Hd53 in Hd.
    change (53 - 1) with 52 in Hd. lia.
Qed.

(** A float is itself rounded. *)
Lemma valid_rounds (r : spec_float) :
  valid_binary r = true -> SFnonneg r -> rounds (SF2Q r) r.
Proof.
  destruct r as [s | | | [] m e]; try done; intros Hv _.
  - apply rounds_zero.
  - destruct (valid_finite _ _ _ Hv) as (He & Hm & Hnorm & _).
    exists false, (Zpos m), e. split.
    { unfold SFround. destruct (Z.eqb_spec (Zpos m) 0); [lia |].
      destruct (Z.eqb_spec (Zpos m) (2 ^ 53)); [lia |].
      destruct (Z.leb_spec e 971); [done | lia]. }
    split; [done |]. split; [lia |]. split; [lia |]. cbn [SF2Q cond_Zopp].
    split.
    + intros Hn. split; [by apply Hnorm |].
      rewrite pow2_add, (pow2_Z 52) by lia. rewrite (Qmult_comm (pow2 e)).
      apply Qmult_le_compat_r; [| apply Qlt_le_weak, pow2_pos].
      rewrite <- Zle_Qle. by apply Hnorm.
    + rewrite <- Qmult_assoc, pow2_opp. lra.
Qed.

Lemma valid_in_format (r : spec_float) :
  valid_binary r = true -> SFnonneg r -> in_format (SF2Q r).
Proof.
  destruct r as [s | | | [] m e]; try done; intros Hv _.
  - exists 0, 0. split; [lia |]. split; [lia |]. cbn. reflexivity.
  - destruct (valid_finite _ _ _ Hv) as (He & Hm & _).
    exists (Zpos m), e. split; [lia |]. split; [lia |]. reflexivity.
Qed.

Lemma SF2Q_finite_pos (m : positive) (e : Z) : (0 < SF2Q (S754_finite false m e))%Q.
Proof.
  cbn [SF2Q cond_Zopp]. apply Qmult_lt_0_compat; [| apply pow2_pos].
  rewrite <- (Zlt_Qlt 0). lia.
Qed.

Lemma SF2Q_zero (s : bool) : SF2Q (S754_zero s) = 0%Q.
Proof. done. Qed.

(** *** Addition and subtraction *)
Lemma aligned_value (m : positive) (e e2 : Z) :
  (inject_Z (Zpos (shl_align m e (Z.min e e2)).1) * pow2 (Z.min e e2)
   == inject_Z (Zpos m) * pow2 e)%Q.
Proof.
  pose proof (shl_align_value m e (Z.min e e2)) as Hv.
  pose proof (shl_align_exp m e (Z.min e e2)) as [He _].
  rewrite He in Hv. by replace (Z.min e (Z.min e e2)) with (Z.min e e2) in Hv by lia.
Qed.

Lemma SFadd_rounds (a b : spec_float) :
  valid_binary a = true -> valid_binary b = true -> SFnonneg a -> SFnonneg b ->
  rounds (SF2Q a + SF2Q b) (SFadd prec emax a b).
Proof.
  intros Hva Hvb Ha Hb.
  destruct a as [sa | | | [] ma ea]; try done;
    destruct b as [sb | | | [] mb eb]; try done.
  - apply (rounds_ext 0); [cbn; lra |].
    cbn [SFadd]. destruct sa, sb; apply rounds_zero.
  - apply (rounds_ext (SF2Q (S754_finite false mb eb))); [cbn [SF2Q]; lra |].
    by apply valid_rounds.
  - apply (rounds_ext (SF2Q (S754_finite false ma ea))); [cbn [SF2Q]; lra |].
    by apply valid_rounds.
  - cbn [SFadd cond_Zopp SF2Q].
    pose proof (aligned_value ma ea eb) as H1.
    pose proof (aligned_value mb eb ea) as H2.
    rewrite (Z.min_comm eb ea) in H2.
    eapply rounds_ext; [| apply binary_normalize_rounds; lia].
    rewrite inject_Z_plus, <- H1, <- H2. ring.
Qed.

Lemma SFsub_rounds (a b : spec_float) :
  valid_binary a = true -> valid_binary b = true -> SFnonneg a -> SFnonneg b ->
  (SF2Q b <= SF2Q a)%Q ->
  rounds (SF2Q a - SF2Q b) (SFsub prec emax a b).
Proof.
  intros Hva Hvb Ha Hb Hle.
  destruct a as [sa | | | [] ma ea]; try done;
    destruct b as [sb | | | [] mb eb]; try done.
  - apply (rounds_ext 0); [cbn; lra |].
    cbn [SFsub]. destruct sa, sb; apply rounds_zero.
  - pose proof (SF2Q_finite_pos mb eb). rewrite SF2Q_zero in Hle. lra.
  - apply (rounds_ext (SF2Q (S754_finite false ma ea))); [cbn [SF2Q]; lra |].
    by apply valid_rounds.
  - cbn [SFsub cond_Zopp]. cbn [SF2Q cond_Zopp] in *.
    pose proof (aligned_value ma ea eb) as H1.
    pose proof (aligned_value mb eb ea) as H2.
    rewrite (Z.min_comm eb ea) in H2.
    set (M1 := Zpos (shl_align ma ea (Z.min ea eb)).1) in *.
    set (M2 := Zpos (shl_align mb eb (Z.min ea eb)).1) in *.
    assert (M2 <= M1) as HM.
    { apply Qle_inject_Z.
      pose proof (pow2_pos (Z.min ea eb)) as HP.
      assert (inject_Z M2 * pow2 (Z.min ea eb) <= inject_Z M1 * pow2 (Z.min ea eb))%Q
        by (rewrite H1, H2; done).
      nra. }
    eapply rounds_ext; [| apply binary_normalize_rounds; lia].
    unfold Z.sub. rewrite inject_Z_plus, inject_Z_opp, <- H1, <- H2. ring.
Qed.

(** *** Multiplication *)
Lemma SFmul_rounds (a b : spec_float) :
  valid_binary a = true -> valid_binary b = true -> SFnonneg a -> SFnonneg b ->
  rounds (SF2Q a * SF2Q b) (SFmul prec emax a b).
Proof.
  intros Hva Hvb Ha Hb.
  destruct a as [sa | | | [] ma ea]; try done;
    destruct b as [sb | | | [] mb eb]; try done;
    try (apply (rounds_ext 0); [cbn [SF2Q]; lra | apply rounds_zero]).
  cbn [SFmul xorb SF2Q cond_Zopp].
  apply (rounds_ext (inject_Z (Zpos (ma * mb)) * pow2 (ea + eb))).
  { rewrite Pos2Z.inj_mul, inject_Z_mult, pow2_add. ring. }
  apply binary_round_aux_rounds.
  - apply shr_rep_exact; [lia |]. rewrite <- Qmult_assoc, pow2_opp. ring.
  - destruct (valid_finite _ _ _ Hva) as (Hea & Hma & _ & Hca).
    destruct (valid_finite _ _ _ Hvb) as (Heb & Hmb & _ & Hcb).
    rewrite fexp64 in *. cbn [Zdigits2].
    pose proof (digits2_pos_spec ma) as Hda.
    pose proof (digits2_pos_spec mb) as Hdb.
    pose proof (digits2_pos_spec (ma * mb)) as Hd.
    set (da := Zpos (digits2_pos ma)) in *. set (db := Zpos (digits2_pos mb)) in *.
    set (d := Zpos (digits2_pos (ma * mb))) in *.
    assert (0 < da) by (unfold da; lia). assert (0 < db) by (unfold db; lia).
    assert (da + db - 1 <= d) as Hdd.
    { assert (2 ^ (da - 1 + (db - 1)) < 2 ^ d) as Hlt.
      { rewrite Z.pow_add_r by lia. rewrite Pos2Z.inj_mul in Hd. nia. }
      apply Z.pow_lt_mono_r_iff in Hlt; lia. }
    lia.
Qed.

(** *** Division *)

Lemma new_location_rep (nb k q : Z) :
  0 < nb -> 0 <= k < nb -> 0 <= q ->
  shr_rep (inject_Z q + inject_Z k / inject_Z nb)
          (shr_record_of_loc q (new_location nb k)).
Proof.
  intros Hnb Hk Hq.
  assert (0 < inject_Z nb)%Q as HN by (rewrite <- (Zlt_Qlt 0); lia).
  set (f := (inject_Z k / inject_Z nb)%Q).
  assert (forall a : Z, (2 * k < a * nb)%Z -> (f < inject_Z a * (1 # 2))%Q) as Hlt.
  { intros a Ha. unfold f. apply Qlt_shift_div_r; [done |].
    rewrite Zlt_Qlt, !inject_Z_mult in Ha.
    change (inject_Z 2) with 2%Q in Ha. lra. }
  assert (forall a : Z, (a * nb < 2 * k)%Z -> (inject_Z a * (1 # 2) < f)%Q) as Hgt.
  { intros a Ha. unfold f. apply Qlt_shift_div_l; [done |].
    rewrite Zlt_Qlt, !inject_Z_mult in Ha.
    change (inject_Z 2) with 2%Q in Ha. lra. }
  assert (k = 0 -> (f == 0)%Q) as Hf0.
  { intros ->. unfold f. change (inject_Z 0) with 0%Q. unfold Qdiv. ring. }
  assert (2 * k = nb -> (f == 1 # 2)%Q) as Hfeq.
  { intros <-. unfold f. rewrite inject_Z_mult. change (inject_Z 2) with 2%Q.
    field. intros Hk0. rewrite inject_Z_mult in HN. change (inject_Z 2) with 2%Q in HN.
    lra. }
  change (inject_Z 1) with 1%Q in *. change (inject_Z 0) with 0%Q in *.
  clearbody f.
  split; [by rewrite shr_m_of_loc |].
  unfold new_location.
  destruct (Z.even nb) eqn:Heven.
  - unfold new_location_even. destruct (Z.eqb_spec k 0) as [Hk0 | Hk0].
    + exists 0%Q. cbn [shr_record_of_loc shr_m shr_r shr_s].
      specialize (Hf0 Hk0). split; [lra | done].
    + destruct (Z.compare_spec (2 * k) nb) as [Heq | Hlt' | Hgt'].
      * exists 0%Q. cbn [shr_record_of_loc shr_m shr_r shr_s].
        specialize (Hfeq Heq). split; [lra | done].
      * exists f. cbn [shr_record_of_loc shr_m shr_r shr_s].
        specialize (Hlt 1 ltac:(lia)). specialize (Hgt 0 ltac:(lia)).
        inject_consts. split; lra.
      * exists (f - (1 # 2))%Q. cbn [shr_record_of_loc shr_m shr_r shr_s].
        specialize (Hlt 2 ltac:(lia)). specialize (Hgt 1 ltac:(lia)).
        inject_consts. split; lra.
  - unfold new_location_odd. destruct (Z.eqb_spec k 0) as [Hk0 | Hk0].
    + exists 0%Q. cbn [shr_record_of_loc shr_m shr_r shr_s].
      specialize (Hf0 Hk0). split; [lra | done].
    + assert (Z.odd nb = true) as Hodd by (by rewrite <- Z.negb_even, Heven).
      apply Z.odd_spec in Hodd as [j Hj].
      destruct (Z.compare_spec (2 * k + 1) nb) as [Heq | Hlt' | Hgt'].
      * exists f. cbn [shr_record_of_loc shr_m shr_r shr_s].
        specialize (Hlt 1 ltac:(lia)). specialize (Hgt 0 ltac:(lia)).
        inject_consts. split; lra.
      * exists f. cbn [shr_record_of_loc shr_m shr_r shr_s].
        specialize (Hlt 1 ltac:(lia)). specialize (Hgt 0 ltac:(lia)).
        inject_consts. split; lra.
      * exists (f - (1 # 2))%Q. cbn [shr_record_of_loc shr_m shr_r shr_s].
        specialize (Hlt 2 ltac:(lia)). specialize (Hgt 1 ltac:(lia)).
        inject_consts. split; lra.
Qed.

Lemma SFdiv_core_rep (m1 m2 : positive) (e1 e2 : Z) :
  let qel := SFdiv_core_binary prec emax (Zpos m1) e1 (Zpos m2) e2 in
  shr_rep (inject_Z (Zpos m1) * pow2 e1 / (inject_Z (Zpos m2) * pow2 e2)
           * pow2 (- qel.1.2))
          (shr_record_of_loc qel.1.1 qel.2) /\
  qel.1.2 <= fexp prec emax (Zdigits2 qel.1.1 + qel.1.2).
Proof.
  unfold SFdiv_core_binary. cbn [Zdigits2]. rewrite !fexp64.
  pose proof (digits2_pos_spec m1) as Hd1. pose proof (digits2_pos_spec m2) as Hd2.
  set (d1 := Zpos (digits2_pos m1)) in *. set (d2 := Zpos (digits2_pos m2)) in *.
  assert (0 < d1) by (unfold d1; lia). assert (0 < d2) by (unfold d2; lia).
  set (D := d1 + e1 - (d2 + e2)).
  set (e' := Z.min (Z.max (D - 53) (-1074)) (e1 - e2)).
  set (s := e1 - e2 - e').
  assert (0 <= s) as Hs by (unfold s, e'; lia).
  set (m' := match s with Zpos _ => Z.shiftl (Zpos m1) s | 0 => Zpos m1 | Zneg _ => 0 end).
  assert (m' = Zpos m1 * 2 ^ s) as Hm'.
  { unfold m'. destruct s as [| p | p] eqn:Hsp; [lia | | lia].
    by rewrite Z.shiftl_mul_pow2. }
  clearbody m'.
  assert (Z.div_eucl m' (Zpos m2) = (m' / Zpos m2, m' mod Zpos m2)) as ->
      by (unfold Z.div, Z.modulo; by destruct (Z.div_eucl m' (Zpos m2))).
  cbn [fst snd].
  pose proof (Z.div_mod m' (Zpos m2) ltac:(lia)) as Hdiv.
  pose proof (Z.mod_pos_bound m' (Zpos m2) ltac:(lia)) as Hmod.
  assert (0 <= 2 ^ s) by (apply Z.pow_nonneg; lia).
  assert (0 <= m' / Zpos m2) as Hq by (apply Z.div_pos; nia).
  set (q := m' / Zpos m2) in *. set (r := m' mod Zpos m2) in *.
  split.
  - eapply shr_rep_ext; [| apply (new_location_rep (Zpos m2) r q); lia].
    assert (0 < inject_Z (Zpos m2))%Q as HM2 by (rewrite <- (Zlt_Qlt 0); lia).
    pose proof (pow2_pos e2) as HP2. pose proof (pow2_pos e') as HP'.
    assert (pow2 e1 == pow2 s * pow2 e' * pow2 e2)%Q as ->.
    { rewrite <- !pow2_add. by replace (s + e' + e2) with e1 by (unfold s; lia). }
    assert (pow2 (- e') == / pow2 e')%Q as -> by apply Qpower_opp.
    assert (inject_Z (Zpos m1) * pow2 s == inject_Z (Zpos m2) * inject_Z q + inject_Z r)%Q
      as Hnum.
    { rewrite (pow2_Z s), <- !inject_Z_mult, <- inject_Z_plus by done.
      by rewrite <- Hm', Hdiv. }
    assert (inject_Z q + inject_Z r / inject_Z (Zpos m2)
            == inject_Z (Zpos m1) * pow2 s / inject_Z (Zpos m2))%Q as ->.
    { rewrite Hnum. field. lra. }
    field. repeat split; lra.
  - destruct (Z.le_gt_cases e' (-1074)) as [Hlow | Hhigh]; [lia |].
    assert (e' <= D - 53) as HeD by (unfold e' in *; lia).
    set (K := D - 1 - e').
    assert (2 ^ K <= q) as HqK.
    { apply Z.div_le_lower_bound; [lia |].
      assert (2 ^ (d2 + K) = 2 ^ (d1 - 1) * 2 ^ s) as Hpow.
      { rewrite <- Z.pow_add_r by lia. f_equal. unfold K, D, s. lia. }
      rewrite Z.pow_add_r in Hpow by lia.
      assert (0 < 2 ^ K) by (apply Z.pow_pos_nonneg; lia).
      nia. }
    pose proof (Zdigits2_bounds q Hq) as (Hdq0 & Hdq1 & _).
    assert (K < Zdigits2 q) as HKd.
    { apply (Z.pow_lt_mono_r_iff 2); lia. }
    unfold K in *. lia.
Qed.

Lemma SFdiv_rounds (a : spec_float) (mb : positive) (eb : Z) :
  valid_binary a = true -> SFnonneg a ->
  rounds (SF2Q a / SF2Q (S754_finite false mb eb))
         (SFdiv prec emax a (S754_finite false mb eb)).
Proof.
  intros Hva Ha.
  destruct a as [sa | | | [] ma ea]; try done.
  - apply (rounds_ext 0); [cbn [SF2Q]; unfold Qdiv; ring | apply rounds_zero].
  - cbn [SFdiv xorb SF2Q cond_Zopp].
    pose proof (SFdiv_core_rep ma mb ea eb) as [Hrep Hn].
    destruct (SFdiv_core_binary prec emax (Zpos ma) ea (Zpos mb) eb) as [[q e'] l].
    cbn [fst snd] in *. by apply binary_round_aux_rounds.
Qed.

Lemma fadd_rounds (a b : float) :
  Fnonneg a -> Fnonneg b -> Frounds (F2Q a + F2Q b) (fadd a b).
Proof.
  intros Ha Hb. unfold Frounds. cbn [fadd binary64]. rewrite add_spec.
  apply SFadd_rounds; [apply Prim2SF_valid.. | done | done].
Qed.

Lemma fsub_rounds (a b : float) :
  Fnonneg a -> Fnonneg b -> (F2Q b <= F2Q a)%Q -> Frounds (F2Q a - F2Q b) (fsub a b).
Proof.
  intros Ha Hb Hle. unfold Frounds. cbn [fsub binary64]. rewrite sub_spec.
  apply SFsub_rounds; [apply Prim2SF_valid.. | done | done | done].
Qed.

Lemma fmul_rounds (a b : float) :
  Fnonneg a -> Fnonneg b -> Frounds (F2Q a * F2Q b) (fmul a b).
Proof.
  intros Ha Hb. unfold Frounds. cbn [fmul binary64]. rewrite mul_spec.
  apply SFmul_rounds; [apply Prim2SF_valid.. | done | done].
Qed.

Lemma Fnonneg_pos_finite (b : float) :
  Fnonneg b -> (0 < F2Q b)%Q -> exists m e, Prim2SF b = S754_finite false m e.
Proof.
  unfold Fnonneg, F2Q. destruct (Prim2SF b) as [s | | | [] m e]; try done.
  intros _ _. eauto.
Qed.

Lemma fdiv_rounds (a b : float) :
  Fnonneg a -> Fnonneg b -> (0 < F2Q b)%Q -> Frounds (F2Q a / F2Q b) (fdiv a b).
Proof.
  intros Ha Hb Hpos. unfold Frounds. cbn [fdiv binary64]. rewrite div_spec.
  destruct (Fnonneg_pos_finite b Hb Hpos) as (m & e & Hbe).
  unfold F2Q. rewrite Hbe. apply SFdiv_rounds; [apply Prim2SF_valid | done].
Qed.

Lemma of_int_rounds (n : Z) : 0 <= n -> Frounds (inject_Z n) (of_int n).
Proof.
  intros Hn. unfold Frounds. cbn [of_int binary64]. unfold float_of_int.
  pose proof (binary_normalize_rounds n 0 Hn) as Hr.
  rewrite Prim2SF_SF2Prim by (by eapply rounds_valid).
  eapply rounds_ext; [| exact Hr]. change (pow2 0) with 1%Q. ring.
Qed.

Lemma Frounds_le (x c : Q) (r : float) :
  Frounds x r -> in_format c -> (x <= c)%Q -> Fnonneg r /\ (F2Q r <= c)%Q.
Proof. apply rounds_le. Qed.

Lemma Frounds_exact (x : Q) (r : float) :
  Frounds x r -> in_format x -> Fnonneg r /\ (F2Q r == x)%Q.
Proof. apply rounds_exact. Qed.

Lemma Frounds_err (x : Q) (r : float) :
  (0 <= x)%Q -> Frounds x r -> Fnonneg r ->
  (x - (pow2 (-53) * x + pow2 (-1075)) <= F2Q r /\
   F2Q r <= x + (pow2 (-53) * x + pow2 (-1075)))%Q.
Proof. apply rounds_err. Qed.

Lemma Fnonneg_F2Q (r : float) : Fnonneg r -> (0 <= F2Q r)%Q.
Proof. apply rounds_nonneg. Qed.

Lemma in_format_int (n j : Z) :
  0 <= n < 2 ^ 53 -> -1074 <= j <= 971 -> in_format (inject_Z n * pow2 j).
Proof. intros Hn Hj. by exists n, j. Qed.

Lemma fone_value : Fnonneg fone /\ (F2Q fone == 1)%Q.
Proof. split; [done |]. vm_compute. reflexivity. Qed.

Lemma fzero_value : Fnonneg fzero /\ (F2Q fzero == 0)%Q.
Proof. split; [done |]. reflexivity. Qed.

(** [float64(n)] is exact below [2^53]. *)
Lemma of_int_exact (n : Z) :
  0 <= n < 2 ^ 53 -> Fnonneg (of_int n) /\ (F2Q (of_int n) == inject_Z n)%Q.
Proof.
  intros Hn. apply Frounds_exact; [apply of_int_rounds; lia |].
  exists n, 0. split; [done |]. split; [lia |]. change (pow2 0) with 1%Q. ring.
Qed.

(** So is [float64(n) - 1]. *)
Lemma of_int_pred_exact (n : Z) :
  1 <= n < 2 ^ 53 ->
  Fnonneg (fsub (of_int n) fone) /\
  (F2Q (fsub (of_int n) fone) == inject_Z (n - 1))%Q.
Proof.
  intros Hn. destruct (of_int_exact n ltac:(lia)) as [Hnn Hnv].
  destruct fone_value as [H1 Hv1].
  assert (Frounds (inject_Z (n - 1)) (fsub (of_int n) fone)) as Hr.
  { eapply rounds_ext; [| apply fsub_rounds; [done | done |]].
    - rewrite Hnv, Hv1. unfold Z.sub. rewrite inject_Z_plus. reflexivity.
    - rewrite Hnv, Hv1. change 1%Q with (inject_Z 1). rewrite <- Zle_Qle. lia. }
  apply Frounds_exact; [done |].
  exists (n - 1), 0. split; [lia |]. split; [lia |]. change (pow2 0) with 1%Q. ring.
Qed.

Lemma ulp_err_pos (j : Z) : (0 < ulp_err j)%Q.
Proof.
  unfold ulp_err. pose proof (pow2_pos (j - 53)). pose proof (pow2_pos (-1075)). lra.
Qed.

Lemma Qmul_bound (d B w : Q) :
  (- B <= d -> d <= B -> 0 <= w -> - (B * w) <= d * w /\ d * w <= B * w)%Q.
Proof. intros. split; nra. Qed.

Lemma Qmul_le_l (u x y : Q) : (0 <= u -> x <= y -> u * x <= u * y)%Q.
Proof. intros. nra. Qed.

(** One step of the mean in binary64. *)
Lemma newMean_binary64 (a r : float) (n j : Z) :
  1 <= n < 2 ^ 53 -> -1074 <= j <= 971 ->
  Fnonneg a -> (F2Q a <= pow2 j)%Q -> Fnonneg r -> (F2Q r <= pow2 j)%Q ->
  Fnonneg (newMean a n r) /\ (F2Q (newMean a n r) <= pow2 j)%Q /\
  (- (3 * ulp_err j)
   <= F2Q (newMean a n r) - (F2Q a * inject_Z (n - 1) + F2Q r) / inject_Z n
   /\ F2Q (newMean a n r) - (F2Q a * inject_Z (n - 1) + F2Q r) / inject_Z n
      <= 3 * ulp_err j)%Q.
Proof.
  intros Hn Hj Ha HaM Hr HrM. unfold newMean.
  destruct (of_int_exact n ltac:(lia)) as [HN HNv].
  destruct (of_int_pred_exact n ltac:(lia)) as [HN1 HN1v].
  pose proof (Fnonneg_F2Q a Ha) as Ha0. pose proof (Fnonneg_F2Q r Hr) as Hr0.
  set (A := F2Q a) in *. set (R := F2Q r) in *.
  set (N := inject_Z n) in *. set (N1 := inject_Z (n - 1)) in *.
  set (M := pow2 j) in *.
  assert (1 <= N)%Q as HN1le by (unfold N; change 1%Q with (inject_Z 1); rewrite <- Zle_Qle; lia).
  assert (0 <= N1)%Q as HN10 by (unfold N1; rewrite <- (Zle_Qle 0); lia).
  assert (N1 + 1 == N)%Q as HNN1.
  { unfold N, N1. change 1%Q with (inject_Z 1). rewrite <- inject_Z_plus.
    by replace (n - 1 + 1) with n by lia. }
  pose proof (pow2_pos j) as HM0. fold M in HM0.
  pose proof (pow2_pos (-53)) as Hu. pose proof (pow2_pos (-1075)) as Heta.
  set (u := pow2 (-53)) in *. set (eta := pow2 (-1075)) in *.
  assert (ulp_err j == u * M + eta)%Q as Herr.
  { unfold ulp_err, u, M, eta. replace (j - 53) with (-53 + j) by lia.
    by rewrite pow2_add. }
  (* the product *)
  set (p := fmul a (fsub (of_int n) fone)).
  assert (Frounds (A * N1) p) as Hp.
  { eapply rounds_ext; [| apply (fmul_rounds a (fsub (of_int n) fone)); done].
    by rewrite HN1v. }
  destruct (Frounds_le _ (N1 * M) _ Hp) as [Hpn HpM].
  { apply in_format_int; lia. }
  { nra. }
  assert (0 <= A * N1)%Q as HAN1 by nra.
  destruct (Frounds_err _ _ HAN1 Hp Hpn) as [Hp1 Hp2].
  pose proof (Fnonneg_F2Q p Hpn) as Hp0.
  set (P := F2Q p) in *.
  (* the sum *)
  set (s := fadd p r).
  assert (Frounds (P + R) s) as Hs by (by apply fadd_rounds).
  destruct (Frounds_le _ (N * M) _ Hs) as [Hsn HsM].
  { apply in_format_int; lia. }
  { nra. }
  assert (0 <= P + R)%Q as HPR by lra.
  destruct (Frounds_err _ _ HPR Hs Hsn) as [Hs1 Hs2].
  pose proof (Fnonneg_F2Q s Hsn) as Hs0.
  set (S := F2Q s) in *.
  (* the quotient *)
  set (w := (/ N)%Q).
  assert (w * N == 1)%Q as HwN by (unfold w; field; lra).
  assert (0 < w)%Q as Hw0 by (unfold w; apply Qinv_lt_0_compat; lra).
  assert (w <= 1)%Q as Hw1 by nra.
  assert (N1 * w <= 1)%Q as HN1w by nra.
  set (m := fdiv s (of_int n)).
  assert (Frounds (S * w) m) as Hm.
  { eapply rounds_ext; [| apply (fdiv_rounds s (of_int n)); [done | done |]].
    - fold S. rewrite HNv. reflexivity.
    - rewrite HNv. fold N. lra. }
  assert (S * w <= M)%Q as HSw by nra.
  destruct (Frounds_le _ M _ Hm) as [Hmn HmM].
  { exists 1, j. split; [lia |]. split; [lia |]. fold M. inject_consts. ring. }
  { done. }
  assert (0 <= S * w)%Q as HSw0 by nra.
  destruct (Frounds_err _ _ HSw0 Hm Hmn) as [Hm1 Hm2].
  fold u eta in Hp1, Hp2, Hs1, Hs2, Hm1, Hm2.
  rewrite Herr. clearbody u eta M.
  set (V := F2Q m) in *.
  split; [done |]. split; [done |].
  assert ((A * N1 + R) / N == (A * N1 + R) * w)%Q as -> by reflexivity.
  (* the three errors *)
  set (d1 := (P - A * N1)%Q). set (d2 := (S - (P + R))%Q). set (d3 := (V - S * w)%Q).
  assert (V - (A * N1 + R) * w == d1 * w + d2 * w + d3)%Q as -> by (unfold d1, d2, d3; ring).
  assert (0 <= u * M)%Q as HuM by nra.
  assert (- (u * M + eta) <= d3 /\ d3 <= u * M + eta)%Q as [Hd3a Hd3b].
  { unfold d3. assert (u * (S * w) <= u * M)%Q by (apply Qmul_le_l; lra). split; lra. }
  assert (- (u * M + eta) <= d2 * w /\ d2 * w <= u * M + eta)%Q as [Hd2a Hd2b].
  { assert (u * (P + R) <= u * (N * M))%Q by (apply Qmul_le_l; [lra | nra]).
    destruct (Qmul_bound d2 (u * (N * M) + eta) w) as [H1 H2];
      [unfold d2; lra | unfold d2; lra | lra |].
    assert ((u * (N * M) + eta) * w == u * M * (w * N) + eta * w)%Q as Heq by ring.
    rewrite Heq, HwN in H1, H2.
    assert (eta * w <= eta * 1)%Q by (apply Qmul_le_l; lra). split; lra. }
  assert (- (u * M + eta) <= d1 * w /\ d1 * w <= u * M + eta)%Q as [Hd1a Hd1b].
  { assert (u * (A * N1) <= u * (N1 * M))%Q by (apply Qmul_le_l; [lra | nra]).
    destruct (Qmul_bound d1 (u * (N1 * M) + eta) w) as [H1 H2];
      [unfold d1; lra | unfold d1; lra | lra |].
    assert ((u * (N1 * M) + eta) * w == u * M * (N1 * w) + eta * w)%Q as Heq by ring.
    rewrite Heq in H1, H2.
    assert (eta * w <= eta * 1)%Q by (apply Qmul_le_l; lra).
    assert (u * M * (N1 * w) <= u * M * 1)%Q by (apply Qmul_le_l; lra).
    split; lra. }
  split; lra.
Qed.

(** The mean that a sequence of rewards leaves in binary64, against the
    mean of exact arithmetic. *)
Lemma running_mean_binary64 (j : Z) (rs : list float) :
  -1074 <= j <= 971 ->
  forall (a : float) (c : Z) (mu E : Q),
    0 <= c -> 0 < c + len rs -> c + len rs < 2 ^ 53 ->
    Fnonneg a -> (F2Q a <= pow2 j)%Q ->
    (- E <= F2Q a - mu)%Q -> (F2Q a - mu <= E)%Q ->
    Forall (fun r => Fnonneg r /\ (F2Q r <= pow2 j)%Q) rs ->
    Fnonneg (running_mean a c rs) /\
    (F2Q (running_mean a c rs) <= pow2 j)%Q /\
    (- (E + 3 * inject_Z (len rs) * ulp_err j)
     <= F2Q (running_mean a c rs)
        - (mu * inject_Z c + Qsum (F2Q <$> rs)) / inject_Z (c + len rs))%Q /\
    (F2Q (running_mean a c rs)
     - (mu * inject_Z c + Qsum (F2Q <$> rs)) / inject_Z (c + len rs)
     <= E + 3 * inject_Z (len rs) * ulp_err j)%Q.
Proof.
  intros Hj. induction rs as [| r rs IH]; intros a c mu E Hc Hpos Hk Ha HaM HE1 HE2 Hrs.
  - cbn [running_mean fmap list_fmap Qsum foldr].
    change (len (@nil float)) with 0 in *. rewrite Z.add_0_r in *.
    split; [done |]. split; [done |].
    assert (0 < inject_Z c)%Q as HC by (rewrite <- (Zlt_Qlt 0); lia).
    assert ((mu * inject_Z c + 0) / inject_Z c == mu)%Q as -> by (field; lra).
    inject_consts. pose proof (ulp_err_pos j). split; lra.
  - apply Forall_cons_1 in Hrs as [[Hr HrM] Hrs].
    rewrite len_cons in *. pose proof (len_nonneg rs) as Hlen.
    cbn [running_mean fmap list_fmap Qsum foldr].
    destruct (newMean_binary64 a r (c + 1) j ltac:(lia) Hj Ha HaM Hr HrM)
      as (Hm & HmM & Hm1 & Hm2).
    replace (c + 1 - 1) with c in Hm1, Hm2 by lia.
    set (a' := newMean a (c + 1) r) in *.
    pose proof (ulp_err_pos j) as He.
    set (e := ulp_err j) in *. clearbody e.
    set (A := F2Q a) in *. set (R := F2Q r) in *.
    set (C := inject_Z c) in *.
    assert (0 <= C)%Q as HC by (unfold C; rewrite <- (Zle_Qle 0); lia).
    assert (inject_Z (c + 1) == C + 1)%Q as HC1
        by (unfold C; rewrite inject_Z_plus; reflexivity).
    rewrite HC1 in Hm1, Hm2.
    set (w := (/ (C + 1))%Q).
    assert (w * (C + 1) == 1)%Q as Hw by (unfold w; field; lra).
    assert (0 < w)%Q as Hw0 by (unfold w; apply Qinv_lt_0_compat; lra).
    assert ((A * C + R) / (C + 1) == (A * C + R) * w)%Q as HT by reflexivity.
    rewrite HT in Hm1, Hm2.
    set (mu' := ((mu * C + R) * w)%Q).
    assert (0 <= C * w)%Q as HCw0 by nra.
    assert (C * w <= 1)%Q as HCw1 by nra.
    assert ((A * C + R) * w - mu' == (A - mu) * (C * w))%Q as Hdiff
        by (unfold mu'; ring).
    assert (0 <= E)%Q as HE0 by lra.
    assert (- E <= (A - mu) * (C * w) /\ (A - mu) * (C * w) <= E)%Q as [Hd1 Hd2].
    { clearbody w A C. split; nra. }
    destruct (IH a' (c + 1) mu' (E + 3 * e)%Q) as (Hfin & HfinM & Hb1 & Hb2);
      [lia | lia | lia | done | done | lra | lra | done |].
    split; [done |]. split; [done |].
    assert ((mu' * inject_Z (c + 1) + Qsum (F2Q <$> rs)) / inject_Z (c + 1 + len rs)
            == (mu * C + (R + Qsum (F2Q <$> rs))) / inject_Z (c + (1 + len rs)))%Q
      as Heq.
    { replace (c + (1 + len rs)) with (c + 1 + len rs) by lia.
      rewrite HC1. unfold mu'.
      assert ((mu * C + R) * w * (C + 1) == mu * C + R)%Q as ->
          by (rewrite <- Qmult_assoc, Hw; ring).
      by rewrite Qplus_assoc. }
    rewrite Heq in Hb1, Hb2.
    assert (inject_Z (1 + len rs) == 1 + inject_Z (len rs))%Q as ->
        by (rewrite inject_Z_plus; reflexivity).
    change (foldr Qplus 0%Q (F2Q <$> rs)) with (Qsum (F2Q <$> rs)).
    split; lra.
Qed.

(** ** One [Update] *)

Section one_update.
Context `{Float64 F}.
Implicit Types (i j c : Z) (r v : F).

(** What a call of [Update] of epsilon_greedy.go that returns [nil] did. *)
Lemma eg_Update_nil_inv i r (b b' : epsilon_greedy.EpsilonGreedy F) :
  epsilon_greedy.Update i r b = Some (None, b') ->
  exists c v,
    0 <= i < len (epsilon_greedy.Rewards b) /\ flt r fzero = false /\
    index (epsilon_greedy.Counts b) i = Some c /\
    index (epsilon_greedy.Rewards b) i = Some v /\
    epsilon_greedy.Epsilon b' = epsilon_greedy.Epsilon b /\
    store (epsilon_greedy.Counts b) i (wrap64 (c + 1))
      = Some (epsilon_greedy.Counts b') /\
    store (epsilon_greedy.Rewards b) i (newMean v (wrap64 (c + 1)) r)
      = Some (epsilon_greedy.Rewards b').
Proof.
  unfold epsilon_greedy.Update. intros Hu.
  case_decide as Hi; [discriminate |].
  destruct (flt r fzero) eqn:Hr; [discriminate |].
  destruct (index (epsilon_greedy.Counts b) i) as [c|] eqn:Hc; [| discriminate].
  cbn in Hu.
  destruct (store (epsilon_greedy.Counts b) i (wrap64 (c + 1)))
    as [counts|] eqn:Hst; [| discriminate].
  cbn in Hu. rewrite (index_store_eq _ _ _ _ Hst) in Hu. cbn in Hu.
  destruct (index (epsilon_greedy.Rewards b) i) as [v|] eqn:Hv; [| discriminate].
  cbn in Hu.
  destruct (store (epsilon_greedy.Rewards b) i _) as [rewards|] eqn:Hst';
    [| discriminate].
  cbn in Hu. injection Hu as <-.
  exists c, v. cbn. repeat split; try done; lia.
Qed.

(** With a valid index and a reward that is not negative, [Update] of
    epsilon_greedy.go returns [nil]. *)
Lemma eg_Update_nil i r c v (b : epsilon_greedy.EpsilonGreedy F) :
  flt r fzero = false ->
  index (epsilon_greedy.Counts b) i = Some c ->
  index (epsilon_greedy.Rewards b) i = Some v ->
  epsilon_greedy.Update i r b =
    Some (None,
          {| epsilon_greedy.Epsilon := epsilon_greedy.Epsilon b;
             epsilon_greedy.Counts :=
               <[Z.to_nat i := wrap64 (c + 1)]> (epsilon_greedy.Counts b);
             epsilon_greedy.Rewards :=
               <[Z.to_nat i := newMean v (wrap64 (c + 1)) r]>
                 (epsilon_greedy.Rewards b) |}).
Proof.
  intros Hr Hc Hv. unfold epsilon_greedy.Update.
  pose proof (proj1 (index_Some _ _ _) Hc) as [Hic _].
  pose proof (proj1 (index_Some _ _ _) Hv) as [Hiv _].
  rewrite decide_False by lia. rewrite Hr, Hc. cbn.
  destruct (store_in_range (epsilon_greedy.Counts b) i (wrap64 (c + 1)) Hic)
    as [counts Hst].
  rewrite Hst. cbn. rewrite (index_store_eq _ _ _ _ Hst). cbn.
  rewrite Hv. cbn.
  apply store_Some in Hst as [_ ->].
  unfold store. rewrite decide_True by done. done.
Qed.

(** What a call of [Update] of greedy.go that returns did. *)
Lemma g_Update_inv i r (b b' : greedy.EpsilonGreedy F) :
  greedy.Update i r b = Some b' ->
  exists c v,
    index (greedy.Counts b) i = Some c /\
    index (greedy.Rewards b) i = Some v /\
    greedy.Epsilon b' = greedy.Epsilon b /\ greedy.N b' = greedy.N b /\
    store (greedy.Counts b) i (wrap64 (c + 1)) = Some (greedy.Counts b') /\
    store (greedy.Rewards b) i (newMean v (wrap64 (c + 1)) r)
      = Some (greedy.Rewards b').
Proof.
  unfold greedy.Update. intros Hu.
  destruct (index (greedy.Counts b) i) as [c|] eqn:Hc; [| discriminate].
  cbn in Hu.
  destruct (store (greedy.Counts b) i (wrap64 (c + 1)))
    as [counts|] eqn:Hst; [| discriminate].
  cbn in Hu. rewrite (index_store_eq _ _ _ _ Hst) in Hu. cbn in Hu.
  destruct (index (greedy.Rewards b) i) as [v|] eqn:Hv; [| discriminate].
  cbn in Hu.
  destruct (store (greedy.Rewards b) i _) as [rewards|] eqn:Hst';
    [| discriminate].
  cbn in Hu. injection Hu as <-.
  exists c, v. cbn. repeat split; done.
Qed.

(** With an index valid in both slices, [Update] of greedy.go returns. *)
Lemma g_Update_returns i r c v (b : greedy.EpsilonGreedy F) :
  index (greedy.Counts b) i = Some c ->
  index (greedy.Rewards b) i = Some v ->
  greedy.Update i r b =
    Some {| greedy.Epsilon := greedy.Epsilon b;
            greedy.Counts := <[Z.to_nat i := wrap64 (c + 1)]> (greedy.Counts b);
            greedy.Rewards :=
              <[Z.to_nat i := newMean v (wrap64 (c + 1)) r]> (greedy.Rewards b);
            greedy.N := greedy.N b |}.
Proof.
  intros Hc Hv. unfold greedy.Update.
  pose proof (proj1 (index_Some _ _ _) Hc) as [Hic _].
  pose proof (proj1 (index_Some _ _ _) Hv) as [Hiv _].
  rewrite Hc. cbn.
  destruct (store_in_range (greedy.Counts b) i (wrap64 (c + 1)) Hic)
    as [counts Hst].
  rewrite Hst. cbn. rewrite (index_store_eq _ _ _ _ Hst). cbn.
  rewrite Hv. cbn.
  apply store_Some in Hst as [_ ->].
  unfold store. rewrite decide_True by done. done.
Qed.
End one_update.

(** ** The accessors *)

(** [GetCounts] and [GetRewards] return the sequences of the state, copied,
    and leave the state as it was. *)
Lemma accessors_copy `{Float64 F} (b : epsilon_greedy.EpsilonGreedy F) :
  epsilon_greedy.GetCounts b = Some (epsilon_greedy.Counts b, b) /\
  epsilon_greedy.GetRewards b = Some (epsilon_greedy.Rewards b, b).
Proof.
  unfold epsilon_greedy.GetCounts, epsilon_greedy.GetRewards.
  cbv zeta. by rewrite !copy_all.
Qed.

(** ** Errors of [Update] *)

(** C3, as amended.  [Update] of epsilon_greedy.go fails with
    [ErrArmsIndexOutOfRange] when the index is outside [0, N), with N the
    number of rewards, and with [ErrInvalidReward] when the index is in
    range and the reward is below 0; whenever it fails it leaves the state
    as it was.  [Update] of greedy.go has no error result: it panics when
    the index is outside the counts, and with a valid index it folds every
    reward into the mean, a negative one too. *)
Theorem Update_errors `{Float64 F} (i : Z) (r : F) :
  (forall b : epsilon_greedy.EpsilonGreedy F,
     (~ 0 <= i < len (epsilon_greedy.Rewards b) ->
      epsilon_greedy.Update i r b = Some (Some ErrArmsIndexOutOfRange, b)) /\
     (0 <= i < len (epsilon_greedy.Rewards b) -> flt r fzero = true ->
      epsilon_greedy.Update i r b = Some (Some ErrInvalidReward, b)) /\
     (forall e b', epsilon_greedy.Update i r b = Some (Some e, b') -> b' = b)) /\
  (forall b : greedy.EpsilonGreedy F,
     (~ 0 <= i < len (greedy.Counts b) -> greedy.Update i r b = None) /\
     (forall c v,
        index (greedy.Counts b) i = Some c ->
        index (greedy.Rewards b) i = Some v ->
        exists b', greedy.Update i r b = Some b' /\
          index (greedy.Counts b') i = Some (wrap64 (c + 1)) /\
          index (greedy.Rewards b') i = Some (newMean v (wrap64 (c + 1)) r))).
Proof.
  split; intros b.
  - split; [| split].
    + intros Hi. unfold epsilon_greedy.Update. rewrite decide_True by lia. done.
    + intros Hi Hr. unfold epsilon_greedy.Update.
      rewrite decide_False by lia. by rewrite Hr.
    + intros e b'. unfold epsilon_greedy.Update.
      case_decide; [by intros [= _ <-] |].
      destruct (flt r fzero); [by intros [= _ <-] |].
      intros Hu.
      repeat match type of Hu with
             | context [index ?s ?k] => destruct (index s k); cbn in Hu
             | context [store ?s ?k ?x] => destruct (store s k x); cbn in Hu
             end; discriminate.
  - split.
    + intros Hi. unfold greedy.Update.
      rewrite (proj2 (index_None _ _) Hi). done.
    + intros c v Hc Hv. eexists. split; [by apply g_Update_returns |]. cbn.
      apply index_Some in Hc as [Hic _]. apply index_Some in Hv as [Hiv _].
      split; apply index_Some; (split; [unfold len in *; rewrite length_insert; lia |]);
        apply list_lookup_insert_eq; unfold len in *; lia.
Qed.

Lemma Update_errors_witness :
  epsilon_greedy.Update 2 1%float eg_two_arms
    = Some (Some ErrArmsIndexOutOfRange, eg_two_arms) /\
  epsilon_greedy.Update 1 (-1)%float eg_two_arms
    = Some (Some ErrInvalidReward, eg_two_arms).
Proof.
  split.
  - apply (proj1 (Update_errors 2 1%float)). vm_compute. intros [_ Hlt]. done.
  - apply (proj1 (Update_errors 1 (-1)%float)); vm_compute; [split |]; congruence.
Defined.

(** C3 as stated fails on greedy.go: with a valid index and the reward -1,
    [Update] returns and the mean of the arm is -1. *)
Lemma Update_errors_counterexample :
  flt (-1)%float fzero = true /\
  exists b', greedy.Update 0 (-1)%float g_two_arms = Some b' /\
    greedy.Counts b' = [1; 0] /\
    greedy.Rewards b' = [(-1)%float; 0%float] /\
    b' <> g_two_arms.
Proof.
  split; [vm_compute; reflexivity |].
  eexists. split; [vm_compute; reflexivity |].
  split; [reflexivity |]. split; [reflexivity |]. discriminate.
Qed.

(** ** The frame of [Update] *)

(** C7.  A call of [Update] that succeeds changes the count and the mean of
    the chosen arm only: epsilon, the number of arms and every other arm's
    count and mean are as before (and so is [N] in greedy.go). *)
Theorem Update_frame `{Float64 F} (i : Z) (r : F) :
  (forall b b' : epsilon_greedy.EpsilonGreedy F,
     epsilon_greedy.Update i r b = Some (None, b') ->
     epsilon_greedy.Epsilon b' = epsilon_greedy.Epsilon b /\
     len (epsilon_greedy.Counts b') = len (epsilon_greedy.Counts b) /\
     len (epsilon_greedy.Rewards b') = len (epsilon_greedy.Rewards b) /\
     forall j, j <> i ->
       index (epsilon_greedy.Counts b') j = index (epsilon_greedy.Counts b) j /\
       index (epsilon_greedy.Rewards b') j = index (epsilon_greedy.Rewards b) j) /\
  (forall b b' : greedy.EpsilonGreedy F,
     greedy.Update i r b = Some b' ->
     greedy.Epsilon b' = greedy.Epsilon b /\ greedy.N b' = greedy.N b /\
     len (greedy.Counts b') = len (greedy.Counts b) /\
     len (greedy.Rewards b') = len (greedy.Rewards b) /\
     forall j, j <> i ->
       index (greedy.Counts b') j = index (greedy.Counts b) j /\
       index (greedy.Rewards b') j = index (greedy.Rewards b) j).
Proof.
  split; intros b b' Hu.
  - apply eg_Update_nil_inv in Hu as (c & v & _ & _ & _ & _ & He & Hc & Hr).
    split; [done |]. split; [by eapply len_store |].
    split; [by eapply len_store |].
    intros j Hj. split; by eapply index_store_ne.
  - apply g_Update_inv in Hu as (c & v & _ & _ & He & Hn & Hc & Hr).
    split; [done |]. split; [done |]. split; [by eapply len_store |].
    split; [by eapply len_store |].
    intros j Hj. split; by eapply index_store_ne.
Qed.

Lemma Update_frame_witness :
  let b' := {| epsilon_greedy.Epsilon := 0.5%float;
               epsilon_greedy.Counts := [1; 0];
               epsilon_greedy.Rewards := [1%float; 0%float] |} in
  epsilon_greedy.Update 0 1%float eg_two_arms = Some (None, b') /\
  epsilon_greedy.Epsilon b' = epsilon_greedy.Epsilon eg_two_arms /\
  index (epsilon_greedy.Counts b') 1 = index (epsilon_greedy.Counts eg_two_arms) 1 /\
  index (epsilon_greedy.Rewards b') 1 = index (epsilon_greedy.Rewards eg_two_arms) 1.
Proof.
  intros b'.
  assert (epsilon_greedy.Update 0 1%float eg_two_arms = Some (None, b')) as Hu
      by (vm_compute; reflexivity).
  split; [exact Hu |].
  destruct (proj1 (Update_frame 0 1%float) eg_two_arms b' Hu) as (He & _ & _ & Hj).
  split; [exact He |]. exact (Hj 1 ltac:(lia)).
Defined.

(** ** Construction *)

(** C10.  [NewEpsilonGreedy] of epsilon_greedy.go does not look at the
    number of arms.  With an epsilon that is neither below 0 nor above 1
    (over the rationals and in binary64: with every epsilon in [0, 1]) and
    two slices of one length it returns the state made of its three
    arguments, and no error; so it does with two empty slices, and the
    state then has no arm. *)
Theorem NewEpsilonGreedy_no_arm_check :
  (forall `{Float64 F} (epsilon : F) (counts : list Z) (rewards : list F),
     flt epsilon fzero = false -> flt fone epsilon = false ->
     len counts = len rewards ->
     epsilon_greedy.NewEpsilonGreedy epsilon counts rewards
       = inr {| epsilon_greedy.Epsilon := epsilon;
                epsilon_greedy.Counts := counts;
                epsilon_greedy.Rewards := rewards |}) /\
  (forall (epsilon : Qc) (counts : list Z) (rewards : list Qc),
     (0 <= epsilon <= 1)%Qc -> len counts = len rewards ->
     exists b, epsilon_greedy.NewEpsilonGreedy epsilon counts rewards = inr b /\
       epsilon_greedy.Epsilon b = epsilon /\
       epsilon_greedy.Counts b = counts /\ epsilon_greedy.Rewards b = rewards /\
       len (epsilon_greedy.Rewards b) = len counts) /\
  (forall epsilon : Qc,
     (0 <= epsilon <= 1)%Qc ->
     exists b, epsilon_greedy.NewEpsilonGreedy epsilon [] [] = inr b /\
       len (epsilon_greedy.Counts b) = 0 /\ len (epsilon_greedy.Rewards b) = 0) /\
  (forall (epsilon : float) (counts : list Z) (rewards : list float),
     PrimFloat.leb 0 epsilon = true -> PrimFloat.leb epsilon 1 = true ->
     len counts = len rewards ->
     epsilon_greedy.NewEpsilonGreedy epsilon counts rewards
       = inr {| epsilon_greedy.Epsilon := epsilon;
                epsilon_greedy.Counts := counts;
                epsilon_greedy.Rewards := rewards |}).
Proof.
  assert (forall `{Float64 F} (epsilon : F) counts rewards,
     flt epsilon fzero = false -> flt fone epsilon = false ->
     len counts = len rewards ->
     epsilon_greedy.NewEpsilonGreedy epsilon counts rewards
       = inr {| epsilon_greedy.Epsilon := epsilon;
                epsilon_greedy.Counts := counts;
                epsilon_greedy.Rewards := rewards |}) as Hgen.
  { intros F ? epsilon counts rewards H0 H1 Hlen.
    unfold epsilon_greedy.NewEpsilonGreedy. rewrite H0, H1. cbn.
    by rewrite decide_False by (by intros ?). }
  assert (forall epsilon : Qc, (0 <= epsilon <= 1)%Qc ->
     flt epsilon fzero = false /\ flt fone epsilon = false) as Hq.
  { intros epsilon [H0 H1]. cbn. split; apply bool_decide_eq_false.
    - by apply Qcle_not_lt.
    - by apply Qcle_not_lt. }
  split; [exact Hgen |]. split; [| split].
  - intros epsilon counts rewards Heps Hlen.
    destruct (Hq _ Heps) as [H0 H1].
    eexists. split; [by apply Hgen |]. cbn. by repeat split.
  - intros epsilon Heps. destruct (Hq _ Heps) as [H0 H1].
    eexists. split; [by apply Hgen |]. done.
  - intros epsilon counts rewards H0 H1 Hlen.
    apply Hgen; [by apply leb_not_above | by apply leb_not_above | done].
Qed.

Lemma NewEpsilonGreedy_no_arm_check_witness :
  epsilon_greedy.NewEpsilonGreedy 0.5%float [] []
    = inr {| epsilon_greedy.Epsilon := 0.5%float;
             epsilon_greedy.Counts := [];
             epsilon_greedy.Rewards := [] |}.
Proof.
  apply (proj1 NewEpsilonGreedy_no_arm_check float binary64);
    vm_compute; reflexivity.
Defined.




(** ** The two sequences have one length *)

(** C6, as amended.  That the counts and the rewards have one length is
    established by every construction and initialisation that succeeds, and
    preserved by [Init], [SelectArm], [Update], [GetCounts] and [GetRewards]
    (on epsilon_greedy.go [Init] returns when it is asked for no more than
    2^45 arms, and [Update] and the two accessors return on every state
    that has the property).  [SetCounts] and [SetRewards] of
    greedy.go check nothing: they preserve it exactly when the sequence
    they are given has the length of the sequence they leave in place. *)
Theorem lengths_agree_invariant `{Float64 F} :
  (forall epsilon counts rewards b,
     epsilon_greedy.NewEpsilonGreedy epsilon counts rewards = inr b ->
     eg_lengths_agree b) /\
  (forall n epsilon b,
     greedy.NewEpsilonGreedy n epsilon = Some b -> g_lengths_agree b) /\
  (forall (b : epsilon_greedy.EpsilonGreedy F) n,
     (n <= max_len -> is_Some (epsilon_greedy.Init n b)) /\
     (forall e b', epsilon_greedy.Init n b = Some (e, b') ->
        e = None \/ eg_lengths_agree b -> eg_lengths_agree b')) /\
  (forall b : epsilon_greedy.EpsilonGreedy F,
     eg_lengths_agree b ->
     (forall p d b', epsilon_greedy.SelectArm p b = Some (d, b') ->
        eg_lengths_agree b') /\
     (forall i r, exists e b', epsilon_greedy.Update i r b = Some (e, b') /\
        eg_lengths_agree b') /\
     (exists l b', epsilon_greedy.GetCounts b = Some (l, b') /\
        eg_lengths_agree b') /\
     (exists l b', epsilon_greedy.GetRewards b = Some (l, b') /\
        eg_lengths_agree b')) /\
  (forall b : greedy.EpsilonGreedy F,
     (g_lengths_agree b ->
      (forall p d b', greedy.SelectArm p b = Some (d, b') -> g_lengths_agree b') /\
      (forall i r b', greedy.Update i r b = Some b' -> g_lengths_agree b')) /\
     (forall counts,
        g_lengths_agree (greedy.SetCounts counts b)
        <-> len counts = len (greedy.Rewards b)) /\
     (forall rewards,
        g_lengths_agree (greedy.SetRewards rewards b)
        <-> len rewards = len (greedy.Counts b))).
Proof.
  split; [| split; [| split; [| split]]].
  - intros epsilon counts rewards b. unfold epsilon_greedy.NewEpsilonGreedy.
    destruct (_ || _); [discriminate |].
    case_decide as Hlen; [discriminate |]. intros [= <-].
    unfold eg_lengths_agree. cbn. lia.
  - intros n epsilon b. unfold greedy.NewEpsilonGreedy.
    destruct (make fzero n) as [rewards|] eqn:Hr; [| discriminate]. cbn.
    destruct (make 0 n) as [counts|] eqn:Hc; [| discriminate]. cbn.
    intros [= <-]. unfold g_lengths_agree. cbn.
    by rewrite (len_make _ _ _ Hr), (len_make _ _ _ Hc).
  - intros b n. unfold epsilon_greedy.Init. split.
    + intros Hn. case_decide; [done |]. unfold make.
      by rewrite !decide_False by lia.
    + intros e b'. case_decide as Hn.
      * intros [= <- <-] [? | ?]; done.
      * destruct (make 0 n) as [counts|] eqn:Hc; [| discriminate].
        destruct (make fzero n) as [rewards|] eqn:Hr; [| discriminate].
        cbn. intros [= <- <-] _. unfold eg_lengths_agree. cbn.
        by rewrite (len_make _ _ _ Hr), (len_make _ _ _ Hc).
  - intros b Hb. split; [| split; [| split]].
    + intros p d b'. unfold epsilon_greedy.SelectArm.
      destruct (flt _ p).
      * destruct (maxMean _ _); [| discriminate]. by intros [= _ <-].
      * destruct (rand_Intn _); [| discriminate]. by intros [= _ <-].
    + intros i r. unfold epsilon_greedy.Update.
      case_decide as Hi; [eauto |].
      destruct (flt r fzero) eqn:Hr; [eauto |].
      assert (0 <= i < len (epsilon_greedy.Counts b)) as Hic
          by (unfold eg_lengths_agree in Hb; lia).
      destruct (index_in_range (epsilon_greedy.Counts b) i Hic) as [c Hc].
      destruct (index_in_range (epsilon_greedy.Rewards b) i) as [v Hv]; [lia |].
      pose proof (eg_Update_nil i r c v b Hr Hc Hv) as Hu.
      unfold epsilon_greedy.Update in Hu.
      rewrite decide_False, Hr in Hu by done. rewrite Hu.
      eexists _, _. split; [reflexivity |].
      unfold eg_lengths_agree, len in *. cbn. rewrite !length_insert. done.
    + unfold epsilon_greedy.GetCounts. cbn. eauto.
    + unfold epsilon_greedy.GetRewards. cbn. eauto.
  - intros b. split; [| split].
    + intros Hb. split.
      * intros p d b'. unfold greedy.SelectArm. cbn.
        destruct (flt _ p).
        -- destruct (max _); [| discriminate]. by intros [= _ <-].
        -- destruct (rand_Intn _); [| discriminate]. by intros [= _ <-].
      * intros i r b' Hu.
        apply g_Update_inv in Hu as (c & v & _ & _ & _ & _ & Hc & Hr).
        unfold g_lengths_agree in *.
        by rewrite (len_store _ _ _ _ Hc), (len_store _ _ _ _ Hr).
    + intros counts. reflexivity.
    + intros rewards. unfold g_lengths_agree. cbn. split; intros; lia.
Qed.

Lemma lengths_agree_invariant_witness :
  g_lengths_agree g_two_arms /\
  g_lengths_agree (greedy.SetRewards [1%float; 2%float] g_two_arms).
Proof.
  assert (g_lengths_agree g_two_arms) as Hb.
  { apply (proj1 (proj2 lengths_agree_invariant) 2 0.5%float).
    vm_compute. reflexivity. }
  split; [exact Hb |].
  pose proof (proj2 (proj2 (proj2 (proj2 lengths_agree_invariant)))) as Hg.
  apply (proj2 (proj2 (Hg g_two_arms))). vm_compute. reflexivity.
Defined.

(** C6 as stated fails on greedy.go: [SetRewards] with a sequence of
    another length breaks the property. *)
Lemma lengths_agree_counterexample :
  greedy.NewEpsilonGreedy 2 0.5%float = Some g_two_arms /\
  g_lengths_agree g_two_arms /\
  ~ g_lengths_agree (greedy.SetRewards [1%float] g_two_arms).
Proof.
  split; [vm_compute; reflexivity |].
  split; [vm_compute; reflexivity |].
  unfold g_lengths_agree. vm_compute. discriminate.
Qed.

(** ** Choosing an arm *)

Lemma first_max_range `{Float64 F} (l : list F) (best : F) (besti i : Z) :
  0 <= besti < i -> 0 <= first_max best besti i l < i + len l.
Proof.
  revert best besti i. induction l as [| x l IH]; intros best besti i Hb; cbn.
  - unfold len. cbn. lia.
  - unfold len in *. cbn [length]. destruct (flt best x).
    + specialize (IH x i (i + 1)). lia.
    + specialize (IH best besti (i + 1)). lia.
Qed.

Lemma maxMean_range `{Float64 F} (counts : list Z) (rewards : list F) :
  1 <= len rewards ->
  exists i, maxMean counts rewards = Some i /\ 0 <= i < len rewards.
Proof.
  destruct rewards as [| x l]; [unfold len; cbn; lia |].
  intros _. eexists. split; [reflexivity |].
  pose proof (first_max_range l x 0 1). unfold len in *. cbn [length]. lia.
Qed.

Lemma max_range `{Float64 F} (array : list F) :
  1 <= len array -> exists i, max array = Some i /\ 0 <= i < len array.
Proof. apply (maxMean_range []). Qed.

Lemma rand_Intn_uniform (n : Z) :
  1 <= n -> exists d, rand_Intn n = Some d /\ uniform_on n d.
Proof.
  intros Hn. unfold rand_Intn. rewrite decide_False by lia.
  eexists. split; [reflexivity |]. split.
  - apply NoDup_fmap_2; [apply _ | apply NoDup_seq].
  - intros v. rewrite list_elem_of_fmap. setoid_rewrite elem_of_seq. split.
    + intros (k & -> & Hk). lia.
    + intros Hv. exists (Z.to_nat v). lia.
Qed.

Lemma uniform_on_valid_arm (n : Z) (d : dist Z) :
  1 <= n -> uniform_on n d -> valid_arm n d.
Proof.
  intros Hn [_ Hd]. split; [| intros v; apply Hd].
  intros ->. assert (0 ∈ @nil Z) as H0 by (apply Hd; lia). by apply elem_of_nil in H0.
Qed.

Lemma point_valid_arm (n i : Z) : 0 <= i < n -> valid_arm n (point i).
Proof.
  intros Hi. split; [done |]. intros v Hv.
  apply list_elem_of_singleton in Hv as ->. done.
Qed.

(** C8.  On a state with N >= 1 arms, N the number of rewards, [SelectArm]
    returns, whatever the draw; what it returns is the index of an arm, in
    [0, N); and the state it leaves is the state it found. *)
Theorem SelectArm_valid_arm `{Float64 F} (draw : F) :
  (forall b : epsilon_greedy.EpsilonGreedy F,
     1 <= len (epsilon_greedy.Rewards b) ->
     exists d, epsilon_greedy.SelectArm draw b = Some (d, b) /\
       valid_arm (len (epsilon_greedy.Rewards b)) d) /\
  (forall b : greedy.EpsilonGreedy F,
     1 <= len (greedy.Rewards b) ->
     exists d, greedy.SelectArm draw b = Some (d, b) /\
       valid_arm (len (greedy.Rewards b)) d).
Proof.
  split; intros b Hn.
  - unfold epsilon_greedy.SelectArm. destruct (flt _ draw).
    + destruct (maxMean_range (epsilon_greedy.Counts b) _ Hn) as (i & -> & Hi).
      cbn. eexists. split; [reflexivity |]. by apply point_valid_arm.
    + destruct (rand_Intn_uniform _ Hn) as (d & -> & Hd).
      cbn. eexists. split; [reflexivity |]. by apply uniform_on_valid_arm.
  - unfold greedy.SelectArm. cbn. destruct (flt _ draw).
    + destruct (max_range _ Hn) as (i & -> & Hi).
      cbn. eexists. split; [reflexivity |]. by apply point_valid_arm.
    + destruct (rand_Intn_uniform _ Hn) as (d & -> & Hd).
      cbn. eexists. split; [reflexivity |]. by apply uniform_on_valid_arm.
Qed.

Lemma SelectArm_valid_arm_witness :
  exists d, epsilon_greedy.SelectArm 0.25%float eg_two_arms = Some (d, eg_two_arms) /\
    valid_arm 2 d.
Proof.
  apply (proj1 (SelectArm_valid_arm 0.25%float) eg_two_arms).
  vm_compute. discriminate.
Defined.

(** ** The arm that exploit chooses, in exact arithmetic *)

Lemma index_app_l {A} (pre l : list A) (j : Z) (x : A) :
  index pre j = Some x -> index (pre ++ l) j = Some x.
Proof.
  intros [Hj Hx]%index_Some. apply index_Some.
  unfold len in *. rewrite length_app. split; [lia |].
  by apply lookup_app_l_Some.
Qed.

Lemma index_snoc_inv {A} (pre : list A) (x y : A) (j : Z) :
  index (pre ++ [x]) j = Some y ->
  index pre j = Some y \/ (j = len pre /\ y = x).
Proof.
  intros [Hj Hy]%index_Some.
  unfold len in *. rewrite length_app in Hj. cbn in Hj.
  destruct (decide (j < Z.of_nat (length pre))) as [Hlt | Hge].
  - left. apply index_Some. split; [unfold len; lia |].
    rewrite lookup_app_l in Hy by lia. done.
  - right. split; [lia |].
    rewrite lookup_app_r in Hy by lia.
    replace (Z.to_nat j - length pre)%nat with 0%nat in Hy by lia.
    cbn in Hy. congruence.
Qed.

Lemma index_snoc_last {A} (pre : list A) (x : A) :
  index (pre ++ [x]) (len pre) = Some x.
Proof.
  apply index_Some. unfold len. rewrite length_app. cbn. split; [lia |].
  rewrite Nat2Z.id. rewrite lookup_app_r by lia.
  by rewrite Nat.sub_diag.
Qed.

Lemma index_elem_of {A} (s : list A) (j : Z) (x : A) : index s j = Some x -> x ∈ s.
Proof. intros [_ Hx]%index_Some. by eapply list_elem_of_lookup_2. Qed.

(** The scan, started after the prefix [pre] whose first maximum is [best]
    at [besti], ends on the first maximum of the whole sequence. *)
Lemma first_max_ordered `{Float64 F} (l pre : list F) (best : F) (besti : Z) :
  ordered (pre ++ l) ->
  index pre besti = Some best ->
  (forall j rj, index pre j = Some rj -> flt best rj = false) ->
  (forall j rj, index pre j = Some rj -> j < besti -> flt rj best = true) ->
  exists top,
    index (pre ++ l) (first_max best besti (len pre) l) = Some top /\
    (forall j rj, index (pre ++ l) j = Some rj -> flt top rj = false) /\
    (forall j rj, index (pre ++ l) j = Some rj ->
       j < first_max best besti (len pre) l -> flt rj top = true).
Proof.
  revert pre best besti.
  induction l as [| x l IH]; intros pre best besti Hord Hbest Hle Hlt.
  - rewrite app_nil_r. cbn. eauto.
  - cbn [first_max].
    assert (len (pre ++ [x]) = len pre + 1) as Hlen
        by (unfold len; rewrite length_app; cbn; lia).
    assert (pre ++ x :: l = (pre ++ [x]) ++ l) as Heq
        by (by rewrite <- app_assoc).
    assert (best ∈ pre ++ x :: l) as Hbest_in
        by (apply elem_of_app; left; by eapply index_elem_of).
    assert (x ∈ pre ++ x :: l) as Hx_in
        by (apply elem_of_app; right; left).
    assert (forall j rj, index pre j = Some rj -> rj ∈ pre ++ x :: l) as Hpre_in
        by (intros j rj Hj; apply elem_of_app; left; by eapply index_elem_of).
    rewrite Heq in *. rewrite <- Hlen.
    destruct (flt best x) eqn:Hx.
    + apply IH; [done | apply index_snoc_last | |].
      * intros j rj [Hj | [_ ->]]%index_snoc_inv.
        -- destruct (flt x rj) eqn:Hxr; [| done].
           destruct (Hord x best rj) as [_ Hco]; [done | done | by eapply Hpre_in |].
           destruct (Hco Hxr) as [Hxb | Hbr].
           ++ destruct (Hord best x x) as [Has _]; [done | done | done |].
              rewrite (Has Hx) in Hxb. done.
           ++ rewrite (Hle j rj Hj) in Hbr. done.
        -- destruct (flt x x) eqn:Hxx; [| done].
           destruct (Hord x x x) as [Has _]; [done | done | done |].
           rewrite (Has Hxx) in Hxx. done.
      * intros j rj [Hj | [-> _]]%index_snoc_inv Hjl; [| lia].
        destruct (Hord best rj x) as [_ Hco]; [done | by eapply Hpre_in | done |].
        destruct (Hco Hx) as [Hbr | Hrx]; [| done].
        rewrite (Hle j rj Hj) in Hbr. done.
    + apply IH; [done | by apply index_app_l | |].
      * intros j rj [Hj | [_ ->]]%index_snoc_inv; [by eapply Hle | done].
      * intros j rj [Hj | [-> _]]%index_snoc_inv Hjl; [by eapply Hlt |].
        apply index_Some in Hbest as [Hb _]. lia.
Qed.

Lemma first_max_first_top_arm `{Float64 F} (x : F) (l : list F) :
  ordered (x :: l) -> first_top_arm (x :: l) (first_max x 0 1 l).
Proof.
  intros Hord.
  assert (flt x x = false) as Hxx.
  { destruct (flt x x) eqn:Hxx; [| done].
    destruct (Hord x x x) as [Has _]; [left | left | left |].
    rewrite (Has Hxx) in Hxx. done. }
  destruct (first_max_ordered l [x] x 0) as (top & Htop & Hle & Hlt).
  - done.
  - reflexivity.
  - intros j rj [Hj Hl]%index_Some. unfold len in Hj. cbn in Hj.
    replace j with 0 in Hl by lia. cbn in Hl. by injection Hl as <-.
  - intros j rj [Hj _]%index_Some ?. lia.
  - change (len [x]) with 1 in *. change ([x] ++ l) with (x :: l) in *.
    split; [by exists top |].
    intros j (rj & Hj & Hmax).
    destruct (decide (first_max x 0 1 l <= j)) as [| Hnle]; [done |].
    exfalso. assert (flt rj top = true) as Hrj by (eapply Hlt; [done | lia]).
    rewrite (Hmax _ _ Htop) in Hrj. done.
Qed.

Lemma maxMean_first_top_arm `{Float64 F} (counts : list Z) (rewards : list F) :
  1 <= len rewards -> ordered rewards ->
  exists i, maxMean counts rewards = Some i /\ first_top_arm rewards i.
Proof.
  destruct rewards as [| x l]; [unfold len; cbn; lia |].
  intros _ Hord. eexists. split; [reflexivity |].
  by apply first_max_first_top_arm.
Qed.

Lemma max_first_top_arm `{Float64 F} (array : list F) :
  1 <= len array -> ordered array ->
  exists i, max array = Some i /\ first_top_arm array i.
Proof. apply (maxMean_first_top_arm []). Qed.









(** The tests of the spec, in [binary64]: with the means 0.5, 0.5, 0.125 and
    a draw above epsilon the first arm is chosen; with a draw that is not,
    each of the three arms is as likely as the others. *)
Example SelectArm_tied64 :
  epsilon_greedy.SelectArm 1%float eg_tied64 = Some ([0], eg_tied64) /\
  epsilon_greedy.SelectArm 0.125%float eg_tied64 = Some ([0; 1; 2], eg_tied64) /\
  maxMean [1; 1; 1] [0.25%float; 1.5%float; 0.5%float] = Some 1.
Proof. repeat split; vm_compute; reflexivity. Qed.

(** ** The arm that exploit chooses, in binary64 *)

(** On floats none of which is NaN the exploit branch of [SelectArm]
    returns the first of the arms that no mean compares above, whatever the
    draw above epsilon; and a draw that is [<=] epsilon takes the explore
    branch. *)
Lemma SelectArm_binary64 :
  (forall b : epsilon_greedy.EpsilonGreedy float,
     1 <= len (epsilon_greedy.Rewards b) ->
     (Forall not_nan (epsilon_greedy.Rewards b) ->
      exists i, first_top_arm (epsilon_greedy.Rewards b) i /\
        forall draw, PrimFloat.ltb (epsilon_greedy.Epsilon b) draw = true ->
          epsilon_greedy.SelectArm draw b = Some (point i, b)) /\
     (forall draw, PrimFloat.leb draw (epsilon_greedy.Epsilon b) = true ->
        exists d, epsilon_greedy.SelectArm draw b = Some (d, b) /\
          uniform_on (len (epsilon_greedy.Rewards b)) d)) /\
  (forall b : greedy.EpsilonGreedy float,
     1 <= len (greedy.Rewards b) ->
     (Forall not_nan (greedy.Rewards b) ->
      exists i, first_top_arm (greedy.Rewards b) i /\
        forall draw, PrimFloat.ltb (greedy.Epsilon b) draw = true ->
          greedy.SelectArm draw b = Some (point i, b)) /\
     (forall draw, PrimFloat.leb draw (greedy.Epsilon b) = true ->
        exists d, greedy.SelectArm draw b = Some (d, b) /\
          uniform_on (len (greedy.Rewards b)) d)).
Proof.
  split; intros b Hn; split.
  - intros Hnan.
    destruct (maxMean_first_top_arm (epsilon_greedy.Counts b) _ Hn
                (ordered_binary64 _ Hnan)) as (i & Hmax & Hi).
    exists i. split; [done |]. intros draw Hd.
    unfold epsilon_greedy.SelectArm.
    change (@flt float binary64) with PrimFloat.ltb. by rewrite Hd, Hmax.
  - intros draw Hd. unfold epsilon_greedy.SelectArm. rewrite (leb_not_above _ _ Hd).
    destruct (rand_Intn_uniform _ Hn) as (d & -> & Hu). cbn. eauto.
  - intros Hnan.
    destruct (max_first_top_arm _ Hn (ordered_binary64 _ Hnan)) as (i & Hmax & Hi).
    exists i. split; [done |]. intros draw Hd.
    unfold greedy.SelectArm. cbv zeta.
    change (@flt float binary64) with PrimFloat.ltb. by rewrite Hd, Hmax.
  - intros draw Hd. unfold greedy.SelectArm. cbv zeta. rewrite (leb_not_above _ _ Hd).
    destruct (rand_Intn_uniform _ Hn) as (d & -> & Hu). cbn. eauto.
Qed.

(** ** A sequence of updates of one arm *)

Lemma wrap64_small (z : Z) : - 2 ^ 63 <= z < 2 ^ 63 -> wrap64 z = z.
Proof. intros Hz. unfold wrap64. rewrite Z.mod_small; lia. Qed.

Lemma index_insert_eq {A} (s : list A) (i : Z) (v : A) :
  0 <= i < len s -> index (<[Z.to_nat i := v]> s) i = Some v.
Proof.
  intros Hi. apply (index_store_eq s i v). apply store_Some. done.
Qed.

Section feed.
Context `{Float64 F}.
Implicit Types (i c : Z) (m : F) (rs : list F).

Lemma eg_feed_running i rs :
  forall (b : epsilon_greedy.EpsilonGreedy F) c m,
    0 <= c -> c + len rs < 2 ^ 63 ->
    index (epsilon_greedy.Counts b) i = Some c ->
    index (epsilon_greedy.Rewards b) i = Some m ->
    Forall (fun r => flt r fzero = false) rs ->
    exists b', eg_feed i rs b = Some b' /\
      index (epsilon_greedy.Counts b') i = Some (c + len rs) /\
      index (epsilon_greedy.Rewards b') i = Some (running_mean m c rs).
Proof.
  induction rs as [| r rs IH]; intros b c m Hc0 Hk Hc Hm Hrs.
  - exists b. unfold len. cbn. rewrite Z.add_0_r. done.
  - apply Forall_cons_1 in Hrs as [Hr Hrs].
    assert (len (r :: rs) = 1 + len rs) as Hlen by (unfold len; cbn; lia).
    pose proof (len_nonneg rs) as Hrs0.
    cbn [eg_feed running_mean].
    rewrite (eg_Update_nil i r c m b Hr Hc Hm).
    rewrite wrap64_small by lia.
    apply index_Some in Hc as [Hic _]. apply index_Some in Hm as [Him _].
    match goal with |- context [eg_feed i rs ?b1] =>
      destruct (IH b1 (c + 1) (newMean m (c + 1) r)) as (b' & Hfeed & Hc' & Hm');
        [lia | lia | cbn; by apply index_insert_eq
         | cbn; by apply index_insert_eq | done |]
    end.
    exists b'. split; [done |]. rewrite Hlen.
    replace (c + (1 + len rs)) with (c + 1 + len rs) by lia. done.
Qed.

End feed.

(** In exact arithmetic one step turns the mean of [c] rewards into the mean
    of [c + 1] rewards. *)
Lemma newMean_exact (m s r : Qc) (c : Z) :
  0 <= c -> (m * Qc_of_Z c = s)%Qc ->
  newMean m (c + 1) r = ((s + r) / Qc_of_Z (c + 1))%Qc.
Proof.
  intros Hc Hs. unfold newMean. cbn.
  rewrite Z2Qc_inj_add, Z2Qc_inj_1.
  replace (Qc_of_Z c + 1 - 1)%Qc with (Qc_of_Z c) by ring.
  by rewrite Hs.
Qed.

Lemma Qc_of_Z_pos_ne_0 (c : Z) : 0 < c -> Qc_of_Z c <> 0%Qc.
Proof.
  intros Hc Heq. rewrite <- Z2Qc_inj_0 in Heq. apply Z2Qc_inj in Heq. lia.
Qed.

Lemma running_mean_exact (rs : list Qc) :
  forall (m s : Qc) (c : Z),
    0 <= c -> (m * Qc_of_Z c = s)%Qc -> 0 < c + len rs ->
    running_mean m c rs
      = ((s + foldr Qcplus 0%Qc rs) / Qc_of_Z (c + len rs))%Qc.
Proof.
  induction rs as [| r rs IH]; intros m s c Hc Hs Hpos.
  - unfold len in *. cbn in *. rewrite Z.add_0_r in *.
    rewrite Qcplus_0_r, <- Hs. symmetry. apply Qcdiv_mult_l.
    apply Qc_of_Z_pos_ne_0. lia.
  - assert (len (r :: rs) = 1 + len rs) as Hlen by (unfold len; cbn; lia).
    pose proof (len_nonneg rs) as Hrs0.
    cbn [running_mean foldr]. rewrite (newMean_exact m s r c Hc Hs).
    rewrite (IH _ (s + r)%Qc (c + 1)); [| lia | | lia].
    + rewrite Hlen. f_equal; [ring | f_equal; lia].
    + unfold Qcdiv. rewrite <- Qcmult_assoc, Qcmult_inv_l, Qcmult_1_r; [done |].
      apply Qc_of_Z_pos_ne_0. lia.
Qed.

Lemma running_mean_average (rs : list Qc) : running_mean 0%Qc 0 rs = average rs.
Proof.
  destruct rs as [| r rs]; [done |].
  rewrite (running_mean_exact (r :: rs) 0%Qc 0%Qc 0); [| lia | ring |].
  - unfold average. by rewrite Qcplus_0_l, Z.add_0_l.
  - pose proof (len_nonneg rs). unfold len in *. cbn [length]. lia.
Qed.




(** ** Concurrent updates *)

(** Alone, a goroutine of [Update] does what the method does. *)
Lemma g_alone_Update `{Float64 F} (i : Z) (r : F) (b : greedy.EpsilonGreedy F) :
  match greedy.Update i r b with
  | Some b' =>
      g_alone 7 i r greedy.AtIncrRead (Guarded false b)
        = (greedy.Returned, Guarded false b')
  | None =>
      (g_alone 7 i r greedy.AtIncrRead (Guarded false b)).1 = greedy.Panicked
  end.
Proof.
  unfold greedy.Update. cbn.
  destruct (index (greedy.Counts b) i) as [c|] eqn:Hc; cbn; [| done].
  destruct (store (greedy.Counts b) i (wrap64 (c + 1))) as [counts|] eqn:Hst;
    cbn; [| done].
  rewrite (index_store_eq _ _ _ _ Hst). cbn.
  destruct (index (greedy.Rewards b) i) as [v|] eqn:Hv; cbn; [| done].
  destruct (store (greedy.Rewards b) i _) as [rewards|] eqn:Hst'; cbn; done.
Qed.

Lemma eg_alone_Update `{Float64 F} (i : Z) (r : F) (held0 : bool)
    (b : epsilon_greedy.EpsilonGreedy F) :
  match epsilon_greedy.Update i r b with
  | Some (e, b') =>
      eg_alone 7 i r epsilon_greedy.AtChecks (Guarded held0 b)
        = (epsilon_greedy.Returned e, Guarded false b')
  | None =>
      (eg_alone 7 i r epsilon_greedy.AtChecks (Guarded held0 b)).1
        = epsilon_greedy.Panicked
  end.
Proof.
  unfold epsilon_greedy.Update. cbn.
  case_decide as Hi; cbn; [done |].
  destruct (flt r fzero); cbn; [done |].
  destruct (index (epsilon_greedy.Counts b) i) as [c|] eqn:Hc; cbn; [| done].
  destruct (store (epsilon_greedy.Counts b) i (wrap64 (c + 1)))
    as [counts|] eqn:Hst; cbn; [| done].
  rewrite (index_store_eq _ _ _ _ Hst). cbn.
  destruct (index (epsilon_greedy.Rewards b) i) as [v|] eqn:Hv; cbn; [| done].
  destruct (store (epsilon_greedy.Rewards b) i _) as [rewards|] eqn:Hst'; cbn; done.
Qed.

(** C9 fails on greedy.go, in binary64.  Two goroutines call
    [Update(0, 1.0)] on an arm with count 0 and mean 0.0.  When both have
    incremented the count before either reads it back, both compute
    (0 * 1 + 1) / 2 and the mean ends at 0.5; when both read the count
    before either writes it, the count ends at 1.  The mutex, taken around
    the assignment of the mean only, does not prevent either.  (The two
    calls made one after the other leave count 2 and mean 1.0.) *)
Theorem greedy_Update_lost_update :
  run (greedy.Update_step 0 1%float)
      [0; 0; 1; 1; 0; 0; 1; 1; 0; 0; 0; 1; 1; 1]%nat
      (g_spawn 2, Guarded false g_two_arms)
    = Some ([greedy.Returned; greedy.Returned],
            Guarded false
              {| greedy.Epsilon := 0.5%float; greedy.Counts := [2; 0];
                 greedy.Rewards := [0.5%float; 0%float]; greedy.N := 2 |}) /\
  run (greedy.Update_step 0 1%float)
      [0; 1; 0; 1; 0; 0; 1; 1; 0; 0; 0; 1; 1; 1]%nat
      (g_spawn 2, Guarded false g_two_arms)
    = Some ([greedy.Returned; greedy.Returned],
            Guarded false
              {| greedy.Epsilon := 0.5%float; greedy.Counts := [1; 0];
                 greedy.Rewards := [1%float; 0%float]; greedy.N := 2 |}) /\
  g_feed 0 [1%float; 1%float] g_two_arms
    = Some {| greedy.Epsilon := 0.5%float; greedy.Counts := [2; 0];
              greedy.Rewards := [1%float; 0%float]; greedy.N := 2 |}.
Proof. repeat split; vm_compute; reflexivity. Qed.

(** *** [Update] of epsilon_greedy.go is atomic *)

Section atomic.
Context `{Float64 F} (i : Z) (r : F).
Implicit Types (t : epsilon_greedy.Update_at F)
  (g : guarded (epsilon_greedy.EpsilonGreedy F))
  (b : epsilon_greedy.EpsilonGreedy F).

(** A goroutine outside can only lock, and only a free mutex. *)
Lemma step_outside t g t' g' :
  epsilon_greedy.Update_step i r t g = Some (t', g') -> eg_outside t = true ->
  t = epsilon_greedy.AtLock /\ held g = false /\
  t' = epsilon_greedy.AtChecks /\ g' = Guarded true (shared g).
Proof.
  destruct t; cbn; try discriminate.
  unfold Lock. destruct (held g); cbn; [discriminate |].
  by intros [= <- <-] _.
Qed.

(** A goroutine inside stays inside and keeps the mutex, until it unlocks. *)
Lemma step_inside t g t' g' :
  epsilon_greedy.Update_step i r t g = Some (t', g') -> eg_outside t = false ->
  (eg_outside t' = false /\ eg_returned t' = false /\ held g' = held g) \/
  (exists e, t = epsilon_greedy.AtUnlock e /\
     t' = epsilon_greedy.Returned e /\ g' = Unlock g).
Proof.
  destruct t; cbn; try discriminate; intros Hs _;
    repeat match type of Hs with
           | context [decide ?P] => destruct (decide P)
           | context [flt ?x ?y] => destruct (flt x y)
           | context [index ?s ?k] => destruct (index s k)
           | context [store ?s ?k ?x] => destruct (store s k x)
           end;
    try (injection Hs as <- <-; by left).
  injection Hs as <- <-. right. eauto.
Qed.

Lemma eg_inside_app (l1 l2 : list (epsilon_greedy.Update_at F)) :
  eg_inside (l1 ++ l2) = eg_inside l1 ++ eg_inside l2.
Proof. apply List.filter_app. Qed.

Lemma eg_returned_count_app (l1 l2 : list (epsilon_greedy.Update_at F)) :
  eg_returned_count (l1 ++ l2) = (eg_returned_count l1 + eg_returned_count l2)%nat.
Proof. unfold eg_returned_count. by rewrite List.filter_app, length_app. Qed.

Lemma eg_returned_not_inside t : eg_returned t = true -> eg_outside t = true.
Proof. by destruct t. Qed.

(** One more call after [k] calls. *)
Lemma eg_calls_S (k : nat) b0 :
  eg_calls (S k) i r b0
  = (b ← eg_calls k i r b0; res ← epsilon_greedy.Update i r b; Some res.2).
Proof.
  revert b0. induction k as [| k IH]; intros b0.
  - cbn. by destruct (epsilon_greedy.Update i r b0).
  - change (eg_calls (S (S k)) i r b0)
      with (res ← epsilon_greedy.Update i r b0; eg_calls (S k) i r res.2).
    change (eg_calls (S k) i r b0)
      with (res ← epsilon_greedy.Update i r b0; eg_calls k i r res.2).
    destruct (epsilon_greedy.Update i r b0) as [res|]; [| done].
    cbn [mbind option_bind]. apply IH.
Qed.

(** Every action of every goroutine preserves [eg_atomic]. *)
Lemma eg_atomic_move b0 (j : nat) cfg cfg' :
  eg_atomic i r b0 cfg ->
  move (epsilon_greedy.Update_step i r) j cfg = Some cfg' ->
  eg_atomic i r b0 cfg'.
Proof.
  destruct cfg as [ts g]. unfold move. cbn [fst snd].
  intros (b & Hcalls & Hinv) Hmove.
  destruct (ts !! j) as [t|] eqn:Ht; [| discriminate]. cbn in Hmove.
  destruct (epsilon_greedy.Update_step i r t g) as [[t' g']|] eqn:Hstep;
    [| discriminate].
  cbn in Hmove. injection Hmove as <-.
  rewrite insert_take_drop by (by eapply lookup_lt_Some).
  rewrite <- (take_drop_middle ts j t Ht) in Hcalls, Hinv.
  set (pre := take j ts) in *. set (post := drop (S j) ts) in *.
  cbn [fst snd] in *.
  rewrite eg_returned_count_app in Hcalls.
  rewrite eg_inside_app in Hinv.
  unfold eg_atomic. cbn [fst snd].
  rewrite eg_returned_count_app, eg_inside_app.
  unfold eg_inside, eg_returned_count in *. cbn [List.filter length] in *.
  fold (eg_inside pre) in *. fold (eg_inside post) in *.
  fold (eg_returned_count pre) in *. fold (eg_returned_count post) in *.
  destruct (eg_outside t) eqn:Hout.
  - (* the goroutine locks *)
    destruct (step_outside _ _ _ _ Hstep Hout) as (-> & Hfree & -> & ->).
    rewrite Hfree in Hinv. destruct Hinv as [Hin Hb]. cbn in *.
    exists b. split; [done |].
    exists epsilon_greedy.AtChecks. split.
    + apply app_eq_nil in Hin as [-> ->]. done.
    + exists 7%nat. destruct g as [h sh]. cbn in Hb. subst sh. cbn [shared].
      pose proof (eg_alone_Update i r true b) as Halone.
      destruct (epsilon_greedy.Update i r b) as [[e b']|].
      * rewrite Halone. done.
      * destruct (eg_alone 7 i r epsilon_greedy.AtChecks (Guarded true b))
          as [tf gf]. cbn in Halone. by subst tf.
  - (* the goroutine is inside: the mutex is held, and by it *)
    cbn [negb] in Hinv.
    destruct (held g) eqn:Hheld.
    2: { destruct Hinv as [Hin _]. by destruct (eg_inside pre). }
    destruct Hinv as (t0 & Hin & fuel & Hdone).
    assert (eg_inside pre = [] /\ eg_inside post = [] /\ t0 = t)
      as (Hpre & Hpost & ->).
    { destruct (eg_inside pre) as [| x l]; cbn in Hin.
      - injection Hin as -> Hp. done.
      - injection Hin as -> Hl. by destruct l. }
    rewrite Hpre, Hpost in *. cbn [app].
    assert (eg_returned t = false) as Hnr.
    { destruct (eg_returned t) eqn:Hr; [| done].
      apply eg_returned_not_inside in Hr. congruence. }
    rewrite Hnr in Hcalls. cbn in Hcalls.
    destruct fuel as [| fuel].
    { cbn in Hdone. destruct t; try done. }
    cbn [eg_alone] in Hdone. rewrite Hstep in Hdone. cbn [fst snd] in Hdone.
    destruct (step_inside _ _ _ _ Hstep Hout)
      as [(Hout' & Hnr' & Hheld') | (e & -> & -> & ->)].
    + rewrite Hout', Hnr', Hheld', Hheld. cbn.
      exists b. split; [done |]. exists t'. split; [done |]. by exists fuel.
    + cbn [eg_outside eg_returned negb Unlock held app].
      assert (eg_alone fuel i r (epsilon_greedy.Returned e) (Unlock g)
              = (epsilon_greedy.Returned e, Unlock g)) as Hret
          by (by destruct fuel).
      rewrite Hret in Hdone. destruct Hdone as [_ Hupd]. cbn in Hupd.
      exists (shared g). split; [| done].
      replace (eg_returned_count pre + length (epsilon_greedy.Returned e
                 :: List.filter eg_returned post))%nat
        with (S (eg_returned_count pre + eg_returned_count post))
        by (unfold eg_returned_count; cbn; lia).
      rewrite eg_calls_S. rewrite Nat.add_0_r in Hcalls || idtac.
      unfold eg_returned_count in Hcalls |- *.
      rewrite Hcalls. cbn. rewrite Hupd. done.
Qed.

Lemma eg_atomic_run b0 (schedule : list nat) :
  forall cfg cfg',
    eg_atomic i r b0 cfg ->
    run (epsilon_greedy.Update_step i r) schedule cfg = Some cfg' ->
    eg_atomic i r b0 cfg'.
Proof.
  induction schedule as [| j schedule IH]; intros cfg cfg' Hinv Hrun.
  - cbn in Hrun. by injection Hrun as <-.
  - cbn in Hrun.
    destruct (move (epsilon_greedy.Update_step i r) j cfg) as [cfg1|] eqn:Hmove;
      [| done].
    cbn in Hrun. eapply IH; [| done]. by eapply eg_atomic_move.
Qed.

Lemma run_length {T S} (stp : T -> S -> option (T * S)) (schedule : list nat) :
  forall cfg cfg', run stp schedule cfg = Some cfg' -> length cfg'.1 = length cfg.1.
Proof.
  induction schedule as [| j schedule IH]; intros cfg cfg' Hrun.
  - cbn in Hrun. by injection Hrun as <-.
  - cbn in Hrun. destruct (move stp j cfg) as [cfg1|] eqn:Hmove; [| done].
    cbn in Hrun. rewrite (IH _ _ Hrun).
    unfold move in Hmove. destruct (cfg.1 !! j); [| done]. cbn in Hmove.
    destruct (stp _ _); [| done]. cbn in Hmove. injection Hmove as <-.
    cbn. apply length_insert.
Qed.

Lemma eg_spawn_atomic b0 (m : nat) : eg_atomic i r b0 (eg_spawn m, Guarded false b0).
Proof.
  exists b0. cbn [fst snd held shared].
  assert (eg_returned_count (@eg_spawn F m) = 0%nat /\ eg_inside (@eg_spawn F m) = [])
    as [-> ->]; [| done].
  unfold eg_spawn, eg_returned_count, eg_inside.
  induction m as [| m [IH1 IH2]]; [done |]. cbn. done.
Qed.

Lemma all_returned_count (ts : list (epsilon_greedy.Update_at F)) :
  Forall (fun t => eg_returned t = true) ts ->
  eg_returned_count ts = length ts /\ eg_inside ts = [].
Proof.
  unfold eg_returned_count, eg_inside.
  induction 1 as [| t ts Ht _ [IH1 IH2]]; [done |].
  cbn. rewrite Ht, (eg_returned_not_inside t Ht). cbn. by rewrite IH1, IH2.
Qed.

(** However [m] concurrent calls of [Update] of epsilon_greedy.go are
    interleaved, once all have returned the mutex is free and the state is
    the one that [m] calls made one after the other leave. *)
Lemma eg_Update_atomic b0 (m : nat) (schedule : list nat) ts g :
  run (epsilon_greedy.Update_step i r) schedule (eg_spawn m, Guarded false b0)
    = Some (ts, g) ->
  Forall (fun t => eg_returned t = true) ts ->
  held g = false /\ eg_calls m i r b0 = Some (shared g).
Proof.
  intros Hrun Hall.
  pose proof (run_length _ _ _ _ Hrun) as Hlen. cbn in Hlen.
  unfold eg_spawn in Hlen. rewrite length_replicate in Hlen.
  destruct (eg_atomic_run b0 schedule _ _ (eg_spawn_atomic b0 m) Hrun)
    as (b & Hcalls & Hinv).
  cbn [fst snd] in *.
  destruct (all_returned_count ts Hall) as [Hcount Hin].
  rewrite Hcount, Hlen in Hcalls. rewrite Hin in Hinv.
  destruct (held g).
  - by destruct Hinv as (t & ? & _).
  - destruct Hinv as [_ ->]. done.
Qed.
End atomic.

(** *** Some interleaving lets every call return *)

Section one_by_one.
Context `{Float64 F} (i : Z) (r : F).

(** A call that returns [nil] takes eight actions. *)
Lemma eg_steps_Update (b b' : epsilon_greedy.EpsilonGreedy F) :
  epsilon_greedy.Update i r b = Some (None, b') ->
  eg_steps 8 i r epsilon_greedy.AtLock (Guarded false b)
    = Some (epsilon_greedy.Returned None, Guarded false b').
Proof.
  intros Hu. pose proof Hu as Hu'.
  apply eg_Update_nil_inv in Hu as (c & v & Hi & Hr & Hc & Hv & He & Hsc & Hsr).
  pose proof (eg_Update_nil i r c v b Hr Hc Hv) as Hnil.
  rewrite Hnil in Hu'. injection Hu' as <-.
  cbn. rewrite decide_False by lia. rewrite Hr. cbn. rewrite Hc. cbn.
  apply index_Some in Hc as [Hic _].
  unfold store at 1. rewrite decide_True by done. cbn.
  rewrite index_insert_eq by done. cbn. rewrite Hv. cbn.
  unfold store. rewrite decide_True by done. done.
Qed.

(** The actions of the goroutine at place [length pre] change its own
    entry and the shared state only. *)
Lemma run_one (n : nat) :
  forall (pre post : list (epsilon_greedy.Update_at F)) t g,
    run (epsilon_greedy.Update_step i r) (replicate n (length pre)) (pre ++ t :: post, g)
    = (tg ← eg_steps n i r t g; Some (pre ++ tg.1 :: post, tg.2)).
Proof.
  induction n as [| n IH]; intros pre post t g; [done |].
  cbn [replicate run eg_steps]. unfold move. cbn [fst snd].
  rewrite list_lookup_middle by done. cbn [mbind option_bind].
  destruct (epsilon_greedy.Update_step i r t g) as [[t' g']|]; [| done].
  cbn [mbind option_bind fst snd].
  assert (<[length pre := t']> (pre ++ t :: post) = pre ++ t' :: post) as ->
      by (rewrite insert_app_r_alt by lia; by rewrite Nat.sub_diag).
  apply IH.
Qed.

Lemma run_app {T S} (stp : T -> S -> option (T * S)) (s1 s2 : list nat) cfg :
  run stp (s1 ++ s2) cfg = (cfg' ← run stp s1 cfg; run stp s2 cfg').
Proof.
  revert cfg. induction s1 as [| j s1 IH]; intros cfg; [done |].
  cbn. destruct (move stp j cfg); [| done]. cbn. apply IH.
Qed.

Lemma one_by_one_from (m : nat) :
  forall (k : nat) (b b' : epsilon_greedy.EpsilonGreedy F),
    eg_feed i (replicate m r) b = Some b' ->
    run (epsilon_greedy.Update_step i r) (flat_map (fun j => replicate 8 j) (seq k m))
        (replicate k (epsilon_greedy.Returned None) ++ eg_spawn m, Guarded false b)
    = Some (replicate (k + m) (epsilon_greedy.Returned None), Guarded false b').
Proof.
  induction m as [| m IH]; intros k b b' Hfeed.
  - cbn in *. injection Hfeed as <-. by rewrite app_nil_r, Nat.add_0_r.
  - cbn [replicate eg_feed] in Hfeed.
    destruct (epsilon_greedy.Update i r b) as [[[e|] b1]|] eqn:Hu; try done.
    cbn [seq flat_map]. rewrite run_app.
    change (@eg_spawn F (S m)) with (@epsilon_greedy.AtLock F :: eg_spawn m).
    replace (replicate 8 k)
      with (replicate 8 (length (replicate k (@epsilon_greedy.Returned F None))))
      by (by rewrite length_replicate).
    rewrite run_one, (eg_steps_Update _ _ Hu). cbn [mbind option_bind fst snd].
    replace (replicate k (epsilon_greedy.Returned None)
               ++ epsilon_greedy.Returned None :: eg_spawn m)
      with (replicate (S k) (@epsilon_greedy.Returned F None) ++ eg_spawn m).
    + rewrite (IH (S k) b1 b' Hfeed).
      by replace (k + S m)%nat with (S k + m)%nat by lia.
    + rewrite (replicate_S_end k), <- app_assoc. done.
Qed.

(** When [m] calls made one after the other all return [nil], the [m]
    goroutines can all return: one by one, for instance. *)
Lemma eg_one_by_one (m : nat) (b b' : epsilon_greedy.EpsilonGreedy F) :
  eg_feed i (replicate m r) b = Some b' ->
  run (epsilon_greedy.Update_step i r) (one_by_one m) (eg_spawn m, Guarded false b)
  = Some (replicate m (epsilon_greedy.Returned None), Guarded false b').
Proof. intros Hfeed. apply (one_by_one_from m 0 b b' Hfeed). Qed.

Lemma eg_feed_calls (m : nat) :
  forall b b' : epsilon_greedy.EpsilonGreedy F,
    eg_feed i (replicate m r) b = Some b' -> eg_calls m i r b = Some b'.
Proof.
  induction m as [| m IH]; intros b b' Hfeed; [done |].
  cbn [replicate eg_feed eg_calls] in *.
  destruct (epsilon_greedy.Update i r b) as [[[e|] b1]|]; try done.
  cbn. by apply IH.
Qed.
End one_by_one.

Lemma sum_ones (m : nat) :
  foldr Qcplus 0%Qc (replicate m 1%Qc) = Qc_of_Z (Z.of_nat m).
Proof.
  induction m as [| m IH]; [symmetry; apply Z2Qc_inj_0 |].
  cbn [replicate foldr]. rewrite IH, Nat2Z.inj_succ, <- Z.add_1_l.
  by rewrite Z2Qc_inj_add, Z2Qc_inj_1.
Qed.

Lemma average_ones (m : nat) : (1 <= m)%nat -> average (replicate m 1%Qc) = 1%Qc.
Proof.
  intros Hm. destruct m as [| m]; [lia |].
  unfold average. cbn [replicate].
  change (1%Qc :: replicate m 1%Qc) with (replicate (S m) 1%Qc).
  rewrite sum_ones. unfold len. rewrite length_replicate.
  apply Qcmult_inv_r, Qc_of_Z_pos_ne_0. lia.
Qed.

(** On epsilon_greedy.go no update is lost (exact arithmetic).  Let
    M >= 1 goroutines call [Update(i, 1.0)] on an arm with count 0 and mean
    0.0.  Some interleaving lets them all return; and in whatever way they
    are interleaved, once all have returned the count of the arm is M and
    its mean is 1.0. *)
Lemma eg_Update_no_lost_update (m : nat) (i : Z)
    (b0 : epsilon_greedy.EpsilonGreedy Qc) :
  (1 <= m)%nat -> Z.of_nat m < 2 ^ 63 ->
  index (epsilon_greedy.Counts b0) i = Some 0 ->
  index (epsilon_greedy.Rewards b0) i = Some 0%Qc ->
  (exists schedule ts g,
     run (epsilon_greedy.Update_step i 1%Qc) schedule (eg_spawn m, Guarded false b0)
       = Some (ts, g) /\
     Forall (fun t => eg_returned t = true) ts) /\
  (forall schedule ts g,
     run (epsilon_greedy.Update_step i 1%Qc) schedule (eg_spawn m, Guarded false b0)
       = Some (ts, g) ->
     Forall (fun t => eg_returned t = true) ts ->
     held g = false /\
     index (epsilon_greedy.Counts (shared g)) i = Some (Z.of_nat m) /\
     index (epsilon_greedy.Rewards (shared g)) i = Some 1%Qc).
Proof.
  intros Hm Hlt Hc Hr.
  destruct (eg_feed_running i (replicate m 1%Qc) b0 0 0%Qc)
    as (b' & Hfeed & Hc' & Hr');
    [lia | unfold len; rewrite length_replicate; lia | done | done
     | apply Forall_replicate; reflexivity |].
  unfold len in Hc'. rewrite length_replicate, Z.add_0_l in Hc'.
  rewrite running_mean_average, (average_ones m Hm) in Hr'.
  split.
  - eexists _, _, _. split; [by apply eg_one_by_one |].
    apply Forall_replicate. reflexivity.
  - intros schedule ts g Hrun Hall.
    destruct (eg_Update_atomic i 1%Qc b0 m schedule ts g Hrun Hall)
      as [Hfree Hcalls].
    rewrite (eg_feed_calls i 1%Qc m b0 b' Hfeed) in Hcalls.
    injection Hcalls as <-. done.
Qed.

(** * Further properties *)

(** ** Snapshot and restore *)

(** X1.  A state whose epsilon is neither below 0 nor above 1 is rebuilt by
    [NewEpsilonGreedy] from its epsilon and the copies that [GetCounts] and
    [GetRewards] return, when its counts and rewards have one length; when
    they have not, [NewEpsilonGreedy] fails with [ErrInvalidLength]. *)
Theorem snapshot_restore `{Float64 F} (b : epsilon_greedy.EpsilonGreedy F) :
  flt (epsilon_greedy.Epsilon b) fzero = false ->
  flt fone (epsilon_greedy.Epsilon b) = false ->
  exists counts rewards,
    epsilon_greedy.GetCounts b = Some (counts, b) /\
    epsilon_greedy.GetRewards b = Some (rewards, b) /\
    epsilon_greedy.NewEpsilonGreedy (epsilon_greedy.Epsilon b) counts rewards
      = if decide (len (epsilon_greedy.Counts b) = len (epsilon_greedy.Rewards b))
        then inr b else inl ErrInvalidLength.
Proof.
  intros H0 H1. destruct (accessors_copy b) as [Hc Hr].
  exists (epsilon_greedy.Counts b), (epsilon_greedy.Rewards b).
  split; [done |]. split; [done |].
  unfold epsilon_greedy.NewEpsilonGreedy. rewrite H0, H1. cbn.
  destruct (decide (len (epsilon_greedy.Counts b) = len (epsilon_greedy.Rewards b)))
    as [Heq | Hne].
  - rewrite decide_False by (by intros ?). by destruct b.
  - by rewrite decide_True.
Qed.

Lemma snapshot_restore_witness :
  exists counts rewards,
    epsilon_greedy.GetCounts eg_tied64 = Some (counts, eg_tied64) /\
    epsilon_greedy.GetRewards eg_tied64 = Some (rewards, eg_tied64) /\
    epsilon_greedy.NewEpsilonGreedy 0.125%float counts rewards = inr eg_tied64.
Proof.
  destruct (snapshot_restore eg_tied64) as (counts & rewards & Hc & Hr & Hnew);
    [vm_compute; reflexivity | vm_compute; reflexivity |].
  exists counts, rewards. split; [exact Hc |]. split; [exact Hr |].
  rewrite decide_True in Hnew by (vm_compute; reflexivity). exact Hnew.
Defined.

(** ** Updates of different arms *)

Lemma index_insert_ne {A} (s : list A) (i j : Z) (v : A) :
  0 <= i -> j <> i -> index (<[Z.to_nat i := v]> s) j = index s j.
Proof.
  intros Hi Hne. unfold index, len. rewrite length_insert.
  case_decide; [| done]. apply list_lookup_insert_ne. lia.
Qed.

Lemma eg_Update_nil_eq `{Float64 F} (i : Z) (r : F)
    (b b' : epsilon_greedy.EpsilonGreedy F) :
  epsilon_greedy.Update i r b = Some (None, b') ->
  exists c v,
    flt r fzero = false /\
    index (epsilon_greedy.Counts b) i = Some c /\
    index (epsilon_greedy.Rewards b) i = Some v /\
    b' = {| epsilon_greedy.Epsilon := epsilon_greedy.Epsilon b;
            epsilon_greedy.Counts :=
              <[Z.to_nat i := wrap64 (c + 1)]> (epsilon_greedy.Counts b);
            epsilon_greedy.Rewards :=
              <[Z.to_nat i := newMean v (wrap64 (c + 1)) r]>
                (epsilon_greedy.Rewards b) |}.
Proof.
  intros Hu. pose proof Hu as Hu'.
  apply eg_Update_nil_inv in Hu as (c & v & _ & Hr & Hc & Hv & _).
  rewrite (eg_Update_nil i r c v b Hr Hc Hv) in Hu'. injection Hu' as <-.
  by exists c, v.
Qed.

Lemma g_Update_eq `{Float64 F} (i : Z) (r : F) (b b' : greedy.EpsilonGreedy F) :
  greedy.Update i r b = Some b' ->
  exists c v,
    index (greedy.Counts b) i = Some c /\
    index (greedy.Rewards b) i = Some v /\
    b' = {| greedy.Epsilon := greedy.Epsilon b;
            greedy.Counts := <[Z.to_nat i := wrap64 (c + 1)]> (greedy.Counts b);
            greedy.Rewards :=
              <[Z.to_nat i := newMean v (wrap64 (c + 1)) r]> (greedy.Rewards b);
            greedy.N := greedy.N b |}.
Proof.
  intros Hu. pose proof Hu as Hu'.
  apply g_Update_inv in Hu as (c & v & Hc & Hv & _).
  rewrite (g_Update_returns i r c v b Hc Hv) in Hu'. injection Hu' as <-.
  by exists c, v.
Qed.

(** X2.  Two updates of different arms, both successful, can be made in
    either order: the other order succeeds too and leaves the same state.
    So it is on both files and for every arithmetic. *)
Theorem Update_arms_commute `{Float64 F} (i j : Z) (r1 r2 : F) :
  i <> j ->
  (forall b b1 b2 : epsilon_greedy.EpsilonGreedy F,
     epsilon_greedy.Update i r1 b = Some (None, b1) ->
     epsilon_greedy.Update j r2 b1 = Some (None, b2) ->
     exists b1', epsilon_greedy.Update j r2 b = Some (None, b1') /\
       epsilon_greedy.Update i r1 b1' = Some (None, b2)) /\
  (forall b b1 b2 : greedy.EpsilonGreedy F,
     greedy.Update i r1 b = Some b1 ->
     greedy.Update j r2 b1 = Some b2 ->
     exists b1', greedy.Update j r2 b = Some b1' /\
       greedy.Update i r1 b1' = Some b2).
Proof.
  intros Hij. split; intros b b1 b2 H1 H2.
  - apply eg_Update_nil_eq in H1 as (c1 & v1 & Hr1 & Hc1 & Hv1 & ->).
    apply eg_Update_nil_eq in H2 as (c2 & v2 & Hr2 & Hc2 & Hv2 & ->).
    cbn [epsilon_greedy.Counts epsilon_greedy.Rewards epsilon_greedy.Epsilon]
      in Hc2, Hv2 |- *.
    pose proof (proj1 (index_Some _ _ _) Hc1) as [Hi _].
    rewrite index_insert_ne in Hc2 by lia. rewrite index_insert_ne in Hv2 by lia.
    pose proof (proj1 (index_Some _ _ _) Hc2) as [Hj _].
    eexists. split; [by apply eg_Update_nil |].
    erewrite eg_Update_nil;
      [| done
       | cbn [epsilon_greedy.Counts]; by rewrite index_insert_ne by lia
       | cbn [epsilon_greedy.Rewards]; by rewrite index_insert_ne by lia].
    cbn [epsilon_greedy.Counts epsilon_greedy.Rewards epsilon_greedy.Epsilon].
    do 2 f_equal. f_equal; apply list_insert_insert_ne; lia.
  - apply g_Update_eq in H1 as (c1 & v1 & Hc1 & Hv1 & ->).
    apply g_Update_eq in H2 as (c2 & v2 & Hc2 & Hv2 & ->).
    cbn [greedy.Counts greedy.Rewards greedy.Epsilon greedy.N] in Hc2, Hv2 |- *.
    pose proof (proj1 (index_Some _ _ _) Hc1) as [Hi _].
    rewrite index_insert_ne in Hc2 by lia. rewrite index_insert_ne in Hv2 by lia.
    pose proof (proj1 (index_Some _ _ _) Hc2) as [Hj _].
    eexists. split; [by apply g_Update_returns |].
    erewrite g_Update_returns;
      [| cbn [greedy.Counts]; by rewrite index_insert_ne by lia
       | cbn [greedy.Rewards]; by rewrite index_insert_ne by lia].
    cbn [greedy.Counts greedy.Rewards greedy.Epsilon greedy.N]. f_equal. f_equal; apply list_insert_insert_ne; lia.
Qed.

Lemma Update_arms_commute_witness :
  exists b1', epsilon_greedy.Update 1 0.5%float eg_two_arms = Some (None, b1') /\
    epsilon_greedy.Update 0 1%float b1'
      = Some (None, {| epsilon_greedy.Epsilon := 0.5%float;
                       epsilon_greedy.Counts := [1; 1];
                       epsilon_greedy.Rewards := [1%float; 0.5%float] |}).
Proof.
  apply (proj1 (Update_arms_commute 0 1 1%float 0.5%float ltac:(lia)) eg_two_arms
           {| epsilon_greedy.Epsilon := 0.5%float;
              epsilon_greedy.Counts := [1; 0];
              epsilon_greedy.Rewards := [1%float; 0%float] |}).
  - vm_compute. reflexivity.
  - vm_compute. reflexivity.
Defined.

(** ** Updates of an arm that has statistics already *)






(** ** The mean stays among the rewards *)







(** ** The order of the rewards *)





(** ** A state without arms *)

(** X6.  [NewEpsilonGreedy] of either file builds a state without arms
    (from two empty slices, or for 0 arms).  On such a state [SelectArm]
    panics whenever the draw is not above epsilon, since [rand.Intn(0)]
    panics; [Update] of epsilon_greedy.go fails with
    [ErrArmsIndexOutOfRange] for every index and leaves the state as it
    was, and [Update] of greedy.go panics for every index. *)
Theorem no_arm_state `{Float64 F} (epsilon : F) :
  (flt epsilon fzero = false -> flt fone epsilon = false ->
   exists b, epsilon_greedy.NewEpsilonGreedy epsilon [] [] = inr b /\
     (forall p, flt epsilon p = false -> epsilon_greedy.SelectArm p b = None) /\
     (forall i r,
        epsilon_greedy.Update i r b = Some (Some ErrArmsIndexOutOfRange, b))) /\
  (exists b, greedy.NewEpsilonGreedy 0 epsilon = Some b /\
     (forall draw, flt epsilon draw = false -> greedy.SelectArm draw b = None) /\
     (forall i r, greedy.Update i r b = None)).
Proof.
  split.
  - intros H0 H1. eexists. split.
    { unfold epsilon_greedy.NewEpsilonGreedy. rewrite H0, H1. cbn. reflexivity. }
    split.
    + intros p Hp. unfold epsilon_greedy.SelectArm. cbn. by rewrite Hp.
    + intros i r. unfold epsilon_greedy.Update. cbn.
      rewrite decide_True by (unfold len; cbn; lia). done.
  - eexists. split; [reflexivity |]. split.
    + intros draw Hd. unfold greedy.SelectArm. cbn. by rewrite Hd.
    + intros i r. unfold greedy.Update. cbn [greedy.Counts].
      change (Z.to_nat 0) with 0%nat. cbn [replicate].
      rewrite (proj2 (index_None [] i)) by (unfold len; cbn; lia). done.
Qed.

Lemma no_arm_state_witness :
  exists b, epsilon_greedy.NewEpsilonGreedy 0.5%float [] [] = inr b /\
    (forall p, flt 0.5%float p = false -> epsilon_greedy.SelectArm p b = None) /\
    (forall i r,
       epsilon_greedy.Update i r b = Some (Some ErrArmsIndexOutOfRange, b)).
Proof.
  apply (proj1 (no_arm_state 0.5%float)); vm_compute; reflexivity.
Defined.

(** ** NaN *)

Lemma is_nan_eq (x : float) : is_nan x -> x = nan.
Proof.
  unfold is_nan. intros Hx. rewrite <- (SF2Prim_Prim2SF x), Hx. reflexivity.
Qed.

Lemma ltb_nan_l (x y : float) : is_nan x -> PrimFloat.ltb x y = false.
Proof.
  unfold is_nan. intros Hx. rewrite ltb_spec, Hx. reflexivity.
Qed.

Lemma ltb_nan_r (x y : float) : is_nan y -> PrimFloat.ltb x y = false.
Proof.
  unfold is_nan. intros Hy. rewrite ltb_spec, Hy.
  by destruct (Prim2SF x).
Qed.

(** A step from a mean that is NaN, or with a reward that is NaN, leaves
    NaN. *)
Lemma newMean_nan (m r : float) (n : Z) :
  is_nan m \/ is_nan r -> is_nan (newMean m n r).
Proof.
  unfold is_nan, newMean. cbn [fdiv fadd fmul fsub binary64].
  intros Hnan. rewrite div_spec, add_spec, mul_spec.
  destruct Hnan as [-> | ->].
  - reflexivity.
  - unfold SF64add, SFadd. by destruct (SF64mul _ _).
Qed.

(** X7.  In binary64 the check [reward < 0] of [Update] lets a reward that
    is NaN through; and an update of an arm whose mean is NaN, or with a
    reward that is NaN, leaves the mean of the arm NaN: once NaN, the mean
    of an arm stays NaN whatever rewards follow. *)
Theorem nan_reward_poisons (i c : Z) (m r : float) :
  (is_nan r -> @flt float binary64 r fzero = false) /\
  (is_nan m \/ is_nan r ->
   (forall b : epsilon_greedy.EpsilonGreedy float,
      @flt float binary64 r fzero = false ->
      index (epsilon_greedy.Counts b) i = Some c ->
      index (epsilon_greedy.Rewards b) i = Some m ->
      exists b' m', epsilon_greedy.Update i r b = Some (None, b') /\
        index (epsilon_greedy.Rewards b') i = Some m' /\ is_nan m') /\
   (forall b : greedy.EpsilonGreedy float,
      index (greedy.Counts b) i = Some c ->
      index (greedy.Rewards b) i = Some m ->
      exists b' m', greedy.Update i r b = Some b' /\
        index (greedy.Rewards b') i = Some m' /\ is_nan m')).
Proof.
  split; [apply ltb_nan_l |].
  intros Hnan. split.
  - intros b Hr Hc Hm. eexists _, _.
    split; [by apply eg_Update_nil |]. split; [| by apply newMean_nan].
    apply index_Some in Hm as [Hi _]. by apply index_insert_eq.
  - intros b Hc Hm. eexists _, _.
    split; [by apply g_Update_returns |]. split; [| by apply newMean_nan].
    apply index_Some in Hm as [Hi _]. by apply index_insert_eq.
Qed.

Lemma nan_reward_poisons_witness :
  exists b' m', epsilon_greedy.Update 0 nan eg_tied64 = Some (None, b') /\
    index (epsilon_greedy.Rewards b') 0 = Some m' /\ is_nan m'.
Proof.
  destruct (nan_reward_poisons 0 2 0.5%float nan) as [Hlt Hup].
  apply (proj1 (Hup (or_intror eq_refl)) eg_tied64).
  - apply Hlt. reflexivity.
  - vm_compute. reflexivity.
  - vm_compute. reflexivity.
Defined.

(** X8.  In binary64 the check [epsilon < 0 || epsilon > 1] of
    [NewEpsilonGreedy] lets an epsilon that is NaN through, and so does the
    unchecked [NewEpsilonGreedy] of greedy.go (asked for 1 to 2^45 arms,
    the most that [make] allocates); on the state built, with one arm or
    more, [SelectArm] never exploits: whatever the draw, it returns an
    index drawn uniformly. *)
Theorem nan_epsilon_explores (epsilon : float) :
  is_nan epsilon ->
  (forall (counts : list Z) (rewards : list float),
     len counts = len rewards -> 1 <= len rewards ->
     exists b, epsilon_greedy.NewEpsilonGreedy epsilon counts rewards = inr b /\
       forall p, exists d,
         epsilon_greedy.SelectArm p b = Some (d, b) /\ uniform_on (len rewards) d) /\
  (forall n : Z,
     1 <= n <= max_len ->
     exists b, greedy.NewEpsilonGreedy n epsilon = Some b /\
       forall draw, exists d,
         greedy.SelectArm draw b = Some (d, b) /\ uniform_on n d).
Proof.
  intros Hnan. split.
  - intros counts rewards Hlen Hn. eexists. split.
    + unfold epsilon_greedy.NewEpsilonGreedy.
      change (@flt float binary64) with PrimFloat.ltb.
      rewrite (ltb_nan_l _ _ Hnan), (ltb_nan_r _ _ Hnan). cbn [orb].
      rewrite decide_False by (by intros ?). reflexivity.
    + intros p. unfold epsilon_greedy.SelectArm.
      cbn [epsilon_greedy.Epsilon epsilon_greedy.Rewards].
      change (@flt float binary64) with PrimFloat.ltb.
      rewrite (ltb_nan_l _ _ Hnan).
      destruct (rand_Intn_uniform _ Hn) as (d & -> & Hu). cbn. eauto.
  - intros n [Hn Hmax]. unfold greedy.NewEpsilonGreedy, make.
    rewrite !decide_False by lia. cbn [mbind option_bind].
    eexists. split; [reflexivity |].
    intros draw. unfold greedy.SelectArm.
    cbn [greedy.Epsilon greedy.Rewards].
    change (@flt float binary64) with PrimFloat.ltb.
    rewrite (ltb_nan_l _ _ Hnan).
    assert (len (replicate (Z.to_nat n) (@fzero float binary64)) = n) as ->
        by (unfold len; rewrite length_replicate; lia).
    destruct (rand_Intn_uniform _ Hn) as (d & -> & Hu). cbn. eauto.
Qed.

Lemma nan_epsilon_explores_witness :
  exists b, greedy.NewEpsilonGreedy 2 nan = Some b /\
    forall draw, exists d, greedy.SelectArm draw b = Some (d, b) /\ uniform_on 2 d.
Proof.
  apply (proj2 (nan_epsilon_explores nan eq_refl) 2). unfold max_len. lia.
Defined.

(** ** Counts that no update produced *)

(** A float divided by zero is no finite number. *)
Lemma div_zero_not_finite (x : float) :
  float_value (PrimFloat.div x (float_of_int 0)) = None.
Proof.
  unfold float_value. rewrite div_spec.
  replace (Prim2SF (float_of_int 0)) with (S754_zero false)
    by (vm_compute; reflexivity).
  by destruct (Prim2SF x) as [s | s | | s mx ex].
Qed.

(** X9.  The counts given to [NewEpsilonGreedy] and [SetCounts] are not
    checked.  In binary64, an update of an arm whose count is -1 succeeds,
    leaves the count 0 and divides by the count: the mean it leaves is no
    finite number (an infinity or NaN), whatever the mean and the reward
    were. *)
Theorem count_minus_one_divides_by_zero (i : Z) (m r : float) :
  (forall b : epsilon_greedy.EpsilonGreedy float,
     @flt float binary64 r fzero = false ->
     index (epsilon_greedy.Counts b) i = Some (-1) ->
     index (epsilon_greedy.Rewards b) i = Some m ->
     exists b' m', epsilon_greedy.Update i r b = Some (None, b') /\
       index (epsilon_greedy.Counts b') i = Some 0 /\
       index (epsilon_greedy.Rewards b') i = Some m' /\ float_value m' = None) /\
  (forall b : greedy.EpsilonGreedy float,
     index (greedy.Counts b) i = Some (-1) ->
     index (greedy.Rewards b) i = Some m ->
     exists b' m', greedy.Update i r b = Some b' /\
       index (greedy.Counts b') i = Some 0 /\
       index (greedy.Rewards b') i = Some m' /\ float_value m' = None).
Proof.
  split.
  - intros b Hr Hc Hm. eexists _, _.
    split; [by apply eg_Update_nil |].
    pose proof (proj1 (index_Some _ _ _) Hc) as [Hic _].
    pose proof (proj1 (index_Some _ _ _) Hm) as [Him _].
    cbn [epsilon_greedy.Counts epsilon_greedy.Rewards].
    split; [by apply index_insert_eq |]. split; [by apply index_insert_eq |].
    apply div_zero_not_finite.
  - intros b Hc Hm. eexists _, _.
    split; [by apply g_Update_returns |].
    pose proof (proj1 (index_Some _ _ _) Hc) as [Hic _].
    pose proof (proj1 (index_Some _ _ _) Hm) as [Him _].
    cbn [greedy.Counts greedy.Rewards].
    split; [by apply index_insert_eq |]. split; [by apply index_insert_eq |].
    apply div_zero_not_finite.
Qed.

Lemma count_minus_one_divides_by_zero_witness :
  exists b' m',
    greedy.Update 0 1%float (greedy.SetCounts [-1; 0] g_two_arms) = Some b' /\
    index (greedy.Counts b') 0 = Some 0 /\
    index (greedy.Rewards b') 0 = Some m' /\ float_value m' = None.
Proof.
  apply (proj2 (count_minus_one_divides_by_zero 0 0%float 1%float)
           (greedy.SetCounts [-1; 0] g_two_arms)).
  - vm_compute. reflexivity.
  - vm_compute. reflexivity.
Defined.

(** ** A panic of [Update] of greedy.go *)

(** X10.  [Update] of greedy.go increments the count before it reads the
    mean.  When the index is within the counts and outside the rewards (as
    after [SetRewards] with a shorter sequence) the call panics, and the
    state it leaves behind has the count of the arm incremented and
    nothing else changed. *)
Theorem greedy_Update_panics_half_way `{Float64 F} (i c : Z) (r : F)
    (b : greedy.EpsilonGreedy F) :
  index (greedy.Counts b) i = Some c ->
  index (greedy.Rewards b) i = None ->
  greedy.Update i r b = None /\
  g_alone 7 i r greedy.AtIncrRead (Guarded false b)
    = (greedy.Panicked,
       Guarded false
         (greedy.with_counts (<[Z.to_nat i := wrap64 (c + 1)]> (greedy.Counts b)) b)).
Proof.
  intros Hc Hr.
  pose proof (proj1 (index_Some _ _ _) Hc) as [Hic _].
  destruct (store_in_range (greedy.Counts b) i (wrap64 (c + 1)) Hic) as [counts Hst].
  pose proof (index_store_eq _ _ _ _ Hst) as Hc'.
  pose proof (proj1 (store_Some _ _ _ _) Hst) as [_ Heq].
  split.
  - unfold greedy.Update. rewrite Hc. cbn [mbind option_bind].
    rewrite Hst. cbn [mbind option_bind].
    rewrite Hc'. cbn [mbind option_bind]. by rewrite Hr.
  - cbn [g_alone greedy.Update_step shared held fst snd]. rewrite Hc.
    cbn [g_alone greedy.Update_step shared held fst snd]. rewrite Hst.
    cbn [g_alone greedy.Update_step shared held fst snd greedy.with_counts
         greedy.Counts greedy.Rewards].
    rewrite Hc'.
    cbn [g_alone greedy.Update_step shared held fst snd greedy.with_counts
         greedy.Counts greedy.Rewards].
    rewrite Hr. by rewrite Heq.
Qed.

Lemma greedy_Update_panics_half_way_witness :
  greedy.Update 1 1%float (greedy.SetRewards [0%float] g_two_arms) = None /\
  g_alone 7 1 1%float greedy.AtIncrRead
      (Guarded false (greedy.SetRewards [0%float] g_two_arms))
    = (greedy.Panicked,
       Guarded false
         (greedy.with_counts [0; 1] (greedy.SetRewards [0%float] g_two_arms))).
Proof.
  apply (greedy_Update_panics_half_way 1 0 1%float
           (greedy.SetRewards [0%float] g_two_arms));
    vm_compute; reflexivity.
Defined.

(** ** Concurrent calls of [Update] and [Init] of epsilon_greedy.go *)

Section writers.
Context `{Float64 F}.
Implicit Types (t : eg_writer F) (g : guarded (epsilon_greedy.EpsilonGreedy F))
  (b : epsilon_greedy.EpsilonGreedy F) (c : eg_call F)
  (h : list (eg_call F * option error)).

Lemma eg_writer_alone_Update (fuel : nat) (i : Z) (r : F) :
  forall (a : epsilon_greedy.Update_at F) g,
    eg_writer_alone fuel (InUpdate i r a) g
    = (InUpdate i r (eg_alone fuel i r a g).1, (eg_alone fuel i r a g).2).
Proof.
  induction fuel as [| fuel IH]; intros a g; [done |].
  cbn [eg_writer_alone eg_alone eg_writer_step].
  destruct (epsilon_greedy.Update_step i r a g) as [[a' g']|]; [| done].
  cbn [mbind option_bind fst snd]. apply IH.
Qed.

(** After [b.Lock()] a goroutine left alone does what its call does. *)
Lemma eg_writer_locked_completes c b :
  exists t,
    eg_writer_step (eg_start c) (Guarded false b) = Some (t, Guarded true b) /\
    eg_writer_completes t (Guarded true b) b /\
    eg_call_of t = c /\ eg_writer_outside t = false /\ eg_result t = None.
Proof.
  destruct c as [i r | n].
  - exists (InUpdate i r epsilon_greedy.AtChecks).
    split; [done |]. split; [| done].
    exists 7%nat. rewrite eg_writer_alone_Update. cbn [fst snd eg_call_of eg_do].
    pose proof (eg_alone_Update i r true b) as Halone.
    destruct (epsilon_greedy.Update i r b) as [[e b']|].
    + rewrite Halone. done.
    + destruct (eg_alone 7 i r epsilon_greedy.AtChecks (Guarded true b)) as [a g'].
      cbn in Halone. by subst a.
  - exists (InInit n InitAtCheck).
    split; [done |]. split; [| done].
    exists 4%nat.
    cbn [eg_writer_alone eg_writer_step Init_step eg_call_of eg_do
         mbind option_bind fst snd shared held].
    unfold epsilon_greedy.Init.
    destruct (decide (n < 1)) as [Hn | Hn].
    { cbn. done. }
    destruct (decide (max_len < n)) as [Hbig | Hsmall].
    { assert (forall A (z : A), make z n = None) as Hm
          by (intros; unfold make; by rewrite decide_True by lia).
      rewrite !Hm. do 3 (cbn; rewrite ?Hm). done. }
    assert (forall A (z : A), make z n = Some (replicate (Z.to_nat n) z)) as Hm
        by (intros; unfold make; by rewrite decide_False by lia).
    rewrite !Hm. do 3 (cbn; rewrite ?Hm). done.
Qed.

(** A goroutine outside can only lock, and only a free mutex. *)
Lemma eg_writer_step_outside t g t' g' :
  eg_writer_step t g = Some (t', g') -> eg_writer_outside t = true ->
  held g = false /\ g' = Guarded true (shared g) /\ eg_result t = None /\
  eg_writer_step (eg_start (eg_call_of t)) (Guarded false (shared g))
    = Some (t', Guarded true (shared g)).
Proof.
  destruct t as [i r a | n a]; cbn [eg_writer_step eg_writer_outside].
  - destruct (epsilon_greedy.Update_step i r a g) as [[a' g'']|] eqn:Hs; [| done].
    cbn. intros [= <- <-] Hout.
    destruct (step_outside i r a g a' g'' Hs Hout) as (-> & Hfree & -> & ->).
    done.
  - destruct a; cbn; try discriminate.
    unfold Lock. destruct g as [[] b]; cbn; [discriminate |].
    by intros [= <- <-] _.
Qed.

(** A goroutine inside stays inside and keeps the mutex, until it unlocks
    and returns. *)
Lemma eg_writer_step_inside t g t' g' :
  eg_writer_step t g = Some (t', g') -> eg_writer_outside t = false ->
  eg_call_of t' = eg_call_of t /\ eg_result t = None /\
  ((eg_writer_outside t' = false /\ eg_result t' = None /\ held g' = held g) \/
   (exists e, eg_result t' = Some e /\ eg_writer_outside t' = true /\
      g' = Unlock g)).
Proof.
  destruct t as [i r a | n a]; cbn [eg_writer_step eg_writer_outside].
  - destruct (epsilon_greedy.Update_step i r a g) as [[a' g'']|] eqn:Hs; [| done].
    cbn [mbind option_bind fst snd]. intros [= <- <-] Hout.
    split; [done |]. split; [by destruct a |].
    destruct (step_inside i r a g a' g'' Hs Hout)
      as [(Hout' & Hnr & Hheld) | (e & -> & -> & ->)].
    + left. split; [done |]. split; [by destruct a' | done].
    + right. by exists e.
  - destruct a; cbn; try discriminate; intros Hs _;
      repeat match type of Hs with
             | context [decide ?P] => destruct (decide P)
             | context [make ?z ?k] => destruct (make z k)
             end;
      cbn in Hs; injection Hs as <- <-;
      (split; [done |]); (split; [done |]);
      try (left; done).
    right. eauto.
Qed.

Lemma eg_returned_calls_app (l1 l2 : list (eg_writer F)) :
  eg_returned_calls (l1 ++ l2) = eg_returned_calls l1 ++ eg_returned_calls l2.
Proof. apply omap_app. Qed.

Lemma eg_writers_inside_app (l1 l2 : list (eg_writer F)) :
  eg_writers_inside (l1 ++ l2) = eg_writers_inside l1 ++ eg_writers_inside l2.
Proof. apply List.filter_app. Qed.

(** One more call after the calls of [h]. *)
Lemma eg_replay_snoc h c (e : option error) b0 :
  eg_replay (h ++ [(c, e)]) b0
  = (b ← eg_replay h b0; res ← eg_do c b;
     if decide (res.1 = e) then Some res.2 else None).
Proof.
  revert b0. induction h as [| [c1 e1] h IH]; intros b0.
  - cbn. destruct (eg_do c b0) as [res|]; [| done]. cbn. by case_decide.
  - cbn [app eg_replay fst snd].
    destruct (eg_do c1 b0) as [res|]; [| done]. cbn [mbind option_bind].
    case_decide; [apply IH | done].
Qed.

(** Every action of every goroutine preserves [eg_serial]. *)
Lemma eg_serial_move b0 (j : nat) cfg cfg' :
  eg_serial b0 cfg -> move eg_writer_step j cfg = Some cfg' -> eg_serial b0 cfg'.
Proof.
  destruct cfg as [ts g]. unfold move. cbn [fst snd].
  intros (h & b & Hperm & Hreplay & Hinv) Hmove.
  destruct (ts !! j) as [t|] eqn:Ht; [| discriminate]. cbn in Hmove.
  destruct (eg_writer_step t g) as [[t' g']|] eqn:Hstep; [| discriminate].
  cbn in Hmove. injection Hmove as <-.
  rewrite insert_take_drop by (by eapply lookup_lt_Some).
  rewrite <- (take_drop_middle ts j t Ht) in Hperm, Hinv.
  set (pre := take j ts) in *. set (post := drop (S j) ts) in *.
  cbn [fst snd] in *.
  rewrite eg_returned_calls_app in Hperm. rewrite eg_writers_inside_app in Hinv.
  unfold eg_serial. cbn [fst snd].
  rewrite eg_returned_calls_app, eg_writers_inside_app.
  unfold eg_returned_calls, eg_writers_inside in *.
  cbn [omap list_omap List.filter] in *.
  fold (eg_returned_calls pre) in *. fold (eg_returned_calls post) in *.
  fold (eg_writers_inside pre) in *. fold (eg_writers_inside post) in *.
  destruct (eg_writer_outside t) eqn:Hout.
  - (* the goroutine locks *)
    destruct (eg_writer_step_outside _ _ _ _ Hstep Hout)
      as (Hfree & -> & Hnr & Hstart).
    rewrite Hfree in Hinv. destruct Hinv as [Hin Hb]. cbn [negb app] in Hin.
    destruct (eg_writer_locked_completes (eg_call_of t) (shared g))
      as (t1 & Hstart' & Hdone & Hcall & Hout1 & Hnr1).
    rewrite Hstart in Hstart'. injection Hstart' as <-.
    rewrite Hnr in Hperm. rewrite Hnr1, Hout1. cbn [mbind option_bind negb held].
    exists h, b. split; [done |]. split; [done |].
    exists t'. split.
    + apply app_eq_nil in Hin as [-> ->]. done.
    + by rewrite <- Hb.
  - (* the goroutine is inside: the mutex is held, and by it *)
    cbn [negb] in Hinv.
    destruct (held g) eqn:Hheld.
    2: { destruct Hinv as [Hin _]. by destruct (eg_writers_inside pre). }
    destruct Hinv as (t0 & Hin & fuel & Hdone).
    assert (eg_writers_inside pre = [] /\ eg_writers_inside post = [] /\ t0 = t)
      as (Hpre & Hpost & ->).
    { destruct (eg_writers_inside pre) as [| x l]; cbn in Hin.
      - injection Hin as -> Hp. done.
      - injection Hin as -> Hl. by destruct l. }
    rewrite Hpre, Hpost. cbn [app].
    destruct (eg_writer_step_inside _ _ _ _ Hstep Hout) as (Hcall & Hnr & Hcases).
    rewrite Hnr in Hperm. cbn [mbind option_bind] in Hperm.
    destruct fuel as [| fuel].
    { cbn in Hdone. rewrite Hnr in Hdone.
      destruct t as [i r [] | n []]; cbn in Hdone, Hstep; done. }
    cbn [eg_writer_alone] in Hdone. rewrite Hstep in Hdone. cbn [fst snd] in Hdone.
    destruct Hcases as [(Hout' & Hnr' & Hheld') | (e & Hres & Hout' & ->)].
    + rewrite Hout', Hnr', Hheld', Hheld. cbn [mbind option_bind negb].
      exists h, b. split; [done |]. split; [done |].
      exists t'. split; [done |]. exists fuel. by rewrite Hcall.
    + rewrite Hout', Hres. cbn [mbind option_bind negb Unlock held].
      assert (eg_writer_alone fuel t' (Unlock g) = (t', Unlock g)) as Hret.
      { destruct fuel; [done |]. cbn.
        destruct t' as [i r [] | n []]; cbn in Hres |- *; done. }
      rewrite Hret in Hdone. cbn [fst snd] in Hdone. rewrite Hres in Hdone.
      destruct Hdone as [_ Hdo]. cbn [Unlock shared] in Hdo.
      exists (h ++ [(eg_call_of t, e)]), (shared g).
      split; [| split; [| done]].
      * rewrite Hcall, Hperm. rewrite <- app_assoc.
        apply Permutation_app_head. cbn. symmetry. apply Permutation_cons_append.
      * rewrite eg_replay_snoc, Hreplay. cbn [mbind option_bind].
        rewrite Hdo. cbn [mbind option_bind fst snd]. by rewrite decide_True.
Qed.

Lemma eg_serial_run b0 (schedule : list nat) :
  forall cfg cfg',
    eg_serial b0 cfg -> run eg_writer_step schedule cfg = Some cfg' ->
    eg_serial b0 cfg'.
Proof.
  induction schedule as [| j schedule IH]; intros cfg cfg' Hinv Hrun.
  - cbn in Hrun. by injection Hrun as <-.
  - cbn in Hrun.
    destruct (move eg_writer_step j cfg) as [cfg1|] eqn:Hmove; [| done].
    cbn in Hrun. eapply IH; [| done]. by eapply eg_serial_move.
Qed.

(** No action changes the call that a goroutine makes. *)
Lemma eg_calls_run (schedule : list nat) :
  forall cfg cfg' : list (eg_writer F) * guarded (epsilon_greedy.EpsilonGreedy F),
    run eg_writer_step schedule cfg = Some cfg' ->
    eg_call_of <$> cfg'.1 = eg_call_of <$> cfg.1.
Proof.
  induction schedule as [| j schedule IH]; intros cfg cfg' Hrun.
  - cbn in Hrun. by injection Hrun as <-.
  - cbn in Hrun.
    destruct (move eg_writer_step j cfg) as [cfg1|] eqn:Hmove; [| done].
    cbn in Hrun. rewrite (IH _ _ Hrun).
    unfold move in Hmove. destruct (cfg.1 !! j) as [t|] eqn:Ht; [| done].
    cbn in Hmove.
    destruct (eg_writer_step t cfg.2) as [[t' g']|] eqn:Hstep; [| done].
    cbn in Hmove. injection Hmove as <-. cbn [fst].
    rewrite list_fmap_insert.
    assert (eg_call_of t' = eg_call_of t) as ->.
    { destruct (eg_writer_outside t) eqn:Hout.
      - destruct (eg_writer_step_outside _ _ _ _ Hstep Hout) as (_ & _ & _ & Hs).
        destruct (eg_writer_locked_completes (eg_call_of t) (shared cfg.2))
          as (t1 & Hs1 & _ & Hc & _).
        rewrite Hs in Hs1. by injection Hs1 as ->.
      - by destruct (eg_writer_step_inside _ _ _ _ Hstep Hout) as (-> & _). }
    apply list_insert_id. by rewrite list_lookup_fmap, Ht.
Qed.

Lemma eg_start_serial b0 (calls : list (eg_call F)) :
  eg_serial b0 (eg_start <$> calls, Guarded false b0).
Proof.
  exists [], b0. cbn [fst snd held shared eg_replay].
  assert (eg_returned_calls (eg_start <$> calls) = []
          /\ eg_writers_inside (eg_start <$> calls) = []) as [-> ->]; [| done].
  unfold eg_returned_calls, eg_writers_inside.
  induction calls as [| c calls [IH1 IH2]]; [done |].
  split; destruct c; cbn; done.
Qed.

Lemma all_returned_calls (ts : list (eg_writer F)) :
  Forall (fun t => is_Some (eg_result t)) ts ->
  (eg_returned_calls ts).*1 = eg_call_of <$> ts /\ eg_writers_inside ts = [].
Proof.
  unfold eg_returned_calls, eg_writers_inside.
  induction 1 as [| t ts [e Ht] _ [IH1 IH2]]; [done |].
  cbn. rewrite Ht. cbn. rewrite IH1.
  assert (eg_writer_outside t = true) as ->
      by (destruct t as [i r [] | n []]; cbn in Ht |- *; done).
  done.
Qed.
End writers.

Section writers_results.
Context `{Float64 F}.

Lemma eg_call_of_start (calls : list (eg_call F)) :
  eg_call_of <$> (eg_start <$> calls) = calls.
Proof.
  induction calls as [| c calls IH]; [done |].
  cbn. rewrite IH. by destruct c.
Qed.

(** Alone after [b.Lock()], a goroutine whose call returns does return. *)
Lemma eg_writer_locked_returns (c : eg_call F) (e : option error)
    (b b' : epsilon_greedy.EpsilonGreedy F) :
  eg_do c b = Some (e, b') ->
  exists t t',
    eg_writer_step (eg_start c) (Guarded false b) = Some (t, Guarded true b) /\
    eg_writer_alone 7 t (Guarded true b) = (t', Guarded false b') /\
    eg_result t' = Some e /\ eg_call_of t' = c.
Proof.
  destruct c as [i r | n]; cbn [eg_do]; intros Hdo.
  - exists (InUpdate i r epsilon_greedy.AtChecks), (InUpdate i r (epsilon_greedy.Returned e)).
    split; [done |]. rewrite eg_writer_alone_Update.
    pose proof (eg_alone_Update i r true b) as Halone.
    rewrite Hdo in Halone. by rewrite Halone.
  - exists (InInit n InitAtCheck), (InInit n (InitReturned e)).
    split; [done |]. split; [| done].
    unfold epsilon_greedy.Init in Hdo.
    cbn [eg_writer_alone eg_writer_step Init_step mbind option_bind fst snd shared held].
    destruct (decide (n < 1)) as [Hn | Hn].
    { injection Hdo as <- <-. cbn. done. }
    destruct (decide (max_len < n)) as [Hbig | Hsmall].
    { unfold make in Hdo. rewrite !decide_True in Hdo by lia. discriminate. }
    assert (forall A (z : A), make z n = Some (replicate (Z.to_nat n) z)) as Hm
        by (intros; unfold make; by rewrite decide_False by lia).
    rewrite !Hm in Hdo. cbn in Hdo. injection Hdo as <- <-.
    do 4 (cbn; rewrite ?Hm). done.
Qed.

(** The actions that a goroutine makes alone are a run in which only it is
    scheduled. *)
Lemma eg_writer_alone_run (fuel : nat) :
  forall (pre post : list (eg_writer F)) t g,
    exists k : nat,
      run eg_writer_step (replicate k (length pre)) (pre ++ t :: post, g)
      = Some (pre ++ (eg_writer_alone fuel t g).1 :: post,
              (eg_writer_alone fuel t g).2).
Proof.
  induction fuel as [| fuel IH]; intros pre post t g.
  - by exists 0%nat.
  - cbn [eg_writer_alone].
    destruct (eg_writer_step t g) as [[t1 g1]|] eqn:Hstep.
    + destruct (IH pre post t1 g1) as [k Hk]. exists (S k).
      cbn [replicate run]. unfold move. cbn [fst snd].
      rewrite list_lookup_middle by done. cbn [mbind option_bind].
      rewrite Hstep. cbn [mbind option_bind fst snd].
      assert (<[length pre := t1]> (pre ++ t :: post) = pre ++ t1 :: post) as ->
          by (rewrite insert_app_r_alt by lia; by rewrite Nat.sub_diag).
      done.
    + by exists 0%nat.
Qed.

(** A goroutine that finds the mutex free can make its whole call before
    any other goroutine moves. *)
Lemma eg_writer_turn (c : eg_call F) (e : option error)
    (b b' : epsilon_greedy.EpsilonGreedy F) (pre post : list (eg_writer F)) :
  eg_do c b = Some (e, b') ->
  exists (k : nat) t',
    run eg_writer_step (replicate k (length pre))
        (pre ++ eg_start c :: post, Guarded false b)
    = Some (pre ++ t' :: post, Guarded false b') /\
    eg_result t' = Some e /\ eg_call_of t' = c.
Proof.
  intros Hdo.
  destruct (eg_writer_locked_returns c e b b' Hdo) as (t & t' & Hlock & Halone & Hres & Hcall).
  destruct (eg_writer_alone_run 7 pre post t (Guarded true b)) as [k Hk].
  rewrite Halone in Hk. cbn [fst snd] in Hk.
  exists (S k), t'. split; [| done].
  cbn [replicate run]. unfold move. cbn [fst snd].
  rewrite list_lookup_middle by done. cbn [mbind option_bind].
  rewrite Hlock. cbn [mbind option_bind fst snd].
  assert (<[length pre := t]> (pre ++ eg_start c :: post) = pre ++ t :: post) as ->
      by (rewrite insert_app_r_alt by lia; by rewrite Nat.sub_diag).
  done.
Qed.

Lemma eg_pending_app (l1 l2 : list (eg_writer F)) :
  eg_pending (l1 ++ l2) = eg_pending l1 ++ eg_pending l2.
Proof. apply omap_app. Qed.

Lemma eg_pending_nil (ts : list (eg_writer F)) :
  eg_pending ts = [] -> Forall (fun t => is_Some (eg_result t)) ts.
Proof.
  unfold eg_pending. induction ts as [| t ts IH]; [done |].
  cbn. destruct (eg_result t) as [e|] eqn:Hres; [| done].
  intros Hnil. constructor; [by rewrite Hres | by apply IH].
Qed.

Lemma eg_pending_split (c : eg_call F) (ts : list (eg_writer F)) :
  c ∈ eg_pending ts ->
  exists pre t post,
    ts = pre ++ t :: post /\ eg_result t = None /\ eg_call_of t = c.
Proof.
  unfold eg_pending. intros Hin.
  apply list_elem_of_omap in Hin as (t & Ht & Hc).
  apply list_elem_of_split in Ht as (pre & post & ->).
  exists pre, t, post. destruct (eg_result t); [done |].
  by injection Hc as <-.
Qed.

(** Goroutines that have not started can make their calls in any order. *)
Lemma eg_replay_turns (h : list (eg_call F * option error)) :
  forall (ts : list (eg_writer F)) (b0 b : epsilon_greedy.EpsilonGreedy F),
    Forall (fun t => is_Some (eg_result t) \/ t = eg_start (eg_call_of t)) ts ->
    eg_pending ts ≡ₚ h.*1 ->
    eg_replay h b0 = Some b ->
    exists (schedule : list nat) (ts' : list (eg_writer F)),
      run eg_writer_step schedule (ts, Guarded false b0)
      = Some (ts', Guarded false b) /\
      Forall (fun t => is_Some (eg_result t)) ts' /\
      eg_returned_calls ts' ≡ₚ eg_returned_calls ts ++ h.
Proof.
  induction h as [| [c e] h IH]; intros ts b0 b Hts Hpend Hreplay.
  - cbn in Hreplay. injection Hreplay as <-.
    apply Permutation_nil_r in Hpend.
    exists [], ts. split; [done |]. split; [by apply eg_pending_nil |].
    by rewrite app_nil_r.
  - cbn [eg_replay fst snd] in Hreplay.
    destruct (eg_do c b0) as [[e' b1]|] eqn:Hdo; [| done].
    cbn [mbind option_bind fst snd] in Hreplay.
    destruct (decide (e' = e)) as [-> | ?]; [| done].
    assert (c ∈ eg_pending ts) as Hin by (rewrite Hpend; cbn; left).
    destruct (eg_pending_split c ts Hin) as (pre & t & post & -> & Hnone & Hcall).
    apply Forall_app in Hts as [Hpre Hts].
    pose proof (Forall_inv Hts) as [[? Hsome] | Hstart]; [congruence |].
    pose proof (Forall_inv_tail Hts) as Hpost.
    rewrite Hcall in Hstart. subst t.
    destruct (eg_writer_turn c e b0 b1 pre post Hdo)
      as (k & t' & Hrun & Hres & Hcall').
    rewrite eg_pending_app in Hpend. unfold eg_pending at 2 in Hpend.
    cbn [omap list_omap] in Hpend. rewrite Hnone, Hcall in Hpend.
    fold (eg_pending post) in Hpend.
    cbn [fmap list_fmap fst] in Hpend.
    rewrite <- Permutation_middle in Hpend. apply Permutation_cons_inv in Hpend.
    destruct (IH (pre ++ t' :: post) b1 b) as (schedule & ts' & Hrun' & Hall & Hret).
    { apply Forall_app. split; [done |]. constructor; [| done].
      left. by rewrite Hres. }
    { rewrite eg_pending_app. unfold eg_pending at 2.
      cbn [omap list_omap]. by rewrite Hres. }
    { done. }
    exists (replicate k (length pre) ++ schedule), ts'.
    rewrite run_app, Hrun. cbn [mbind option_bind].
    split; [done |]. split; [done |].
    rewrite Hret, !eg_returned_calls_app.
    unfold eg_returned_calls at 2 4. cbn [omap list_omap].
    rewrite Hres, Hcall', Hnone. cbn [mbind option_bind].
    fold (eg_returned_calls post).
    rewrite <- !app_assoc. apply Permutation_app_head.
    cbn [app]. by rewrite <- Permutation_middle.
Qed.

Lemma eg_start_pending (calls : list (eg_call F)) :
  Forall (fun t => is_Some (eg_result t) \/ t = eg_start (eg_call_of t))
         (eg_start <$> calls) /\
  eg_pending (eg_start <$> calls) = calls /\
  eg_returned_calls (eg_start <$> calls) = [].
Proof.
  unfold eg_pending, eg_returned_calls.
  induction calls as [| c calls (IH1 & IH2 & IH3)]; [done |].
  cbn [fmap list_fmap omap list_omap].
  split; [| by destruct c; cbn; rewrite ?IH2, ?IH3].
  constructor; [| done]. right. by destruct c.
Qed.

(** A goroutine inside that has not panicked can make its next action. *)
Lemma eg_writer_inside_moves (t : eg_writer F)
    (g : guarded (epsilon_greedy.EpsilonGreedy F)) :
  eg_writer_outside t = false -> eg_writer_panicked t = false ->
  is_Some (eg_writer_step t g).
Proof.
  destruct t as [i r [] | n []]; cbn; try done; intros _ _;
    repeat match goal with
           | |- context [decide ?P] => destruct (decide P)
           | |- context [flt ?x ?y] => destruct (flt x y)
           | |- context [index ?s ?k] => destruct (index s k)
           | |- context [store ?s ?k ?x] => destruct (store s k x)
           | |- context [make ?z ?k] => destruct (make z k)
           end; cbn; done.
Qed.

(** A goroutine that has not started can lock a free mutex. *)
Lemma eg_writer_outside_moves (t : eg_writer F)
    (b : epsilon_greedy.EpsilonGreedy F) :
  eg_writer_outside t = true -> eg_result t = None ->
  is_Some (eg_writer_step t (Guarded false b)).
Proof. destruct t as [i r [] | n []]; cbn; done. Qed.
End writers_results.

(** Once all goroutines have returned, the calls that have returned are
    the calls that were made. *)
Lemma eg_returned_calls_all `{Float64 F} (calls : list (eg_call F))
    (b0 : epsilon_greedy.EpsilonGreedy F) (schedule : list nat)
    (ts : list (eg_writer F)) (g : guarded (epsilon_greedy.EpsilonGreedy F)) :
  run eg_writer_step schedule (eg_start <$> calls, Guarded false b0) = Some (ts, g) ->
  Forall (fun t => is_Some (eg_result t)) ts ->
  (eg_returned_calls ts).*1 = calls.
Proof.
  intros Hrun Hall.
  pose proof (eg_calls_run schedule _ _ Hrun) as Hcalls.
  cbn [fst snd] in Hcalls. rewrite eg_call_of_start in Hcalls.
  destruct (all_returned_calls ts Hall) as [Hfst _]. by rewrite Hfst.
Qed.

(** Once all goroutines have returned, the mutex is free and the state is
    the one that the calls leave, made one after the other in some order. *)
Lemma eg_serial_final `{Float64 F} (calls : list (eg_call F))
    (b0 : epsilon_greedy.EpsilonGreedy F) (schedule : list nat)
    (ts : list (eg_writer F)) (g : guarded (epsilon_greedy.EpsilonGreedy F)) :
  run eg_writer_step schedule (eg_start <$> calls, Guarded false b0) = Some (ts, g) ->
  Forall (fun t => is_Some (eg_result t)) ts ->
  held g = false /\
  exists h : list (eg_call F * option error),
    h ≡ₚ eg_returned_calls ts /\ eg_replay h b0 = Some (shared g).
Proof.
  intros Hrun Hall.
  destruct (eg_serial_run b0 schedule _ _ (eg_start_serial b0 calls) Hrun)
    as (h & b & Hperm & Hreplay & Hinv).
  cbn [fst snd] in *.
  destruct (all_returned_calls ts Hall) as [_ Hin].
  rewrite Hin in Hinv.
  destruct (held g).
  - by destruct Hinv as (t & ? & _).
  - destruct Hinv as [_ ->]. split; [done |]. by exists h.
Qed.

(** X11.  Concurrent calls of [Update] and [Init] of epsilon_greedy.go are
    serialisable.  Goroutines that each make one call, whatever the calls
    and their arguments, are interleaved action by action in any way; once
    they have all returned the mutex is free, and the calls, each with the
    error it returned, can be put in an order in which, made one after the
    other from the initial state, each returns that same error and the
    last leaves the final state. *)
Theorem Update_Init_serialisable `{Float64 F} (calls : list (eg_call F))
    (b0 : epsilon_greedy.EpsilonGreedy F) (schedule : list nat)
    (ts : list (eg_writer F)) (g : guarded (epsilon_greedy.EpsilonGreedy F)) :
  run eg_writer_step schedule (eg_start <$> calls, Guarded false b0) = Some (ts, g) ->
  Forall (fun t => is_Some (eg_result t)) ts ->
  held g = false /\
  exists h : list (eg_call F * option error),
    h ≡ₚ eg_returned_calls ts /\ h.*1 ≡ₚ calls /\
    eg_replay h b0 = Some (shared g).
Proof.
  intros Hrun Hall.
  destruct (eg_serial_final calls b0 schedule ts g Hrun Hall)
    as (Hfree & h & Hperm & Hreplay).
  split; [done |]. exists h. split; [done |]. split; [| done].
  rewrite Hperm.
  by rewrite (eg_returned_calls_all calls b0 schedule ts g Hrun Hall).
Qed.

Lemma Update_Init_serialisable_witness :
  held (Guarded false
          {| epsilon_greedy.Epsilon := 0.5%float;
             epsilon_greedy.Counts := [1; 0; 0];
             epsilon_greedy.Rewards := [1%float; 0%float; 0%float] |}) = false /\
  exists h : list (eg_call float * option error),
    h ≡ₚ eg_returned_calls
           [InUpdate 0 1%float (epsilon_greedy.Returned None);
            InInit 3 (InitReturned None);
            InUpdate 2 0.5%float
              (epsilon_greedy.Returned (Some ErrArmsIndexOutOfRange))] /\
    h.*1 ≡ₚ eg_three_calls /\
    eg_replay h eg_two_arms
    = Some {| epsilon_greedy.Epsilon := 0.5%float;
              epsilon_greedy.Counts := [1; 0; 0];
              epsilon_greedy.Rewards := [1%float; 0%float; 0%float] |}.
Proof.
  apply (Update_Init_serialisable eg_three_calls eg_two_arms eg_last_first).
  - vm_compute. reflexivity.
  - repeat constructor; eexists; reflexivity.
Defined.

(** X12.  Every serial order of calls of [Update] and [Init] of
    epsilon_greedy.go is the outcome of some interleaving.  When the calls,
    made one after the other in the order [h], return the errors of [h] and
    leave the state [b], the goroutines that make these calls, in whatever
    order they are listed, have a schedule on which all of them return, with
    these errors, and leave [b] with the mutex free: no order of the
    calls is excluded and the goroutines do not block each other for
    ever. *)
Theorem serial_order_reachable `{Float64 F} (calls : list (eg_call F))
    (h : list (eg_call F * option error))
    (b0 b : epsilon_greedy.EpsilonGreedy F) :
  h.*1 ≡ₚ calls ->
  eg_replay h b0 = Some b ->
  exists (schedule : list nat) (ts : list (eg_writer F)),
    run eg_writer_step schedule (eg_start <$> calls, Guarded false b0)
    = Some (ts, Guarded false b) /\
    Forall (fun t => is_Some (eg_result t)) ts /\
    eg_returned_calls ts ≡ₚ h.
Proof.
  intros Hperm Hreplay.
  destruct (eg_start_pending calls) as (Hts & Hpend & Hret).
  destruct (eg_replay_turns h (eg_start <$> calls) b0 b) as (schedule & ts & Hrun & Hall & Hres).
  - done.
  - by rewrite Hpend.
  - done.
  - exists schedule, ts. rewrite Hret in Hres. done.
Qed.

Lemma serial_order_reachable_witness :
  exists (schedule : list nat) (ts : list (eg_writer float)),
    run eg_writer_step schedule (eg_start <$> eg_three_calls, Guarded false eg_two_arms)
    = Some (ts, Guarded false
                  {| epsilon_greedy.Epsilon := 0.5%float;
                     epsilon_greedy.Counts := [1; 0; 1];
                     epsilon_greedy.Rewards := [1%float; 0%float; 0.5%float] |}) /\
    Forall (fun t => is_Some (eg_result t)) ts /\
    eg_returned_calls ts ≡ₚ eg_Init_first.
Proof.
  apply (serial_order_reachable eg_three_calls eg_Init_first eg_two_arms).
  - unfold eg_Init_first, eg_three_calls. cbn. apply perm_swap.
  - vm_compute. reflexivity.
Defined.

(** X13.  Calls of [Update] and [Init] of epsilon_greedy.go do not deadlock.
    However goroutines that each make one of these calls have been
    interleaved, as long as none has panicked either every goroutine has
    returned or some goroutine can make its next action. *)
Theorem Update_Init_no_deadlock `{Float64 F} (calls : list (eg_call F))
    (b0 : epsilon_greedy.EpsilonGreedy F) (schedule : list nat)
    (ts : list (eg_writer F)) (g : guarded (epsilon_greedy.EpsilonGreedy F)) :
  run eg_writer_step schedule (eg_start <$> calls, Guarded false b0) = Some (ts, g) ->
  Forall (fun t => eg_writer_panicked t = false) ts ->
  Forall (fun t => is_Some (eg_result t)) ts \/
  exists (j : nat) cfg', move eg_writer_step j (ts, g) = Some cfg'.
Proof.
  intros Hrun Hsafe.
  destruct (eg_serial_run b0 schedule _ _ (eg_start_serial b0 calls) Hrun)
    as (h & b & _ & _ & Hinv).
  cbn [fst snd] in Hinv.
  assert (forall t, t ∈ ts -> is_Some (eg_writer_step t g) ->
            exists (j : nat) cfg', move eg_writer_step j (ts, g) = Some cfg')
    as Hmove.
  { intros t Ht [[t' g'] Hstep].
    apply list_elem_of_lookup in Ht as [j Hj].
    exists j. unfold move. cbn [fst snd]. rewrite Hj. cbn [mbind option_bind].
    rewrite Hstep. cbn. eauto. }
  destruct g as [[] bs]; cbn [held shared] in Hinv.
  - right. destruct Hinv as (t & Hin & _).
    assert (In t (eg_writers_inside ts)) as Ht by (rewrite Hin; by left).
    apply filter_In in Ht as [Ht Hout]. apply list_elem_of_In in Ht.
    apply (Hmove t Ht). apply eg_writer_inside_moves.
    + by destruct (eg_writer_outside t).
    + rewrite Forall_forall in Hsafe. by apply Hsafe, list_elem_of_In.
  - destruct Hinv as [Hin _].
    destruct (decide (Forall (fun t => is_Some (eg_result t)) ts)) as [Hall | Hnot];
      [by left | right].
    apply not_Forall_Exists in Hnot; [| intros t; apply _].
    apply Exists_exists in Hnot as (t & Ht & Hnone).
    apply list_elem_of_In in Ht.
    apply (Hmove t Ht). apply eg_writer_outside_moves.
    + destruct (eg_writer_outside t) eqn:Hout; [done |].
      assert (In t (eg_writers_inside ts)) as Hti.
      { apply filter_In. split; [by apply list_elem_of_In | by rewrite Hout]. }
      by rewrite Hin in Hti.
    + cbn in Hnone. by apply eq_None_not_Some.
Qed.

Lemma Update_Init_no_deadlock_witness :
  Forall (fun t => is_Some (eg_result t))
    [InUpdate 0 1%float epsilon_greedy.AtLock; InInit 3 InitAtCounts;
     InUpdate 2 0.5%float
       (epsilon_greedy.Returned (Some ErrArmsIndexOutOfRange))] \/
  exists (j : nat) cfg',
    move eg_writer_step j
      ([InUpdate 0 1%float epsilon_greedy.AtLock; InInit 3 InitAtCounts;
        InUpdate 2 0.5%float
          (epsilon_greedy.Returned (Some ErrArmsIndexOutOfRange))],
       Guarded true eg_two_arms) = Some cfg'.
Proof.
  apply (Update_Init_no_deadlock eg_three_calls eg_two_arms [2; 2; 2; 1; 1]%nat).
  - vm_compute. reflexivity.
  - repeat constructor.
Defined.

(** ** Logs of trials on several arms *)

Section play.
Context `{Float64 F}.










End play.






(** ** Reads of the statistics while other goroutines write *)

Lemma copy_same_length {A} (dst src : list A) :
  length dst = length src -> copy dst src = src.
Proof.
  intros Hlen. unfold copy. rewrite Hlen, firstn_all.
  rewrite drop_ge by lia. apply app_nil_r.
Qed.

Lemma filter_nil_Forall {A} (f : A -> bool) (l : list A) :
  length (List.filter f l) = 0%nat -> Forall (fun x => f x = false) l.
Proof.
  induction l as [| x l IH]; [done |].
  cbn. destruct (f x) eqn:Hx; [done |]. intros Hl. constructor; [done | by apply IH].
Qed.

(** What one action of a goroutine that reads does to the mutex and to the
    goroutine. *)
Lemma Get_step_moves {A B} (zero : A) (field : B -> list A) (between : B -> Prop)
    (a a' : Get_at A) (g g' : rwguarded B) :
  Get_step zero field a g = Some (a', g') ->
  (Get_reading a = true -> (1 <= readers g)%nat) ->
  (Get_reading a = true -> between (shared (wside g))) ->
  Get_ok field between (shared (wside g)) a ->
  wside g' = wside g /\
  (readers g' + (if Get_reading a then 1 else 0)
   = readers g + (if Get_reading a' then 1 else 0))%nat /\
  (Get_reading a = false -> held (wside g) = false) /\
  Get_ok field between (shared (wside g)) a'.
Proof.
  destruct a as [| | sCopy | sCopy | sCopy]; cbn [Get_step Get_reading Get_ok];
    intros Hstep Hone Hbetween Hok; try discriminate.
  - unfold RLock in Hstep. destruct (held (wside g)) eqn:Hheld; [discriminate |].
    cbn in Hstep. injection Hstep as <- <-. cbn. split; [done |].
    split; [lia | done].
  - injection Hstep as <- <-. cbn. split; [done |]. split; [lia |].
    split; [done |]. unfold make_len. apply length_replicate.
  - injection Hstep as <- <-. cbn. split; [done |]. split; [lia |].
    split; [done |]. exists (shared (wside g)).
    split; [by apply Hbetween |]. by apply copy_same_length.
  - injection Hstep as <- <-. cbn. split; [done |].
    specialize (Hone eq_refl). split; [lia |]. done.
Qed.

Section readers.
Context `{Float64 F}.
Implicit Types (t : eg_goroutine F) (w : eg_writer F)
  (g : rwguarded (epsilon_greedy.EpsilonGreedy F))
  (b cur : epsilon_greedy.EpsilonGreedy F) (calls : list (eg_call F)).

Lemma eg_writer_step_call w (gw gw' : guarded (epsilon_greedy.EpsilonGreedy F)) w' :
  eg_writer_step w gw = Some (w', gw') -> eg_call_of w' = eg_call_of w.
Proof.
  destruct w as [i r a | n a]; cbn [eg_writer_step].
  - destruct (epsilon_greedy.Update_step i r a gw) as [[a' g1]|]; [| done].
    cbn. by intros [= <- <-].
  - destruct (Init_step n a gw) as [[a' g1]|]; [| done].
    cbn. by intros [= <- <-].
Qed.

Lemma eg_returned_calls_submseteq (ws : list (eg_writer F)) :
  (eg_returned_calls ws).*1 ⊆+ eg_call_of <$> ws.
Proof.
  unfold eg_returned_calls. induction ws as [| w ws IH]; [done |].
  cbn [omap list_omap fmap list_fmap].
  destruct (eg_result w) as [e|]; cbn [mbind option_bind fmap list_fmap fst].
  - by apply submseteq_skip.
  - by apply submseteq_cons.
Qed.

Lemma eg_writers_app (l1 l2 : list (eg_goroutine F)) :
  eg_writers (l1 ++ l2) = eg_writers l1 ++ eg_writers l2.
Proof. apply omap_app. Qed.

Lemma eg_goroutine_ok_not_reading b0 calls cur cur' t :
  eg_reading t = false ->
  eg_goroutine_ok b0 calls cur t -> eg_goroutine_ok b0 calls cur' t.
Proof. destruct t as [w | [] | []]; cbn; done. Qed.

(** While the mutex is not held for writing the state is between calls. *)
Lemma eg_serial_between b0 (ws : list (eg_writer F))
    (gw : guarded (epsilon_greedy.EpsilonGreedy F)) :
  eg_serial b0 (ws, gw) -> held gw = false ->
  eg_between b0 (eg_call_of <$> ws) (shared gw).
Proof.
  intros (h & b & Hperm & Hreplay & Hinv) Hfree. cbn [fst snd] in *.
  rewrite Hfree in Hinv. destruct Hinv as [_ ->].
  exists h. split; [| done].
  rewrite Hperm. apply eg_returned_calls_submseteq.
Qed.

(** Every action of every goroutine preserves [eg_consistent]. *)
Lemma eg_consistent_move b0 calls (j : nat) cfg cfg' :
  eg_consistent b0 calls cfg -> move eg_goroutine_step j cfg = Some cfg' ->
  eg_consistent b0 calls cfg'.
Proof.
  destruct cfg as [ts g]. unfold move, eg_consistent. cbn [fst snd].
  intros (Hser & Hcalls & Hrd & Hheld & Hok) Hmove.
  destruct (ts !! j) as [t|] eqn:Ht; [| discriminate]. cbn in Hmove.
  destruct (eg_goroutine_step t g) as [[t' g']|] eqn:Hstep; [| discriminate].
  cbn in Hmove. injection Hmove as <-. cbn [fst snd].
  rewrite insert_take_drop by (by eapply lookup_lt_Some).
  rewrite <- (take_drop_middle ts j t Ht) in Hser, Hcalls, Hrd, Hok.
  set (pre := take j ts) in *. set (post := drop (S j) ts) in *.
  rewrite eg_writers_app in Hser, Hcalls. rewrite eg_writers_app.
  rewrite List.filter_app, length_app in Hrd. rewrite List.filter_app, length_app.
  apply Forall_app in Hok as [Hpre Hok].
  pose proof (Forall_inv Hok) as Ht_ok. pose proof (Forall_inv_tail Hok) as Hpost.
  unfold eg_writers at 2 in Hser. unfold eg_writers at 2 in Hcalls.
  unfold eg_writers at 2 4. cbn [omap list_omap List.filter length] in *.
  fold (eg_writers post) in *.
  assert (eg_reading t = true -> held (wside g) = false /\ (1 <= readers g)%nat)
    as Hreading.
  { intros Hr. rewrite Hr in Hrd. cbn [length] in Hrd.
    split; [| lia]. destruct (held (wside g)); [| done].
    specialize (Hheld eq_refl). lia. }
  destruct t as [w | a | a].
  - (* a goroutine that writes *)
    cbn [eg_goroutine_step] in Hstep.
    destruct (eg_writer_outside w && negb (readers g =? 0)%nat) eqn:Hguard;
      [discriminate |].
    destruct (eg_writer_step w (wside g)) as [[w' gw']|] eqn:Hw; [| discriminate].
    cbn in Hstep. injection Hstep as <- <-. cbn [eg_reading wside readers shared] in *.
    assert (readers g = 0%nat) as Hr0.
    { destruct (eg_writer_outside w) eqn:Hout.
      - cbn in Hguard. by apply negb_false_iff, Nat.eqb_eq in Hguard.
      - apply Hheld. destruct Hser as (h & b & _ & _ & Hinv). cbn [fst snd] in Hinv.
        destruct (held (wside g)); [done |]. destruct Hinv as [Hin _].
        rewrite eg_writers_inside_app in Hin. unfold eg_writers_inside at 2 in Hin.
        cbn [List.filter] in Hin. rewrite Hout in Hin. cbn [negb] in Hin.
        by destruct (eg_writers_inside (eg_writers pre)). }
    split; [| split; [| split; [| split]]].
    + apply (eg_serial_move b0 (length (eg_writers pre)) _ _ Hser).
      unfold move. cbn [fst snd]. rewrite list_lookup_middle by done.
      cbn [mbind option_bind]. rewrite Hw. cbn [mbind option_bind fst snd].
      rewrite insert_app_r_alt by lia. by rewrite Nat.sub_diag.
    + rewrite <- Hcalls, !fmap_app, !fmap_cons.
      by rewrite (eg_writer_step_call _ _ _ _ Hw).
    + done.
    + done.
    + rewrite Hr0 in Hrd. symmetry in Hrd.
      assert (Forall (fun x => eg_reading x = false) pre /\
              Forall (fun x => eg_reading x = false) post) as [Hnp Hnq].
      { split; apply filter_nil_Forall; lia. }
      apply Forall_app. split; [| constructor; [done |]].
      * eapply Forall_impl; [| exact (Forall_and Hnp Hpre)].
        intros x [Hx1 Hx2]. by eapply eg_goroutine_ok_not_reading.
      * eapply Forall_impl; [| exact (Forall_and Hnq Hpost)].
        intros x [Hx1 Hx2]. by eapply eg_goroutine_ok_not_reading.
  - (* a goroutine in [GetCounts] *)
    cbn [eg_goroutine_step] in Hstep.
    destruct (Get_step 0 epsilon_greedy.Counts a g) as [[a' g1]|] eqn:Hget;
      [| discriminate].
    cbn in Hstep. injection Hstep as <- <-.
    cbn [eg_reading eg_goroutine_ok] in *.
    destruct (Get_step_moves 0 epsilon_greedy.Counts (eg_between b0 calls)
                a a' g g1 Hget) as (Hw & Hcount & Hfree & Hok');
      [by intros Hr; apply Hreading
       | intros Hr; rewrite <- Hcalls; apply eg_serial_between; [done |];
         by apply Hreading
       | done |].
    rewrite Hw. split; [done |]. split; [done |].
    split; [| split].
    + destruct (Get_reading a), (Get_reading a'); cbn [length] in *; lia.
    + intros Hh. specialize (Hheld Hh).
      destruct (Get_reading a) eqn:Hr.
      * destruct (Hreading eq_refl) as [Hf _]. congruence.
      * rewrite (Hfree eq_refl) in Hh. done.
    + apply Forall_app. split; [done |]. by constructor.
  - (* a goroutine in [GetRewards] *)
    cbn [eg_goroutine_step] in Hstep.
    destruct (Get_step fzero epsilon_greedy.Rewards a g) as [[a' g1]|] eqn:Hget;
      [| discriminate].
    cbn in Hstep. injection Hstep as <- <-.
    cbn [eg_reading eg_goroutine_ok] in *.
    destruct (Get_step_moves fzero epsilon_greedy.Rewards (eg_between b0 calls)
                a a' g g1 Hget) as (Hw & Hcount & Hfree & Hok');
      [by intros Hr; apply Hreading
       | intros Hr; rewrite <- Hcalls; apply eg_serial_between; [done |];
         by apply Hreading
       | done |].
    rewrite Hw. split; [done |]. split; [done |].
    split; [| split].
    + destruct (Get_reading a), (Get_reading a'); cbn [length] in *; lia.
    + intros Hh. specialize (Hheld Hh).
      destruct (Get_reading a) eqn:Hr.
      * destruct (Hreading eq_refl) as [Hf _]. congruence.
      * rewrite (Hfree eq_refl) in Hh. done.
    + apply Forall_app. split; [done |]. by constructor.
Qed.

Lemma eg_consistent_run b0 calls (schedule : list nat) :
  forall cfg cfg',
    eg_consistent b0 calls cfg -> run eg_goroutine_step schedule cfg = Some cfg' ->
    eg_consistent b0 calls cfg'.
Proof.
  induction schedule as [| j schedule IH]; intros cfg cfg' Hinv Hrun.
  - cbn in Hrun. by injection Hrun as <-.
  - cbn in Hrun.
    destruct (move eg_goroutine_step j cfg) as [cfg1|] eqn:Hmove; [| done].
    cbn in Hrun. eapply IH; [| done]. by eapply eg_consistent_move.
Qed.

Lemma eg_go_consistent b0 (jobs : list (eg_job F)) :
  eg_consistent b0 (eg_job_calls jobs)
    (eg_go <$> jobs, RWGuarded 0 (Guarded false b0)).
Proof.
  unfold eg_consistent. cbn [fst snd wside readers held shared].
  assert (eg_writers (eg_go <$> jobs) = eg_start <$> eg_job_calls jobs) as ->.
  { unfold eg_writers, eg_job_calls.
    induction jobs as [| [c | |] jobs IH]; cbn; by rewrite ?IH. }
  split; [apply eg_start_serial |]. split; [apply eg_call_of_start |].
  split; [| split; [done |]].
  - induction jobs as [| [c | |] jobs IH]; cbn; done.
  - apply Forall_fmap, Forall_true. by intros [c | |].
Qed.
End readers.

(** X16.  [GetCounts] and [GetRewards] of epsilon_greedy.go never see a
    call half-way.  Goroutines that each make one call of [Update], [Init],
    [GetCounts] or [GetRewards] are interleaved action by action in any way.
    Whenever [GetCounts] has returned, the slice it returned holds the
    counts of a state that some of the calls of [Update] and [Init], each
    made once, leave when they are made one after the other from the
    initial state; and so for [GetRewards] and the rewards. *)
Theorem reads_between_calls `{Float64 F} (jobs : list (eg_job F))
    (b0 : epsilon_greedy.EpsilonGreedy F) (schedule : list nat)
    (ts : list (eg_goroutine F))
    (g : rwguarded (epsilon_greedy.EpsilonGreedy F)) :
  run eg_goroutine_step schedule (eg_go <$> jobs, RWGuarded 0 (Guarded false b0))
    = Some (ts, g) ->
  (forall counts, ReadsCounts (GetReturned counts) ∈ ts ->
     exists b, eg_between b0 (eg_job_calls jobs) b /\
       counts = epsilon_greedy.Counts b) /\
  (forall rewards, ReadsRewards (GetReturned rewards) ∈ ts ->
     exists b, eg_between b0 (eg_job_calls jobs) b /\
       rewards = epsilon_greedy.Rewards b).
Proof.
  intros Hrun.
  destruct (eg_consistent_run b0 _ schedule _ _ (eg_go_consistent b0 jobs) Hrun)
    as (_ & _ & _ & _ & Hok).
  cbn [fst snd] in Hok. rewrite Forall_forall in Hok.
  split; intros s Hin; apply list_elem_of_In in Hin; exact (Hok _ Hin).
Qed.

Lemma reads_between_calls_witness :
  exists b, eg_between eg_two_arms (eg_job_calls eg_read_jobs) b /\
    [1; 0] = epsilon_greedy.Counts b.
Proof.
  assert (run eg_goroutine_step eg_read_schedule
            (eg_go <$> eg_read_jobs, RWGuarded 0 (Guarded false eg_two_arms))
          = Some ([Writes (InUpdate 0 1%float (epsilon_greedy.Returned None));
                   ReadsCounts (GetReturned [1; 0]);
                   ReadsRewards (GetReturned [1%float; 0%float]);
                   Writes (InInit 3 (InitReturned None))],
                  RWGuarded 0
                    (Guarded false
                       {| epsilon_greedy.Epsilon := 0.5%float;
                          epsilon_greedy.Counts := [0; 0; 0];
                          epsilon_greedy.Rewards := [0%float; 0%float; 0%float] |})))
    as Hrun by (vm_compute; reflexivity).
  destruct (reads_between_calls eg_read_jobs eg_two_arms eg_read_schedule _ _ Hrun)
    as [Hcounts _].
  apply (Hcounts [1; 0]).
  apply list_elem_of_In. right. left. reflexivity.
Defined.
